(** * Verification of the research agent callbacks of [app/agent.py]

    The development embeds the three locally written pieces of logic of
    the agent module:

    - [collect_research_sources_callback], which scans the session events
      for grounding metadata and maintains the source registry;
    - [citation_replacement_callback], which rewrites the citation markers
      of the final report into Markdown links;
    - [EscalationChecker], the loop-control agent.

    Python dictionaries are finite maps ([gmap]); a dictionary with a fixed
    set of possible keys (a source record, an evaluation verdict) is a
    record whose fields are optional, [None] standing for an absent key.
    Exceptions are the [None] of an option type.  Text is a [string] whose
    characters are the code points below 256.  Confidence scores are
    floating-point numbers that the code only copies and compares with
    nothing; they are rationals here, the default 0.5 being [1 # 2]. *)

From Stdlib Require Import QArith Ascii.
From stdpp Require Import gmap strings list fin_maps pretty.

Local Open Scope list_scope.
Set Warnings "-clear-no-such-hyp".

(** ** Data model *)

(** *** Grounding metadata carried by an event

    These are the attributes of the runtime's event objects that the
    callback reads.  An attribute that the callback tests for [None] is
    an option; the three attributes of a web reference are strings. *)

Record Web := {
  uri : string;
  title : string;
  domain : string;
}.

Record GroundingChunk := {
  web : option Web;
}.

Record Segment := {
  text : string;
}.

Record GroundingSupport := {
  segment : option Segment;
  grounding_chunk_indices : option (list Z);
  confidence_scores : option (list Q);
}.

Record GroundingMetadata := {
  grounding_chunks : option (list GroundingChunk);
  grounding_supports : option (list GroundingSupport);
}.

Record EventActions := {
  escalate : option bool;
}.

Record Event := {
  author : string;
  actions : EventActions;
  grounding_metadata : option GroundingMetadata;
}.

(** *** The source registry *)

(** One entry of a record's ["supported_claims"] list. *)
Record claim_entry := {
  text_segment : string;
  confidence : Q;
}.

(** A record of the registry: a dictionary over the keys ["short_id"],
    ["title"], ["url"], ["domain"] and ["supported_claims"]. *)
Record source_info := {
  si_short_id : option string;
  si_title : option string;
  si_url : option string;
  si_domain : option string;
  si_supported_claims : option (list claim_entry);
}.

(** Truth value of the dictionary: false exactly when it has no key. *)
Definition source_info_truthy (si : source_info) : bool :=
  bool_decide (is_Some (si_short_id si)) || bool_decide (is_Some (si_title si))
  || bool_decide (is_Some (si_url si)) || bool_decide (is_Some (si_domain si))
  || bool_decide (is_Some (si_supported_claims si)).

(** *** The evaluation verdict, as stored in the session state *)

Record SearchQuery := {
  search_query : string;
}.

Record Feedback := {
  grade : option string;
  comment : option string;
  follow_up_queries : option (list SearchQuery);
}.

Definition feedback_truthy (f : Feedback) : bool :=
  bool_decide (is_Some (grade f)) || bool_decide (is_Some (comment f))
  || bool_decide (is_Some (follow_up_queries f)).

(** *** Session state: the named slots the three components use *)

Record session_state := {
  slot_url_to_short_id : option (gmap string string);
  slot_sources : option (gmap string source_info);
  slot_research_evaluation : option Feedback;
  slot_final_cited_report : option string;
  slot_final_report_with_citations : option string;
}.

Definition empty_state : session_state :=
  {| slot_url_to_short_id := None; slot_sources := None;
     slot_research_evaluation := None; slot_final_cited_report := None;
     slot_final_report_with_citations := None |}.

Record CallbackContext := {
  session_events : list Event;
  state : session_state;
}.

(** ** Loops *)

(** [for x in xs: s = body(s, x)], where the body may raise. *)
Fixpoint for_each {S A : Type} (body : S → A → option S) (xs : list A) (s : S)
  : option S :=
  match xs with
  | [] => Some s
  | x :: xs' => s' ← body s x; for_each body xs' s'
  end.

(** [enumerate(xs)], counting from [n]. *)
Fixpoint enumerate_from {A : Type} (n : nat) (xs : list A) : list (nat * A) :=
  match xs with
  | [] => []
  | x :: xs' => (n, x) :: enumerate_from (S n) xs'
  end.

Definition enumerate {A : Type} (xs : list A) : list (nat * A) :=
  enumerate_from 0 xs.

(** ** The source collector *)

(** The local variables of [collect_research_sources_callback] that live
    across loop iterations. *)
Record locals := {
  url_to_short_id : gmap string string;
  sources : gmap string source_info;
  id_counter : nat;
  chunks_info : gmap Z string;
}.

(** The formatted identifier [f"src-{id_counter}"]. *)
Definition src_id (n : nat) : string := "src-" +:+ pretty n.

(** The confidence used when the score list is too short. *)
Definition default_confidence : Q := 1 # 2.

(** Body of the loop over [enumerate(grounding_chunks)]. *)
Definition chunk_step (l : locals) (ic : nat * GroundingChunk) : option locals :=
  let '(idx, chunk) := ic in
  match web chunk with
  | None => Some l
  | Some w =>
    let url := uri w in
    let title := if bool_decide (title w ≠ domain w) then title w else domain w in
    let l1 :=
      if bool_decide (url ∉ dom (url_to_short_id l)) then
        let short_id := src_id (id_counter l) in
        {| url_to_short_id := <[url := short_id]> (url_to_short_id l);
           sources :=
             <[short_id := {| si_short_id := Some short_id;
                              si_title := Some title;
                              si_url := Some url;
                              si_domain := Some (domain w);
                              si_supported_claims := Some [] |}]> (sources l);
           id_counter := id_counter l + 1;
           chunks_info := chunks_info l |}
      else l in
    short_id ← url_to_short_id l1 !! url;
    Some {| url_to_short_id := url_to_short_id l1;
            sources := sources l1;
            id_counter := id_counter l1;
            chunks_info := <[Z.of_nat idx := short_id]> (chunks_info l1) |}
  end.

(** [sources[short_id]["supported_claims"].append(entry)]: both
    subscripts raise when the key is absent. *)
Definition append_claim (short_id : string) (entry : claim_entry)
    (srcs : gmap string source_info) : option (gmap string source_info) :=
  si ← srcs !! short_id;
  claims ← si_supported_claims si;
  Some (<[short_id := {| si_short_id := si_short_id si;
                         si_title := si_title si;
                         si_url := si_url si;
                         si_domain := si_domain si;
                         si_supported_claims := Some (claims ++ [entry]) |}]> srcs).

(** Body of the loop over [enumerate(chunk_indices)] for one support. *)
Definition index_step (support : GroundingSupport) (scores : list Q)
    (l : locals) (ii : nat * Z) : option locals :=
  let '(i, chunk_idx) := ii in
  match chunks_info l !! chunk_idx with
  | Some short_id =>
    let confidence :=
      if bool_decide (i < length scores)%nat
      then nth i scores default_confidence
      else default_confidence in
    let text_segment :=
      match segment support with Some s => text s | None => EmptyString end in
    srcs ← append_claim short_id
              {| text_segment := text_segment; confidence := confidence |}
              (sources l);
    Some {| url_to_short_id := url_to_short_id l;
            sources := srcs;
            id_counter := id_counter l;
            chunks_info := chunks_info l |}
  | None => Some l
  end.

(** Body of the loop over [grounding_supports]. *)
Definition support_step (l : locals) (support : GroundingSupport) : option locals :=
  let confidence_scores := default [] (confidence_scores support) in
  let chunk_indices := default [] (grounding_chunk_indices support) in
  for_each (index_step support confidence_scores) (enumerate chunk_indices) l.

(** Body of the loop over [session.events]. *)
Definition event_step (l : locals) (event : Event) : option locals :=
  match grounding_metadata event with
  | None => Some l
  | Some gm =>
    match grounding_chunks gm with
    | None | Some [] => Some l
    | Some chunks =>
      let l0 := {| url_to_short_id := url_to_short_id l;
                   sources := sources l;
                   id_counter := id_counter l;
                   chunks_info := ∅ |} in
      l1 ← for_each chunk_step (enumerate chunks) l0;
      match grounding_supports gm with
      | None | Some [] => Some l1
      | Some supports => for_each support_step supports l1
      end
    end
  end.

(** The callback.  The two dictionaries are read from the state (an
    empty one when the slot is absent), updated by the loops and written
    back at the end; a run that raises does not reach the two assignments
    and has no final state here.  [chunks_info] is unbound in the source
    until the first event with chunks sets it; it starts empty here. *)
Definition collect_research_sources_callback (callback_context : CallbackContext)
  : option session_state :=
  let st := state callback_context in
  let url_to_short_id0 := default ∅ (slot_url_to_short_id st) in
  let sources0 := default ∅ (slot_sources st) in
  let id_counter0 := size url_to_short_id0 + 1 in
  l ← for_each event_step (session_events callback_context)
        {| url_to_short_id := url_to_short_id0;
           sources := sources0;
           id_counter := id_counter0;
           chunks_info := ∅ |};
  Some {| slot_url_to_short_id := Some (url_to_short_id l);
          slot_sources := Some (sources l);
          slot_research_evaluation := slot_research_evaluation st;
          slot_final_cited_report := slot_final_cited_report st;
          slot_final_report_with_citations := slot_final_report_with_citations st |}.

(** ** Logging and exceptions

    A computation that may write log records and may raise: the records
    written so far, and the returned value unless an exception ended it. *)

Inductive log_level := INFO | WARNING.

Record log_record := {
  level : log_level;
  message : string;
}.

Definition Logged (A : Type) : Type := list log_record * option A.

Definition ret {A : Type} (a : A) : Logged A := ([], Some a).

Definition raise {A : Type} : Logged A := ([], None).

Definition logging (lv : log_level) (msg : string) : Logged unit :=
  ([{| level := lv; message := msg |}], Some tt).

Definition bind {A B : Type} (c : Logged A) (f : A → Logged B) : Logged B :=
  match c with
  | (w, Some a) => let '(w', b) := f a in (w ++ w', b)
  | (w, None) => (w, None)
  end.

Notation "x <~ c ;; k" := (bind c (fun x => k))
  (at level 100, c at next level, right associativity).
Notation "c ;;; k" := (bind c (fun _ => k))
  (at level 100, right associativity).

(** ** Regular expressions

    The fragment of Python's [re] syntax that the two patterns of the
    module use, with the backtracking semantics of the [re] engine: a
    greedy quantifier first tries to take one more character and falls
    back to taking none when the rest of the pattern then fails.  All
    quantifiers of the two patterns apply to a character class. *)

Inductive regex :=
| Eps
| Chr (c : ascii)
| Class (p : ascii → bool)
| Seq (r1 r2 : regex)
| Opt (p : ascii → bool)
| Star (p : ascii → bool)
| Plus (p : ascii → bool)
| Group (r : regex).

(** A literal string. *)
Fixpoint Lit (s : string) : regex :=
  match s with
  | EmptyString => Eps
  | String c s' => Seq (Chr c) (Lit s')
  end.

(** State of a match attempt: the text consumed so far, the text of
    capture group 1 once it is closed, and the input still ahead. *)
Record mstate := {
  consumed : string;
  group1 : option string;
  input : string;
}.

(** The state after the first character [c] of the input is taken. *)
Definition take_char (m : mstate) (c : ascii) (s' : string) : mstate :=
  {| consumed := consumed m +:+ String c EmptyString;
     group1 := group1 m;
     input := s' |}.

(** Greedy repetition of a character class, followed by [k]. *)
Fixpoint many (p : ascii → bool) (k : mstate → option mstate)
    (cs : string) (g : option string) (s : string) : option mstate :=
  match s with
  | String c s' =>
    if p c then
      match many p k (cs +:+ String c EmptyString) g s' with
      | Some m => Some m
      | None => k {| consumed := cs; group1 := g; input := s |}
      end
    else k {| consumed := cs; group1 := g; input := s |}
  | EmptyString => k {| consumed := cs; group1 := g; input := s |}
  end.

(** [exec r k m]: match [r] at the head of the input of [m], then [k].
    A group is matched from an empty [consumed], which then holds the
    text of the group when the group is closed. *)
Fixpoint exec (r : regex) (k : mstate → option mstate) (m : mstate)
  : option mstate :=
  match r with
  | Eps => k m
  | Chr c =>
    match input m with
    | String c' s' => if bool_decide (c' = c) then k (take_char m c' s') else None
    | EmptyString => None
    end
  | Class p =>
    match input m with
    | String c' s' => if p c' then k (take_char m c' s') else None
    | EmptyString => None
    end
  | Seq r1 r2 => exec r1 (exec r2 k) m
  | Opt p =>
    match input m with
    | String c' s' =>
      if p c' then
        match k (take_char m c' s') with
        | Some m' => Some m'
        | None => k m
        end
      else k m
    | EmptyString => k m
    end
  | Star p => many p k (consumed m) (group1 m) (input m)
  | Plus p =>
    match input m with
    | String c' s' =>
      if p c'
      then many p k (consumed m +:+ String c' EmptyString) (group1 m) s'
      else None
    | EmptyString => None
    end
  | Group r' =>
    exec r'
      (λ m', k {| consumed := consumed m +:+ consumed m';
                  group1 := Some (consumed m');
                  input := input m' |})
      {| consumed := EmptyString; group1 := group1 m; input := input m |}
  end.

(** A match object: [group(0)] and [group(1)]. *)
Record Match := {
  group0 : string;
  match_group1 : option string;
}.

(** [pattern.match(s)]: the match of [r] at the head of [s], if any, and
    the text after it. *)
Definition match_at (r : regex) (s : string) : option (Match * string) :=
  m ← exec r Some {| consumed := EmptyString; group1 := None; input := s |};
  Some ({| group0 := consumed m; match_group1 := group1 m |}, input m).

(** [re.sub(r, repl, s)] with a function [repl]: scan [s] from the left;
    where [r] matches, call [repl] on the match and go on after it;
    elsewhere copy one character.  [skip] counts the characters of the
    match being replaced that are still to be passed over. *)
Fixpoint sub_loop (r : regex) (repl : Match → Logged string) (skip : nat)
    (s : string) : Logged string :=
  match s with
  | EmptyString =>
    match match_at r s with
    | Some (m, _) => repl m
    | None => ret EmptyString
    end
  | String c s' =>
    match skip with
    | S n => sub_loop r repl n s'
    | O =>
      match match_at r s with
      | Some (m, _) =>
        out <~ repl m;;
        match String.length (group0 m) with
        | O => tl <~ sub_loop r repl 0 s';; ret (out +:+ String c tl)
        | S n => tl <~ sub_loop r repl n s';; ret (out +:+ tl)
        end
      | None => tl <~ sub_loop r repl 0 s';; ret (String c tl)
      end
    end
  end.

Definition re_sub (r : regex) (repl : Match → Logged string) (s : string)
  : Logged string :=
  sub_loop r repl 0 s.

(** *** Character classes (code points below 256) *)

Definition code (c : ascii) : N := N_of_ascii c.

(** [\s]: the Unicode white space. *)
Definition is_space (c : ascii) : bool :=
  ((9 <=? code c) && (code c <=? 13) || (28 <=? code c) && (code c <=? 32)
   || (code c =? 133) || (code c =? 160))%N.

(** [\d]: the decimal digits. *)
Definition is_digit (c : ascii) : bool :=
  ((48 <=? code c) && (code c <=? 57))%N.

(** The class of the two quote characters, double and single. *)
Definition is_quote (c : ascii) : bool :=
  ((code c =? 34) || (code c =? 39))%N.

(** [[.,;:]]. *)
Definition is_punct (c : ascii) : bool :=
  bool_decide (c = "."%char) || bool_decide (c = ","%char)
  || bool_decide (c = ";"%char) || bool_decide (c = ":"%char).

(** *** The two patterns *)

Infix "⋅" := Seq (at level 60, right associativity).

(** [<cite\s+source\s*=\s*Q?\s*(src-\d+)\s*Q?\s*/>], where [Q] is the
    class of the two quote characters: the tag name, then the attribute
    up to the end of the tag. *)
Definition cite_attribute : regex :=
  Plus is_space ⋅ Lit "source" ⋅ Star is_space ⋅ Chr "="
  ⋅ Star is_space ⋅ Opt is_quote ⋅ Star is_space
  ⋅ Group (Lit "src-" ⋅ Plus is_digit)
  ⋅ Star is_space ⋅ Opt is_quote ⋅ Star is_space ⋅ Lit "/>".

Definition cite_pattern : regex := Lit "<cite" ⋅ cite_attribute.

(** [\s+([.,;:])] *)
Definition space_punct_pattern : regex :=
  Plus is_space ⋅ Group (Class is_punct).

(** ** The citation rewriter *)

(** [match.group(1)]; a group that took no part in the match is [None]. *)
Definition group_1 (m : Match) : string := default EmptyString (match_group1 m).

(** The replacement function: a record that is absent, or is the empty
    dictionary, gives a warning and the empty string; the subscript
    [source_info['url']] raises when the record has no URL. *)
Definition tag_replacer (sources : gmap string source_info) (m : Match)
  : Logged string :=
  let short_id := group_1 m in
  match sources !! short_id with
  | Some source_info =>
    if source_info_truthy source_info then
      let display_text :=
        default (default short_id (si_domain source_info)) (si_title source_info) in
      match si_url source_info with
      | Some url => ret (" [" +:+ display_text +:+ "](" +:+ url +:+ ")")
      | None => raise
      end
    else
      logging WARNING ("Invalid citation tag found and removed: " +:+ group0 m);;;
      ret EmptyString
  | None =>
    logging WARNING ("Invalid citation tag found and removed: " +:+ group0 m);;;
    ret EmptyString
  end.

Record Part := {
  part_text : string;
}.

Record Content := {
  parts : list Part;
}.

(** The callback reads nothing of its context but the state [st]; it
    returns the content and the state with the output slot set. *)
Definition citation_replacement_callback (st : session_state)
  : Logged (Content * session_state) :=
  let final_report := default EmptyString (slot_final_cited_report st) in
  let sources := default ∅ (slot_sources st) in
  processed_report <~ re_sub cite_pattern (tag_replacer sources) final_report;;
  processed_report <~ re_sub space_punct_pattern (λ m, ret (group_1 m)) processed_report;;
  ret ({| parts := [{| part_text := processed_report |}] |},
       {| slot_url_to_short_id := slot_url_to_short_id st;
          slot_sources := slot_sources st;
          slot_research_evaluation := slot_research_evaluation st;
          slot_final_cited_report := slot_final_cited_report st;
          slot_final_report_with_citations := Some processed_report |}).

(** ** The escalation checker *)

(** [_run_async_impl] of the agent called [name], on the session state
    [st] of its context: the events yielded, in order, and the session
    state afterwards. *)
Definition EscalationChecker_run_async_impl (name : string) (st : session_state)
  : Logged (list Event * session_state) :=
  let evaluation_result := slot_research_evaluation st in
  if match evaluation_result with
     | Some f => feedback_truthy f && bool_decide (grade f = Some "pass")
     | None => false
     end
  then
    logging INFO ("[" +:+ name +:+ "] Research evaluation passed. Escalating to stop loop.");;;
    ret ([{| author := name; actions := {| escalate := Some true |};
             grounding_metadata := None |}], st)
  else
    logging INFO ("[" +:+ name +:+ "] Research evaluation failed or not found. Loop will continue.");;;
    ret ([{| author := name; actions := {| escalate := None |};
             grounding_metadata := None |}], st).

(** * Vocabulary of the statements *)

(** ** Reading events and states *)

(** The chunks and the supports an event carries; none when the metadata
    or the list is absent. *)
Definition event_chunks (ev : Event) : list GroundingChunk :=
  default [] (grounding_metadata ev ≫= grounding_chunks).

Definition event_supports (ev : Event) : list GroundingSupport :=
  default [] (grounding_metadata ev ≫= grounding_supports).

(** The URLs of the web chunks, in chunk order. *)
Definition chunk_urls (cs : list GroundingChunk) : list string :=
  omap (λ c, uri <$> web c) cs.

Definition events_urls (evs : list Event) : list string :=
  evs ≫= (λ ev, chunk_urls (event_chunks ev)).

(** The claims a record holds; none when the record or its list is absent. *)
Definition claims_of (srcs : gmap string source_info) (sid : string)
  : list claim_entry :=
  default [] (srcs !! sid ≫= si_supported_claims).

(** The index slot and the registry slot of a state, as the callback
    reads them. *)
Definition index_of (st : session_state) : gmap string string :=
  default ∅ (slot_url_to_short_id st).

Definition registry_of (st : session_state) : gmap string source_info :=
  default ∅ (slot_sources st).

(** The locals with another chunk map. *)
Definition with_chunks_info (l : locals) (ci : gmap Z string) : locals :=
  {| url_to_short_id := url_to_short_id l; sources := sources l;
     id_counter := id_counter l; chunks_info := ci |}.

(** The record the callback makes for a new URL. *)
Definition new_record (sid t u d : string) : source_info :=
  {| si_short_id := Some sid; si_title := Some t; si_url := Some u;
     si_domain := Some d; si_supported_claims := Some [] |}.

(** The loop invariant: the property, the counter one past the size of
    the index, and a chunk map that holds indexed identifiers only. *)
Definition loop_inv (P : gmap string string → gmap string source_info → Prop)
    (l : locals) : Prop :=
  P (url_to_short_id l) (sources l)
  ∧ id_counter l = size (url_to_short_id l) + 1
  ∧ ∀ z sid, chunks_info l !! z = Some sid →
      ∃ u, url_to_short_id l !! u = Some sid.

(** ** What a run computes *)

(** Registration of one URL in the index: a known URL keeps its
    identifier, a new one takes the next number. *)
Definition assign (idx : gmap string string) (u : string) : gmap string string :=
  match idx !! u with
  | Some _ => idx
  | None => <[u := src_id (size idx + 1)]> idx
  end.

Definition assign_all (idx : gmap string string) (us : list string)
  : gmap string string :=
  foldl assign idx us.

(** The identifier a chunk index of an event resolves to: that of the URL
    of the event's chunk at this index, when it is a web chunk. *)
Definition resolve (cs : list GroundingChunk) (idx : gmap string string) (z : Z)
  : option string :=
  if decide (0 ≤ z)%Z then c ← cs !! Z.to_nat z; w ← web c; idx !! uri w
  else None.

Definition support_text (sup : GroundingSupport) : string :=
  from_option text EmptyString (segment sup).

(** The confidence of the claim at position [i] of a support: the score
    at this position when there is one, a half otherwise. *)
Definition expected_confidence (sup : GroundingSupport) (i : nat) : Q :=
  default (1 # 2) (confidence_scores sup ≫= (.!! i)).

(** The claim of one position of the chunk-index list of a support, with
    the identifier it goes to, for a resolution [ci] of chunk indices; and
    the claims of all positions, in order. *)
Definition claim_at (ci : Z → option string) (sup : GroundingSupport)
    (iz : nat * Z) : option (string * claim_entry) :=
  sid ← ci iz.2;
  Some (sid, {| text_segment := support_text sup;
                confidence := expected_confidence sup iz.1 |}).

Definition support_claims (ci : Z → option string) (sup : GroundingSupport)
  : list (string * claim_entry) :=
  omap (claim_at ci sup) (enumerate (default [] (grounding_chunk_indices sup))).

Definition event_claims (idx : gmap string string) (ev : Event)
  : list (string * claim_entry) :=
  event_supports ev ≫= support_claims (resolve (event_chunks ev) idx).

Definition claims_for (sid : string) (xs : list (string * claim_entry))
  : list claim_entry :=
  (filter (λ x, x.1 = sid) xs).*2.

(** Identifiers beyond the size of the index are not keys of the
    registry: the next identifier is free. *)
Definition next_free (idx : gmap string string) (srcs : gmap string source_info)
  : Prop :=
  ∀ k, size idx < k → src_id k ∉ dom srcs.

(** All claims the events contribute, for the identifiers of [idx]. *)
Definition events_claims (idx : gmap string string) (evs : list Event)
  : list (string * claim_entry) :=
  evs ≫= event_claims idx.

(** ** First-seen order *)

(** The distinct elements of a list, each at its first occurrence. *)
Fixpoint first_seen (us : list string) : list string :=
  match us with
  | [] => []
  | u :: us' => u :: filter (λ v, v ≠ u) (first_seen us')
  end.

(** The URLs of [us] that are new to [idx], in first-seen order. *)
Definition new_urls (idx : gmap string string) (us : list string) : list string :=
  first_seen (filter (λ u, idx !! u = None) us).

(** ** Consistency of the index and the registry *)

(** The index and the registry agree on the identifiers: every URL of the
    index maps to a key of the registry, and every key of the registry is
    the identifier of exactly one URL of the index. *)
Definition mutually_consistent (idx : gmap string string)
    (srcs : gmap string source_info) : Prop :=
  (∀ u sid, idx !! u = Some sid → sid ∈ dom srcs)
  ∧ (∀ sid, sid ∈ dom srcs →
       ∃ u, idx !! u = Some sid ∧ ∀ u', idx !! u' = Some sid → u' = u).

(** No identifier in use is numbered beyond the size of the index, so
    that the next number is unused. *)
Definition numbered (idx : gmap string string) : Prop :=
  ∀ u k, idx !! u = Some (src_id k) → k ≤ size idx.

(** Every record has a claims list. *)
Definition claims_present (srcs : gmap string source_info) : Prop :=
  ∀ sid si, srcs !! sid = Some si → is_Some (si_supported_claims si).

(** The record of an indexed URL stores this URL and its identifier. *)
Definition records_match (idx : gmap string string)
    (srcs : gmap string source_info) : Prop :=
  ∀ u sid, idx !! u = Some sid →
    ∃ si, srcs !! sid = Some si ∧ si_url si = Some u ∧ si_short_id si = Some sid.

(** The states the callback is made for: the empty one and those its own
    runs leave. *)
Definition registry_inv (idx : gmap string string)
    (srcs : gmap string source_info) : Prop :=
  mutually_consistent idx srcs ∧ numbered idx
  ∧ claims_present srcs ∧ records_match idx srcs.

(** ** Sample events and states *)

Definition web_chunk (u t d : string) : GroundingChunk :=
  {| web := Some {| uri := u; title := t; domain := d |} |}.

Definition sample_support : GroundingSupport :=
  {| segment := Some {| text := "seg" |};
     grounding_chunk_indices := Some [0; 2; 5; 1]%Z;
     confidence_scores := Some [0.9%Q] |}.

Definition grounded_event (cs : list GroundingChunk) (sups : list GroundingSupport)
  : Event :=
  {| author := "section_researcher"; actions := {| escalate := None |};
     grounding_metadata :=
       Some {| grounding_chunks := Some cs; grounding_supports := Some sups |} |}.

(** An event citing [u1], [u2] and [u1] again, with one support. *)
Definition sample_event : Event :=
  grounded_event
    [web_chunk "u1" "T1" "d1"; web_chunk "u2" "T2" "d2"; web_chunk "u1" "T1" "d1"]
    [sample_support].

Definition sample_ctx : CallbackContext :=
  {| session_events := [sample_event]; state := empty_state |}.

(** The index holds exactly the URLs of [us], numbered from 1 in the
    order of the list. *)
Definition numbered_as (us : list string) (idx : gmap string string) : Prop :=
  size idx = length us
  ∧ (∀ k u, us !! k = Some u → idx !! u = Some (src_id (k + 1)))
  ∧ ∀ u, is_Some (idx !! u) → u ∈ us.

(** The same, with the identifiers written out: the URL at position [k]
    of [us], counted from 0, has the text [src-] followed by the decimal
    numeral of [k + 1]; the identifiers in use are these texts for the
    numbers 1 to the length of [us], and no others; and no identifier
    stands for two URLs. *)
Definition numbered_src_1_to_N (us : list string) (idx : gmap string string)
  : Prop :=
  (∀ k u, us !! k = Some u → idx !! u = Some ("src-" +:+ pretty (k + 1)))
  ∧ (∀ sid, (∃ u, idx !! u = Some sid)
            ↔ ∃ k, 1 ≤ k ≤ length us ∧ sid = "src-" +:+ pretty k)
  ∧ ∀ u v sid, idx !! u = Some sid → idx !! v = Some sid → u = v.

(** An event that cites a third URL and [u1] again. *)
Definition later_event : Event :=
  grounded_event [web_chunk "u3" "T3" "d3"; web_chunk "u1" "T1" "d1"] [].

(** A state whose only identifier is numbered beyond the size of its
    index, and an event that brings one new URL. *)
Definition stale_record : source_info :=
  {| si_short_id := Some "src-2"; si_title := Some "A"; si_url := Some "a";
     si_domain := Some "a.org"; si_supported_claims := Some [] |}.

Definition stale_state : session_state :=
  {| slot_url_to_short_id := Some {[ "a" := "src-2" ]};
     slot_sources := Some {[ "src-2" := stale_record ]};
     slot_research_evaluation := None; slot_final_cited_report := None;
     slot_final_report_with_citations := None |}.

Definition stale_ctx : CallbackContext :=
  {| session_events := [grounded_event [web_chunk "b" "B" "b.org"] []];
     state := stale_state |}.

(** The records the chunk map points to exist and have a claims list. *)
Definition chunk_map_ok (l : locals) : Prop :=
  ∀ z sid, chunks_info l !! z = Some sid →
    ∃ si, sources l !! sid = Some si ∧ is_Some (si_supported_claims si).

(** The state after the chunks of [sample_event] have been registered. *)
Definition sample_locals : locals :=
  {| url_to_short_id := {[ "u1" := "src-1"; "u2" := "src-2" ]};
     sources := {[ "src-1" := new_record "src-1" "T1" "u1" "d1";
                   "src-2" := new_record "src-2" "T2" "u2" "d2" ]};
     id_counter := 3;
     chunks_info := {[ 0%Z := "src-1"; 1%Z := "src-2"; 2%Z := "src-1" ]} |}.

(** The initial locals, with a chunk map left over from another event. *)
Definition stale_locals : locals :=
  {| url_to_short_id := ∅; sources := ∅; id_counter := 1;
     chunks_info := {[ 5%Z := "src-9" ]} |}.

(** ** Sample reports *)

(** The marker [<cite source=Qsrc-NQ/>] with double quotes [Q] (the
    character of code 34). *)
Definition cite_marker (sid : string) : string :=
  "<cite source=" +:+ String "034" (sid +:+ String "034" "/>").

Definition sample_report : string :=
  "Claim A" +:+ cite_marker "src-1" +:+ ", claim B" +:+ cite_marker "src-2" +:+ ".".

Definition titled_source (t u : string) : source_info :=
  {| si_short_id := None; si_title := Some t; si_url := Some u;
     si_domain := None; si_supported_claims := None |}.

Definition sample_registry : gmap string source_info :=
  {[ "src-1" := titled_source "T1" "u1"; "src-2" := titled_source "T2" "u2" ]}.

Definition sample_rewritten : string := "Claim A [T1](u1), claim B [T2](u2).".

(** The state with another value in the output slot. *)
Definition with_final_report (st : session_state) (report : string)
  : session_state :=
  {| slot_url_to_short_id := slot_url_to_short_id st;
     slot_sources := slot_sources st;
     slot_research_evaluation := slot_research_evaluation st;
     slot_final_cited_report := slot_final_cited_report st;
     slot_final_report_with_citations := Some report |}.

Definition text_content (s : string) : Content :=
  {| parts := [{| part_text := s |}] |}.

Definition sample_report_state : session_state :=
  {| slot_url_to_short_id := None;
     slot_sources := Some sample_registry;
     slot_research_evaluation := None;
     slot_final_cited_report := Some sample_report;
     slot_final_report_with_citations := None |}.

(** ** Matching and substitution *)

(** No leaf of [r] accepts the character [b]. *)
Fixpoint avoids (b : ascii) (r : regex) : bool :=
  match r with
  | Eps => true
  | Chr c => bool_decide (c ≠ b)
  | Class p | Opt p | Star p | Plus p => negb (p b)
  | Seq r1 r2 => avoids b r1 && avoids b r2
  | Group r' => avoids b r'
  end.

(** The match state with the text [t] added at the end of its input. *)
Definition extend (t : string) (m : mstate) : mstate :=
  {| consumed := consumed m; group1 := group1 m; input := input m +:+ t |}.

(** The second substitution, whose replacement neither logs nor raises. *)
Fixpoint sub_pure (r : regex) (f : Match → string) (skip : nat) (s : string)
  : string :=
  match s with
  | EmptyString =>
    match match_at r s with
    | Some (m, _) => f m
    | None => EmptyString
    end
  | String c s' =>
    match skip with
    | S n => sub_pure r f n s'
    | O =>
      match match_at r s with
      | Some (m, _) =>
        match String.length (group0 m) with
        | O => f m +:+ String c (sub_pure r f 0 s')
        | S n => f m +:+ sub_pure r f n s'
        end
      | None => String c (sub_pure r f 0 s')
      end
    end
  end.

(** Removal of the white space before a punctuation mark. *)
Definition normalize_spacing (s : string) : string :=
  sub_pure space_punct_pattern group_1 0 s.

Definition removal_warning (m : Match) : log_record :=
  {| level := WARNING;
     message := "Invalid citation tag found and removed: " +:+ group0 m |}.

(** A report with a marker for [src-99], which the sample registry does
    not have, followed by a marker for [src-1]. *)
Definition unresolved_marker : string := "<cite  source = 'src-99' />".

Definition unresolved_report_state : session_state :=
  {| slot_url_to_short_id := None;
     slot_sources := Some sample_registry;
     slot_research_evaluation := None;
     slot_final_cited_report :=
       Some ("A" +:+ unresolved_marker +:+ " , B" +:+ cite_marker "src-1" +:+ " .");
     slot_final_report_with_citations := None |}.

(** ** Events and records of the escalation checker *)

Definition escalate_event (name : string) : Event :=
  {| author := name; actions := {| escalate := Some true |};
     grounding_metadata := None |}.

Definition plain_event (name : string) : Event :=
  {| author := name; actions := {| escalate := None |};
     grounding_metadata := None |}.

(** The [research_evaluation] slot holds a verdict graded [pass]. *)
Definition verdict_passes (st : session_state) : Prop :=
  ∃ f, slot_research_evaluation st = Some f ∧ grade f = Some "pass".

Definition passed_record (name : string) : log_record :=
  {| level := INFO;
     message := "[" +:+ name
                +:+ "] Research evaluation passed. Escalating to stop loop." |}.

Definition continue_record (name : string) : log_record :=
  {| level := INFO;
     message := "[" +:+ name
                +:+ "] Research evaluation failed or not found. Loop will continue." |}.

Definition verdict (g : string) : Feedback :=
  {| grade := Some g; comment := Some "c"; follow_up_queries := None |}.

Definition state_with_verdict (o : option Feedback) : session_state :=
  {| slot_url_to_short_id := None; slot_sources := None;
     slot_research_evaluation := o; slot_final_cited_report := None;
     slot_final_report_with_citations := None |}.

(** ** Further vocabulary for the collector *)

(** The state with the two dictionaries written back. *)
Definition with_registry (st : session_state) (idx : gmap string string)
    (srcs : gmap string source_info) : session_state :=
  {| slot_url_to_short_id := Some idx;
     slot_sources := Some srcs;
     slot_research_evaluation := slot_research_evaluation st;
     slot_final_cited_report := slot_final_cited_report st;
     slot_final_report_with_citations := slot_final_report_with_citations st |}.


(** The record [si'] is the record [si] with claims added at the end of
    its list, if it has one. *)
Definition extends_record (si si' : source_info) : Prop :=
  si_short_id si' = si_short_id si
  ∧ si_title si' = si_title si
  ∧ si_url si' = si_url si
  ∧ si_domain si' = si_domain si
  ∧ match si_supported_claims si with
    | Some claims => ∃ more, si_supported_claims si' = Some (claims ++ more)
    | None => si_supported_claims si' = None
    end.

(** Events that the callback passes over, the second one in spite of its
    support. *)
Definition bare_event : Event :=
  {| author := "planner"; actions := {| escalate := None |};
     grounding_metadata := None |}.

Definition chunkless_event : Event :=
  {| author := "planner"; actions := {| escalate := None |};
     grounding_metadata :=
       Some {| grounding_chunks := Some [];
               grounding_supports := Some [sample_support] |} |}.

(** Locals whose chunk map points to an identifier without a record. *)
Definition dangling_locals : locals :=
  {| url_to_short_id := {[ "u1" := "src-1" ]}; sources := ∅; id_counter := 2;
     chunks_info := {[ 0%Z := "src-1" ]} |}.

(** A state left by an earlier run that has seen [u1] with one claim. *)
Definition seeded_record : source_info :=
  {| si_short_id := Some "src-1"; si_title := Some "T1"; si_url := Some "u1";
     si_domain := Some "d1";
     si_supported_claims :=
       Some [ {| text_segment := "old"; confidence := 1 |} ] |}.

Definition seeded_state : session_state :=
  {| slot_url_to_short_id := Some {[ "u1" := "src-1" ]};
     slot_sources := Some {[ "src-1" := seeded_record ]};
     slot_research_evaluation := None; slot_final_cited_report := None;
     slot_final_report_with_citations := None |}.

Definition seeded_ctx : CallbackContext :=
  {| session_events := [sample_event]; state := seeded_state |}.

(** The web references of the chunks of the events, in order. *)
Definition events_webs (evs : list Event) : list Web :=
  evs ≫= (λ ev, omap web (event_chunks ev)).

(** The first web reference with the URL [u]. *)
Definition first_web (u : string) (ws : list Web) : option Web :=
  head (filter (λ w, uri w = u) ws).

(** The record of [sid] is the one the callback makes for [w]. *)
Definition record_of_web (srcs : gmap string source_info) (sid : string)
    (w : Web) : Prop :=
  ∃ si, srcs !! sid = Some si
        ∧ si_short_id si = Some sid
        ∧ si_title si = Some (title w)
        ∧ si_url si = Some (uri w)
        ∧ si_domain si = Some (domain w).

(** The state of the loops after the web references [done], for a run
    that started with the index [idx0]: the counter is one past the size
    of the index, the next identifiers are free, every reference seen is
    indexed, and the record of every URL indexed since the start is the
    one made for the first reference with this URL. *)
Definition first_wins (idx0 : gmap string string) (done : list Web)
    (l : locals) : Prop :=
  id_counter l = size (url_to_short_id l) + 1
  ∧ next_free (url_to_short_id l) (sources l)
  ∧ (∀ w, w ∈ done → is_Some (url_to_short_id l !! uri w))
  ∧ ∀ u sid, url_to_short_id l !! u = Some sid → idx0 !! u = None →
      ∃ w, first_web u done = Some w ∧ record_of_web (sources l) sid w.

(** An event that cites [u1] again, under another title. *)
Definition retitled_event : Event :=
  grounded_event [web_chunk "u1" "Other title" "other.org"] [].

(** ** Further vocabulary for the rewriter *)

(** The text shown for a record: its title, else its domain, else the
    identifier. *)
Definition display_text (si : source_info) (short_id : string) : string :=
  default (default short_id (si_domain si)) (si_title si).

(** The Markdown link that replaces a marker, with the space before it. *)
Definition link_text (shown url : string) : string :=
  " [" +:+ shown +:+ "](" +:+ url +:+ ")".

(** The character [c] occurs in [s]. *)
Fixpoint occurs (c : ascii) (s : string) : bool :=
  match s with
  | EmptyString => false
  | String c' s' => bool_decide (c' = c) || occurs c s'
  end.

(** Records: one with a domain and a URL but no title, one with a title
    but no URL, and the empty dictionary. *)
Definition untitled_source : source_info :=
  {| si_short_id := None; si_title := None; si_url := Some "u7";
     si_domain := Some "d7.org"; si_supported_claims := None |}.

Definition urlless_source : source_info :=
  {| si_short_id := None; si_title := Some "T8"; si_url := None;
     si_domain := None; si_supported_claims := None |}.

Definition empty_source : source_info :=
  {| si_short_id := None; si_title := None; si_url := None;
     si_domain := None; si_supported_claims := None |}.

Definition odd_registry : gmap string source_info :=
  {[ "src-7" := untitled_source; "src-8" := urlless_source;
     "src-9" := empty_source ]}.

(** The state with the registry [odd_registry] and the report [report]. *)
Definition odd_report_state (report : string) : session_state :=
  {| slot_url_to_short_id := None;
     slot_sources := Some odd_registry;
     slot_research_evaluation := None;
     slot_final_cited_report := Some report;
     slot_final_report_with_citations := None |}.

(** The longest prefix of [s] whose characters are in the class [p], and
    what follows it. *)
Fixpoint take_class (p : ascii → bool) (s : string) : string :=
  match s with
  | String c s' => if p c then String c (take_class p s') else EmptyString
  | EmptyString => EmptyString
  end.

Fixpoint drop_class (p : ascii → bool) (s : string) : string :=
  match s with
  | String c s' => if p c then drop_class p s' else s
  | EmptyString => EmptyString
  end.

(** The first character of [s] after its leading white space is a
    punctuation mark of the class [[.,;:]]. *)
Definition punct_ahead (s : string) : bool :=
  match drop_class is_space s with
  | String c _ => is_punct c
  | EmptyString => false
  end.

(** [s] without the white-space characters that are followed, after any
    further white space, by a punctuation mark. *)
Fixpoint squeeze (s : string) : string :=
  match s with
  | EmptyString => EmptyString
  | String c s' =>
    if is_space c && punct_ahead s' then squeeze s' else String c (squeeze s')
  end.

(** Some white-space character of [s] is directly followed by a
    punctuation mark. *)
Fixpoint space_before_punct (s : string) : bool :=
  match s with
  | EmptyString => false
  | String c s' =>
    is_space c && match s' with
                  | String c' _ => is_punct c'
                  | EmptyString => false
                  end
    || space_before_punct s'
  end.

(** [s] without its white space. *)
Fixpoint without_spaces (s : string) : string :=
  match s with
  | EmptyString => EmptyString
  | String c s' =>
    if is_space c then without_spaces s' else String c (without_spaces s')
  end.

(** ** The forms of a marker *)

(** All characters of [s] are in the class [p]. *)
Fixpoint all_class (p : ascii → bool) (s : string) : bool :=
  match s with
  | EmptyString => true
  | String c s' => p c && all_class p s'
  end.

(** The first character of [s], if any, is in the class [p]. *)
Definition head_in (p : ascii → bool) (s : string) : bool :=
  match s with
  | String c _ => p c
  | EmptyString => false
  end.

Definition nonempty (s : string) : bool :=
  match s with
  | EmptyString => false
  | String _ _ => true
  end.

(** The text of an optional character. *)
Definition optional_char (q : option ascii) : string :=
  match q with
  | Some c => String c EmptyString
  | None => EmptyString
  end.

(** The parts of a marker that the pattern leaves open: the white space
    after the tag name, around the equals sign, inside the quotes and
    before the end of the tag, the two optional quote characters, and
    the digits of the identifier. *)
Record marker_form := {
  after_cite : string;
  after_source : string;
  after_equals : string;
  open_quote : option ascii;
  after_open : string;
  digits : string;
  after_id : string;
  close_quote : option ascii;
  after_close : string;
}.

Definition marker_id (f : marker_form) : string := "src-" +:+ digits f.

Definition marker_text (f : marker_form) : string :=
  "<cite" +:+ after_cite f +:+ "source" +:+ after_source f +:+ "="
  +:+ after_equals f +:+ optional_char (open_quote f) +:+ after_open f
  +:+ marker_id f
  +:+ after_id f +:+ optional_char (close_quote f) +:+ after_close f +:+ "/>".

(** At least one white-space character after the tag name, white space
    only in the other gaps, quote characters for quotes, and at least one
    digit, digits only, in the identifier. *)
Definition well_formed (f : marker_form) : bool :=
  nonempty (after_cite f) && all_class is_space (after_cite f)
  && all_class is_space (after_source f)
  && all_class is_space (after_equals f)
  && from_option is_quote true (open_quote f)
  && all_class is_space (after_open f)
  && nonempty (digits f) && all_class is_digit (digits f)
  && all_class is_space (after_id f)
  && from_option is_quote true (close_quote f)
  && all_class is_space (after_close f).

(** The form in which white space that no quote separates from the white
    space before it is counted with the latter. *)
Definition canonical (f : marker_form) : marker_form :=
  {| after_cite := after_cite f;
     after_source := after_source f;
     after_equals :=
       match open_quote f with
       | Some _ => after_equals f
       | None => after_equals f +:+ after_open f
       end;
     open_quote := open_quote f;
     after_open :=
       match open_quote f with
       | Some _ => after_open f
       | None => EmptyString
       end;
     digits := digits f;
     after_id :=
       match close_quote f with
       | Some _ => after_id f
       | None => after_id f +:+ after_close f
       end;
     close_quote := close_quote f;
     after_close :=
       match close_quote f with
       | Some _ => after_close f
       | None => EmptyString
       end |}.

(** The marker with single quotes and white space in every gap, and the
    markers with no quote and no white space but the one required. *)
Definition spaced_form : marker_form :=
  {| after_cite := "  "; after_source := " "; after_equals := " ";
     open_quote := Some "'"%char; after_open := " "; digits := "042";
     after_id := " "; close_quote := Some "'"%char; after_close := " " |}.

Definition plain_form (ds : string) : marker_form :=
  {| after_cite := " "; after_source := EmptyString;
     after_equals := EmptyString; open_quote := None;
     after_open := EmptyString; digits := ds; after_id := EmptyString;
     close_quote := None; after_close := EmptyString |}.

Definition bare_form : marker_form := plain_form "7".

(** The state [st] with the report [report] to rewrite. *)
Definition with_cited_report (st : session_state) (report : string)
  : session_state :=
  {| slot_url_to_short_id := slot_url_to_short_id st;
     slot_sources := slot_sources st;
     slot_research_evaluation := slot_research_evaluation st;
     slot_final_cited_report := Some report;
     slot_final_report_with_citations := slot_final_report_with_citations st |}.

(** ** Reports made of markers and plain text *)

(** The match of a marker. *)
Definition marker_match (f : marker_form) : Match :=
  {| group0 := marker_text f; match_group1 := Some (marker_id f) |}.

(** A report after its first text: markers, each followed by a text. *)
Fixpoint cited_report (items : list (marker_form * string)) : string :=
  match items with
  | [] => EmptyString
  | (f, t) :: items' => marker_text f +:+ t +:+ cited_report items'
  end.

(** The markers are of the tolerant form and [<] occurs in no text. *)
Definition plain_items (items : list (marker_form * string)) : bool :=
  forallb (λ x, well_formed x.1 && negb (occurs "<" x.2)) items.

(** The replacements of the markers, in order, with the texts between. *)
Fixpoint replace_markers (repl : Match → Logged string)
    (items : list (marker_form * string)) : Logged string :=
  match items with
  | [] => ret EmptyString
  | (f, t) :: items' =>
    out <~ repl (marker_match f);;
    tl <~ replace_markers repl items';;
    ret (out +:+ t +:+ tl)
  end.

(** What stands for a marker in the rewritten report, in a registry
    whose records have a URL: the link of the record, or nothing when
    the identifier has no record. *)
Definition replacement (srcs : gmap string source_info) (f : marker_form)
  : string :=
  match srcs !! marker_id f with
  | Some si =>
    link_text (display_text si (marker_id f)) (default EmptyString (si_url si))
  | None => EmptyString
  end.

Fixpoint linked_report (srcs : gmap string source_info)
    (items : list (marker_form * string)) : string :=
  match items with
  | [] => EmptyString
  | (f, t) :: items' => replacement srcs f +:+ t +:+ linked_report srcs items'
  end.

(** One warning for each marker whose identifier has no record. *)
Fixpoint removal_warnings (srcs : gmap string source_info)
    (items : list (marker_form * string)) : list log_record :=
  match items with
  | [] => []
  | (f, t) :: items' =>
    match srcs !! marker_id f with
    | Some _ => removal_warnings srcs items'
    | None => removal_warning (marker_match f) :: removal_warnings srcs items'
    end
  end.

(** The marker with double quotes, and the one of [unresolved_marker]. *)
Definition quoted_form (ds : string) : marker_form :=
  {| after_cite := " "; after_source := EmptyString;
     after_equals := EmptyString; open_quote := Some "034"%char;
     after_open := EmptyString; digits := ds; after_id := EmptyString;
     close_quote := Some "034"%char; after_close := EmptyString |}.

Definition unresolved_form : marker_form :=
  {| after_cite := "  "; after_source := " "; after_equals := " ";
     open_quote := Some "'"%char; after_open := EmptyString; digits := "99";
     after_id := EmptyString; close_quote := Some "'"%char;
     after_close := " " |}.

Definition three_markers : list (marker_form * string) :=
  [(plain_form "1", " ,"); (unresolved_form, " B"); (quoted_form "2", " .")].

(** Every identifier of the index has a record with a claims list. *)
Definition records_ready (idx : gmap string string)
    (srcs : gmap string source_info) : Prop :=
  ∀ u sid, idx !! u = Some sid →
    ∃ si, srcs !! sid = Some si ∧ is_Some (si_supported_claims si).

(** * Properties of the source collector *)

Global Arguments chunk_step : simpl never.
Global Arguments index_step : simpl never.
Global Arguments support_step : simpl never.
Global Arguments append_claim : simpl never.

(** ** The loops *)

Lemma for_each_app {S A : Type} (body : S → A → option S) xs ys s :
  for_each body (xs ++ ys) s = for_each body xs s ≫= for_each body ys.
Proof.
  revert s. induction xs as [|x xs IH]; intros s; simpl; [done|].
  destruct (body s x) as [s'|]; simpl; [apply IH|done].
Qed.

Lemma enumerate_from_app {A : Type} n (xs ys : list A) :
  enumerate_from n (xs ++ ys)
  = enumerate_from n xs ++ enumerate_from (n + length xs) ys.
Proof.
  revert n. induction xs as [|x xs IH]; intros n; simpl.
  - by rewrite Nat.add_0_r.
  - rewrite IH. do 3 f_equal. lia.
Qed.

Lemma enumerate_from_lookup {A : Type} n (xs : list A) i x :
  enumerate_from n xs !! i = Some x ↔ x.1 = n + i ∧ xs !! i = Some x.2.
Proof.
  revert n i. induction xs as [|y xs IH]; intros n i; simpl.
  - split; [done|]. by intros [_ ?].
  - destruct i as [|i]; simpl.
    + destruct x as [j z]; simpl. rewrite Nat.add_0_r. naive_solver.
    + rewrite IH. split; intros [-> ?]; split; auto; lia.
Qed.

(** An invariant of the loop body that holds before the loop holds after
    it.  [Good] is what is accepted of a loop that raises: [True] for
    statements about the runs that return, [False] to show that the loop
    returns. *)
Lemma for_each_inv {S A : Type} (Good : Prop) (I : S → Prop)
    (body : S → A → option S) xs s :
  I s →
  (∀ s x, x ∈ xs → I s → from_option I Good (body s x)) →
  from_option I Good (for_each body xs s).
Proof.
  revert s. induction xs as [|x xs IH]; intros s Hs Hbody; simpl; [done|].
  pose proof (Hbody s x (list_elem_of_here _ _) Hs) as Hx.
  destruct (body s x) as [s'|]; simpl in *; [|done].
  apply IH; [done|]. intros s'' y Hy. apply Hbody. by right.
Qed.

(** ** Invariants of the run

    The callback changes the index and the registry by two operations
    only: it registers a new URL under the next identifier, and it appends
    a claim to the record of an indexed identifier.  A property of the
    index and the registry that both operations keep is kept by the run. *)

Section preservation.
Variable Good : Prop.
Variable P : gmap string string → gmap string source_info → Prop.

Hypothesis P_register : ∀ idx srcs u t d,
  P idx srcs → idx !! u = None →
  P (<[u := src_id (size idx + 1)]> idx)
    (<[src_id (size idx + 1) := new_record (src_id (size idx + 1)) t u d]> srcs).

Hypothesis P_append : ∀ idx srcs u sid e,
  P idx srcs → idx !! u = Some sid →
  from_option (P idx) Good (append_claim sid e srcs).

Lemma chunk_step_inv l ic :
  loop_inv P l → from_option (loop_inv P) Good (chunk_step l ic).
Proof.
  intros (HP & Hc & Hci). destruct ic as [i c]. unfold chunk_step.
  destruct (web c) as [w|]; simpl; [|done].
  case_bool_decide as Hnew.
  - apply not_elem_of_dom in Hnew. simpl. rewrite lookup_insert_eq. simpl.
    rewrite Hc. unfold loop_inv; simpl. split_and!.
    + by apply P_register.
    + rewrite map_size_insert_None by done. lia.
    + intros z sid. rewrite lookup_insert. case_decide.
      * intros [= <-]. exists (uri w). by rewrite lookup_insert_eq.
      * intros [u Hu]%Hci. exists u. rewrite lookup_insert_ne; [done|].
        intros <-. congruence.
  - apply elem_of_dom in Hnew as [sid Hsid].
    rewrite Hsid. unfold loop_inv; simpl. split_and!; [done..|].
    intros z sid'. rewrite lookup_insert. case_decide; [|by apply Hci].
    intros [= <-]. by exists (uri w).
Qed.

Lemma index_step_inv sup scores l ii :
  loop_inv P l → from_option (loop_inv P) Good (index_step sup scores l ii).
Proof.
  intros (HP & Hc & Hci). destruct ii as [i z]. unfold index_step.
  destruct (chunks_info l !! z) as [sid|] eqn:Hz; simpl; [|done].
  destruct (Hci _ _ Hz) as [u Hu].
  match goal with |- context [append_claim sid ?e _] =>
    pose proof (P_append _ _ u sid e HP Hu) as Ha end.
  destruct (append_claim _ _ _) as [srcs'|]; simpl in *; [|done].
  done.
Qed.

Lemma support_step_inv l sup :
  loop_inv P l → from_option (loop_inv P) Good (support_step l sup).
Proof.
  intros Hl. unfold support_step. apply for_each_inv; [done|].
  intros. by apply index_step_inv.
Qed.

Lemma event_step_inv l ev :
  loop_inv P l → from_option (loop_inv P) Good (event_step l ev).
Proof.
  intros Hl. unfold event_step.
  destruct (grounding_metadata ev) as [gm|]; [|done].
  destruct (grounding_chunks gm) as [[|c cs]|]; [done| |done].
  match goal with |- context [for_each chunk_step ?xs ?l0] =>
    pose proof (for_each_inv Good (loop_inv P) chunk_step xs l0) as H1 end.
  destruct (for_each chunk_step _ _) as [l1|]; simpl in *.
  - assert (loop_inv P l1) as Hl1.
    { apply H1; [|intros; by apply chunk_step_inv].
      destruct Hl as (? & ? & _). split_and!; [done..|]. by intros z sid. }
    destruct (grounding_supports gm) as [[|s ss]|]; [done| |done].
    apply for_each_inv; [done|]. intros. by apply support_step_inv.
  - apply H1; [|intros; by apply chunk_step_inv].
    destruct Hl as (? & ? & _). split_and!; [done..|]. by intros z sid.
Qed.

Lemma collect_inv ctx :
  P (index_of (state ctx)) (registry_of (state ctx)) →
  from_option (λ st', P (index_of st') (registry_of st')) Good
    (collect_research_sources_callback ctx).
Proof.
  intros HP. unfold collect_research_sources_callback.
  match goal with |- context [for_each event_step ?xs ?l0] =>
    pose proof (for_each_inv Good (loop_inv P) event_step xs l0) as H end.
  destruct (for_each event_step _ _) as [l|]; simpl in *.
  - apply H; [|intros; by apply event_step_inv].
    split_and!; [done..|]. by intros z sid.
  - apply H; [|intros; by apply event_step_inv].
    split_and!; [done..|]. by intros z sid.
Qed.

End preservation.

(** ** What the run computes *)

Lemma src_id_inj n m : src_id n = src_id m → n = m.
Proof. unfold src_id. intros H. simplify_eq/=. by apply (inj pretty). Qed.

Lemma assign_all_app idx us vs :
  assign_all idx (us ++ vs) = assign_all (assign_all idx us) vs.
Proof. apply foldl_app. Qed.

Lemma assign_subseteq idx u : idx ⊆ assign idx u.
Proof.
  unfold assign. destruct (idx !! u) eqn:Hu; [done|].
  by apply insert_subseteq.
Qed.

Lemma assign_all_subseteq idx us : idx ⊆ assign_all idx us.
Proof.
  revert idx. induction us as [|u us IH]; intros idx; simpl; [done|].
  etrans; [apply (assign_subseteq idx u)|apply IH].
Qed.

Lemma assign_lookup_self idx u : is_Some (assign idx u !! u).
Proof.
  unfold assign. destruct (idx !! u) eqn:Hu; [by rewrite Hu|].
  rewrite lookup_insert_eq. by eexists.
Qed.

Lemma assign_all_lookup_elem idx us u :
  u ∈ us → is_Some (assign_all idx us !! u).
Proof.
  revert idx. induction us as [|v us IH]; intros idx; [by intros ?%elem_of_nil|].
  intros [->|Hin]%elem_of_cons; simpl; [|by apply IH].
  destruct (assign_lookup_self idx v) as [sid Hsid]. exists sid.
  eapply lookup_weaken; [done|apply assign_all_subseteq].
Qed.

(** A run over URLs that are all indexed changes nothing. *)
Lemma assign_all_known idx us :
  (∀ u, u ∈ us → is_Some (idx !! u)) → assign_all idx us = idx.
Proof.
  induction us as [|u us IH]; intros Hus; simpl; [done|].
  destruct (Hus u) as [sid Hsid]; [by left|].
  assert (assign idx u = idx) as -> by (unfold assign; by rewrite Hsid).
  apply IH. intros v Hv. apply Hus. by right.
Qed.

(** *** The chunk loop *)

Lemma chunk_step_spec l i c l' :
  id_counter l = size (url_to_short_id l) + 1 →
  chunk_step l (i, c) = Some l' →
  url_to_short_id l' = assign_all (url_to_short_id l) (chunk_urls [c])
  ∧ id_counter l' = size (url_to_short_id l') + 1
  ∧ ∀ z, chunks_info l' !! z =
      match web c with
      | Some w =>
        if decide (z = Z.of_nat i) then url_to_short_id l' !! uri w
        else chunks_info l !! z
      | None => chunks_info l !! z
      end.
Proof.
  intros Hc. unfold chunk_step, chunk_urls. simpl.
  destruct (web c) as [w|]; simpl; [|by intros [= <-]].
  unfold assign. case_bool_decide as Hnew.
  - apply not_elem_of_dom in Hnew. simpl. rewrite lookup_insert_eq. simpl.
    intros [= <-]. simpl. rewrite Hnew, Hc. split_and!; [done| |].
    + rewrite map_size_insert_None by done. lia.
    + intros z. rewrite lookup_insert, lookup_insert_eq.
      repeat case_decide; congruence.
  - apply elem_of_dom in Hnew as [sid Hsid]. rewrite Hsid. simpl.
    intros [= <-]. simpl. split_and!; [done..|].
    intros z. rewrite lookup_insert. repeat case_decide; congruence.
Qed.

Lemma chunk_urls_cons c cs : chunk_urls (c :: cs) = chunk_urls [c] ++ chunk_urls cs.
Proof. unfold chunk_urls. simpl. by destruct (web c). Qed.

Lemma chunk_loop_spec cs n l l' :
  id_counter l = size (url_to_short_id l) + 1 →
  for_each chunk_step (enumerate_from n cs) l = Some l' →
  url_to_short_id l' = assign_all (url_to_short_id l) (chunk_urls cs)
  ∧ id_counter l' = size (url_to_short_id l') + 1
  ∧ ∀ z, chunks_info l' !! z =
      if decide (Z.of_nat n ≤ z)%Z then
        match cs !! (Z.to_nat z - n)%nat ≫= web with
        | Some w => url_to_short_id l' !! uri w
        | None => chunks_info l !! z
        end
      else chunks_info l !! z.
Proof.
  revert n l. induction cs as [|c cs IH]; intros n l Hc;
    cbn [enumerate_from for_each].
  - intros [= <-]. split_and!; [done..|]. intros z. by case_decide.
  - destruct (chunk_step l (n, c)) as [l1|] eqn:Hstep; [|done].
    cbn [mbind option_bind].
    intros Hloop.
    destruct (chunk_step_spec _ _ _ _ Hc Hstep) as (Hi1 & Hc1 & Hci1).
    destruct (IH _ _ Hc1 Hloop) as (Hi2 & Hc2 & Hci2).
    split_and!; [|done|].
    + by rewrite chunk_urls_cons, assign_all_app, <-Hi1.
    + intros z. rewrite Hci2, Hci1. clear Hci1 Hci2.
      destruct (decide (z = Z.of_nat n)) as [->|Hz].
      * rewrite decide_False, decide_True by lia.
        replace (Z.to_nat (Z.of_nat n) - n)%nat with 0%nat by lia. simpl.
        destruct (web c) as [w|] eqn:Hw; [|done].
        assert (is_Some (url_to_short_id l1 !! uri w)) as [sid Hsid].
        { rewrite Hi1. apply assign_all_lookup_elem.
          unfold chunk_urls. simpl. rewrite Hw. simpl. by left. }
        rewrite Hsid. symmetry. eapply lookup_weaken; [done|].
        rewrite Hi2. apply assign_all_subseteq.
      * destruct (decide (Z.of_nat n ≤ z)%Z).
        -- rewrite decide_True by lia.
           replace (Z.to_nat z - n)%nat with (S (Z.to_nat z - S n)) by lia.
           simpl. destruct (cs !! _ ≫= web); [done|]. by destruct (web c).
        -- rewrite decide_False by lia. by destruct (web c).
Qed.

(** After the chunk loop of an event the chunk map resolves exactly the
    indices of the event's own web chunks. *)
Lemma chunk_loop_resolve cs l l' :
  id_counter l = size (url_to_short_id l) + 1 →
  for_each chunk_step (enumerate cs) (with_chunks_info l ∅) = Some l' →
  ∀ z, chunks_info l' !! z = resolve cs (url_to_short_id l') z.
Proof.
  intros Hc Hloop z.
  destruct (chunk_loop_spec cs 0 (with_chunks_info l ∅) _ Hc Hloop) as (_ & _ & ->).
  unfold resolve. simpl. replace (Z.of_nat 0) with 0%Z by done.
  case_decide; [|done]. rewrite Nat.sub_0_r.
  destruct (cs !! Z.to_nat z) as [c|]; simpl; [|done].
  by destruct (web c).
Qed.

(** *** The support loop *)

Lemma claims_for_app sid xs ys :
  claims_for sid (xs ++ ys) = claims_for sid xs ++ claims_for sid ys.
Proof. unfold claims_for. by rewrite filter_app, fmap_app. Qed.

Lemma claims_for_nil sid : claims_for sid [] = [].
Proof. done. Qed.

Lemma claims_for_singleton sid sid' e :
  claims_for sid [(sid', e)] = if decide (sid' = sid) then [e] else [].
Proof.
  unfold claims_for. rewrite filter_cons, filter_nil. simpl.
  by destruct (decide (sid' = sid)).
Qed.

Lemma append_claim_spec sid e srcs srcs' :
  append_claim sid e srcs = Some srcs' →
  ∃ si claims,
    srcs !! sid = Some si ∧ si_supported_claims si = Some claims
    ∧ srcs' = <[sid := {| si_short_id := si_short_id si;
                          si_title := si_title si;
                          si_url := si_url si;
                          si_domain := si_domain si;
                          si_supported_claims := Some (claims ++ [e]) |}]> srcs.
Proof.
  unfold append_claim. intros H.
  destruct (srcs !! sid) as [si|] eqn:Hsi; simpl in H; [|done].
  destruct (si_supported_claims si) as [claims|] eqn:Hcl; simpl in H; [|done].
  exists si, claims. by simplify_eq.
Qed.

Lemma append_claim_claims sid e srcs srcs' sid' :
  append_claim sid e srcs = Some srcs' →
  claims_of srcs' sid' = claims_of srcs sid' ++ claims_for sid' [(sid, e)].
Proof.
  intros (si & claims & Hsi & Hcl & ->)%append_claim_spec.
  rewrite claims_for_singleton. unfold claims_of.
  rewrite lookup_insert. destruct (decide (sid = sid')) as [<-|Hne].
  - by rewrite Hsi; simpl; rewrite Hcl.
  - by rewrite app_nil_r.
Qed.

Lemma append_claim_dom sid e srcs srcs' :
  append_claim sid e srcs = Some srcs' → dom srcs' = dom srcs.
Proof.
  intros (si & claims & Hsi & Hcl & ->)%append_claim_spec.
  rewrite dom_insert_L. apply elem_of_dom_2 in Hsi. set_solver.
Qed.

Lemma append_claim_is_Some sid e srcs si :
  srcs !! sid = Some si → is_Some (si_supported_claims si) →
  is_Some (append_claim sid e srcs).
Proof.
  intros Hsi [claims Hcl]. unfold append_claim.
  rewrite Hsi; simpl; rewrite Hcl; simpl. by eexists.
Qed.

(** The test on the length of the score list computes the expected
    confidence. *)
Lemma confidence_expected sup i :
  (let scores := default [] (confidence_scores sup) in
   if bool_decide (i < length scores)%nat
   then nth i scores default_confidence else default_confidence)
  = expected_confidence sup i.
Proof.
  unfold expected_confidence, default_confidence. simpl.
  destruct (confidence_scores sup) as [cs|]; simpl.
  - case_bool_decide as Hi.
    + by rewrite nth_lookup.
    + by rewrite lookup_ge_None_2 by lia.
  - done.
Qed.

Lemma index_step_spec sup l iz l' :
  index_step sup (default [] (confidence_scores sup)) l iz = Some l' →
  url_to_short_id l' = url_to_short_id l
  ∧ id_counter l' = id_counter l
  ∧ chunks_info l' = chunks_info l
  ∧ dom (sources l') = dom (sources l)
  ∧ ∀ sid, claims_of (sources l') sid
      = claims_of (sources l) sid
        ++ claims_for sid (omap (claim_at (λ z, chunks_info l !! z) sup) [iz]).
Proof.
  destruct iz as [i z]. unfold index_step, claim_at. simpl.
  destruct (chunks_info l !! z) as [sid|]; simpl.
  - destruct (append_claim _ _ _) as [srcs'|] eqn:Ha; simpl; [|done].
    intros [= <-]. simpl. split_and!; [done..| |].
    + by eapply append_claim_dom.
    + intros sid'. rewrite (append_claim_claims _ _ _ _ sid' Ha).
      pose proof (confidence_expected sup i) as He. simpl in He.
      rewrite He. done.
  - intros [= <-]. split_and!; [done..|].
    intros sid. by rewrite claims_for_nil, app_nil_r.
Qed.

Lemma index_loop_spec sup izs l l' :
  for_each (index_step sup (default [] (confidence_scores sup))) izs l = Some l' →
  url_to_short_id l' = url_to_short_id l
  ∧ id_counter l' = id_counter l
  ∧ chunks_info l' = chunks_info l
  ∧ dom (sources l') = dom (sources l)
  ∧ ∀ sid, claims_of (sources l') sid
      = claims_of (sources l) sid
        ++ claims_for sid (omap (claim_at (λ z, chunks_info l !! z) sup) izs).
Proof.
  revert l. induction izs as [|iz izs IH]; intros l; cbn [for_each].
  - intros [= <-]. split_and!; [done..|].
    intros sid. by rewrite claims_for_nil, app_nil_r.
  - destruct (index_step _ _ l iz) as [l1|] eqn:Hstep; [|done].
    cbn [mbind option_bind]. intros Hloop.
    destruct (index_step_spec _ _ _ _ Hstep) as (Hi1 & Hc1 & Hci1 & Hd1 & Hcl1).
    destruct (IH _ Hloop) as (Hi2 & Hc2 & Hci2 & Hd2 & Hcl2).
    split_and!; [congruence..|].
    intros sid. rewrite Hcl2, Hcl1, Hci1, <-(assoc_L (++)), <-claims_for_app.
    do 2 f_equal. change (iz :: izs) with ([iz] ++ izs).
    by rewrite omap_app.
Qed.

Lemma support_step_spec l sup l' :
  support_step l sup = Some l' →
  url_to_short_id l' = url_to_short_id l
  ∧ id_counter l' = id_counter l
  ∧ chunks_info l' = chunks_info l
  ∧ dom (sources l') = dom (sources l)
  ∧ ∀ sid, claims_of (sources l') sid
      = claims_of (sources l) sid
        ++ claims_for sid (support_claims (λ z, chunks_info l !! z) sup).
Proof. apply index_loop_spec. Qed.

Lemma support_loop_spec sups l l' :
  for_each support_step sups l = Some l' →
  url_to_short_id l' = url_to_short_id l
  ∧ id_counter l' = id_counter l
  ∧ chunks_info l' = chunks_info l
  ∧ dom (sources l') = dom (sources l)
  ∧ ∀ sid, claims_of (sources l') sid
      = claims_of (sources l) sid
        ++ claims_for sid (sups ≫= support_claims (λ z, chunks_info l !! z)).
Proof.
  revert l. induction sups as [|sup sups IH]; intros l; cbn [for_each].
  - intros [= <-]. split_and!; [done..|].
    intros sid. by rewrite claims_for_nil, app_nil_r.
  - destruct (support_step l sup) as [l1|] eqn:Hstep; [|done].
    cbn [mbind option_bind]. intros Hloop.
    destruct (support_step_spec _ _ _ Hstep) as (Hi1 & Hc1 & Hci1 & Hd1 & Hcl1).
    destruct (IH _ Hloop) as (Hi2 & Hc2 & Hci2 & Hd2 & Hcl2).
    split_and!; [congruence..|].
    intros sid. rewrite Hcl2, Hcl1, Hci1, <-(assoc_L (++)), <-claims_for_app.
    done.
Qed.

(** *** One event *)

Lemma claims_of_insert_new srcs sid si sid' :
  srcs !! sid = None → si_supported_claims si = Some [] →
  claims_of (<[sid := si]> srcs) sid' = claims_of srcs sid'.
Proof.
  intros Hnone Hsi. unfold claims_of. rewrite lookup_insert.
  case_decide as Heq; [|done]. subst. by rewrite Hnone; simpl; rewrite Hsi.
Qed.

Lemma next_free_register idx srcs u si :
  next_free idx srcs → idx !! u = None →
  next_free (<[u := src_id (size idx + 1)]> idx)
            (<[src_id (size idx + 1) := si]> srcs).
Proof.
  intros Hfree Hu k. rewrite map_size_insert_None by done. intros Hk.
  rewrite dom_insert_L, not_elem_of_union, not_elem_of_singleton. split.
  - intros ?%src_id_inj. lia.
  - apply Hfree. lia.
Qed.

(** The chunk loop registers records with empty claim lists under free
    identifiers: the claims read from the registry do not change. *)
Lemma chunk_loop_claims cs l l' :
  id_counter l = size (url_to_short_id l) + 1 →
  next_free (url_to_short_id l) (sources l) →
  for_each chunk_step (enumerate cs) (with_chunks_info l ∅) = Some l' →
  next_free (url_to_short_id l') (sources l')
  ∧ ∀ sid, claims_of (sources l') sid = claims_of (sources l) sid.
Proof.
  intros Hc Hfree Hloop.
  pose (P := λ idx srcs, next_free idx srcs
                         ∧ ∀ sid, claims_of srcs sid = claims_of (sources l) sid).
  assert (from_option (loop_inv P) True
            (for_each chunk_step (enumerate cs) (with_chunks_info l ∅))) as H.
  { apply for_each_inv.
    - split_and!; [by split|done|]. by intros z sid.
    - intros s x _. apply chunk_step_inv. clear.
      intros idx srcs u t d [Hfree Hcl] Hu. split.
      + by apply next_free_register.
      + intros sid. rewrite claims_of_insert_new; [done| |done].
        apply not_elem_of_dom, Hfree. lia. }
  rewrite Hloop in H. by destruct H as [[? ?] _].
Qed.

Lemma support_claims_ext f g sup :
  (∀ z, f z = g z) → support_claims f sup = support_claims g sup.
Proof.
  intros Hfg. unfold support_claims. apply list_omap_ext.
  apply Forall2_same_length_lookup. split; [done|].
  intros i x y Hx Hy. simplify_eq. unfold claim_at. by rewrite Hfg.
Qed.

Lemma supports_claims_ext f g (sups : list GroundingSupport) :
  (∀ z, f z = g z) → sups ≫= support_claims f = sups ≫= support_claims g.
Proof.
  intros Hfg. induction sups as [|sup sups IH]; [done|].
  rewrite !bind_cons, IH. f_equal. by apply support_claims_ext.
Qed.

Lemma support_claims_none f sup :
  (∀ z, f z = None) → support_claims f sup = [].
Proof.
  intros Hf. unfold support_claims.
  induction (enumerate _) as [|iz izs IH]; [done|].
  csimpl. unfold claim_at at 1. by rewrite Hf.
Qed.

Lemma event_claims_no_chunks idx ev :
  event_chunks ev = [] → event_claims idx ev = [].
Proof.
  intros Hcs. unfold event_claims. rewrite Hcs.
  induction (event_supports ev) as [|sup sups IH]; [done|].
  rewrite bind_cons, IH, support_claims_none; [done|].
  intros z. unfold resolve. case_decide; [|done]. by rewrite lookup_nil.
Qed.

(** The body of the event loop as one expression: an event without chunks
    is passed over; otherwise the chunk map starts empty, the chunks are
    registered, and the supports are resolved. *)
Lemma event_step_unfold l ev :
  event_step l ev =
    match event_chunks ev with
    | [] => Some l
    | cs => for_each chunk_step (enumerate cs) (with_chunks_info l ∅)
            ≫= for_each support_step (event_supports ev)
    end.
Proof.
  unfold event_step, event_chunks, event_supports.
  destruct (grounding_metadata ev) as [gm|]; [|done].
  cbn [mbind option_bind default from_option id].
  destruct (grounding_chunks gm) as [[|c cs]|]; [done| |done].
  cbn [default from_option id]. change (with_chunks_info l ∅) with
    {| url_to_short_id := url_to_short_id l; sources := sources l;
       id_counter := id_counter l; chunks_info := ∅ |}.
  destruct (for_each chunk_step _ _) as [l1|]; [|done].
  cbn [mbind option_bind].
  by destruct (grounding_supports gm) as [[|sup sups]|].
Qed.

Lemma event_step_spec l ev l' :
  id_counter l = size (url_to_short_id l) + 1 →
  event_step l ev = Some l' →
  url_to_short_id l' = assign_all (url_to_short_id l) (chunk_urls (event_chunks ev))
  ∧ id_counter l' = size (url_to_short_id l') + 1
  ∧ (next_free (url_to_short_id l) (sources l) →
     next_free (url_to_short_id l') (sources l')
     ∧ ∀ sid, claims_of (sources l') sid
         = claims_of (sources l) sid
           ++ claims_for sid (event_claims (url_to_short_id l') ev)).
Proof.
  intros Hc. rewrite event_step_unfold.
  destruct (event_chunks ev) as [|c cs] eqn:Hcs.
  - intros [= <-]. split_and!; [done..|]. intros Hfree. split; [done|].
    intros sid. by rewrite event_claims_no_chunks, claims_for_nil, app_nil_r.
  - destruct (for_each chunk_step _ _) as [l1|] eqn:Hchunks; [|done].
    cbn [mbind option_bind]. intros Hsups.
    destruct (chunk_loop_spec _ 0 (with_chunks_info l ∅) _ Hc Hchunks)
      as (Hi1 & Hc1 & _).
    pose proof (chunk_loop_resolve _ _ _ Hc Hchunks) as Hci1.
    destruct (support_loop_spec _ _ _ Hsups) as (Hi2 & Hc2 & _ & Hd2 & Hcl2).
    rewrite Hi2, Hc2. split_and!; [done..|]. intros Hfree.
    destruct (chunk_loop_claims _ _ _ Hc Hfree Hchunks) as [Hfree1 Hcl1].
    split.
    + unfold next_free. by rewrite Hd2.
    + intros sid. rewrite Hcl2, Hcl1. unfold event_claims. rewrite Hcs.
      do 2 f_equal. by apply supports_claims_ext.
Qed.

(** *** The whole run *)

(** Identifiers are stable: a chunk index resolves the same in every
    later index. *)
Lemma resolve_weaken cs idx idx' z :
  idx ⊆ idx' →
  (∀ u, u ∈ chunk_urls cs → is_Some (idx !! u)) →
  resolve cs idx z = resolve cs idx' z.
Proof.
  intros Hsub Hknown. unfold resolve. case_decide; [|done].
  destruct (cs !! Z.to_nat z) as [c|] eqn:Hc; simpl; [|done].
  destruct (web c) as [w|] eqn:Hw; simpl; [|done].
  destruct (Hknown (uri w)) as [sid Hsid].
  { apply list_elem_of_omap. exists c. split.
    - by eapply list_elem_of_lookup_2.
    - by rewrite Hw. }
  rewrite Hsid. symmetry. by eapply lookup_weaken.
Qed.

Lemma event_claims_weaken idx idx' ev :
  idx ⊆ idx' →
  (∀ u, u ∈ chunk_urls (event_chunks ev) → is_Some (idx !! u)) →
  event_claims idx ev = event_claims idx' ev.
Proof.
  intros Hsub Hknown. unfold event_claims. apply supports_claims_ext.
  intros z. by apply resolve_weaken.
Qed.

Lemma events_urls_cons ev evs :
  events_urls (ev :: evs) = chunk_urls (event_chunks ev) ++ events_urls evs.
Proof. done. Qed.

Lemma event_loop_spec evs l l' :
  id_counter l = size (url_to_short_id l) + 1 →
  for_each event_step evs l = Some l' →
  url_to_short_id l' = assign_all (url_to_short_id l) (events_urls evs)
  ∧ id_counter l' = size (url_to_short_id l') + 1
  ∧ (next_free (url_to_short_id l) (sources l) →
     next_free (url_to_short_id l') (sources l')
     ∧ ∀ sid, claims_of (sources l') sid
         = claims_of (sources l) sid
           ++ claims_for sid (evs ≫= event_claims (url_to_short_id l'))).
Proof.
  revert l. induction evs as [|ev evs IH]; intros l Hc; cbn [for_each].
  - intros [= <-]. split_and!; [done..|]. intros Hfree. split; [done|].
    intros sid. by rewrite claims_for_nil, app_nil_r.
  - destruct (event_step l ev) as [l1|] eqn:Hstep; [|done].
    cbn [mbind option_bind]. intros Hloop.
    destruct (event_step_spec _ _ _ Hc Hstep) as (Hi1 & Hc1 & Hcl1).
    destruct (IH _ Hc1 Hloop) as (Hi2 & Hc2 & Hcl2).
    split_and!; [|done|].
    + by rewrite events_urls_cons, assign_all_app, <-Hi1.
    + intros Hfree. destruct (Hcl1 Hfree) as [Hfree1 Hcl1'].
      destruct (Hcl2 Hfree1) as [Hfree2 Hcl2']. split; [done|].
      intros sid. rewrite Hcl2', Hcl1', <-(assoc_L (++)), <-claims_for_app.
      rewrite bind_cons. do 3 f_equal. apply event_claims_weaken.
      * rewrite Hi2. apply assign_all_subseteq.
      * intros u Hu. rewrite Hi1. by apply assign_all_lookup_elem.
Qed.

(** What a run that returns leaves in the state. *)
Lemma collect_spec ctx st' :
  collect_research_sources_callback ctx = Some st' →
  slot_url_to_short_id st'
    = Some (assign_all (index_of (state ctx)) (events_urls (session_events ctx)))
  ∧ is_Some (slot_sources st')
  ∧ slot_research_evaluation st' = slot_research_evaluation (state ctx)
  ∧ slot_final_cited_report st' = slot_final_cited_report (state ctx)
  ∧ slot_final_report_with_citations st'
    = slot_final_report_with_citations (state ctx)
  ∧ (next_free (index_of (state ctx)) (registry_of (state ctx)) →
     next_free (index_of st') (registry_of st')
     ∧ ∀ sid, claims_of (registry_of st') sid
         = claims_of (registry_of (state ctx)) sid
           ++ claims_for sid (events_claims (index_of st') (session_events ctx))).
Proof.
  unfold collect_research_sources_callback.
  destruct (for_each event_step _ _) as [l|] eqn:Hloop; [|done].
  cbn [mbind option_bind]. intros [= <-].
  apply event_loop_spec in Hloop as (Hi & Hc & Hcl); [|done].
  simpl in *. split_and!; [by rewrite Hi|by eexists|done..].
Qed.

(** ** First-seen order and the numbering of the index *)

Lemma first_seen_filter (P : string → Prop) `{!∀ x, Decision (P x)} us :
  first_seen (filter P us) = filter P (first_seen us).
Proof.
  induction us as [|u us IH]; [done|]. cbn [first_seen].
  destruct (decide (P u)) as [HP|HP].
  - rewrite filter_cons_True by done. cbn [first_seen].
    rewrite filter_cons_True by done. f_equal. rewrite IH.
    rewrite !list_filter_filter. apply list_filter_iff. naive_solver.
  - rewrite !filter_cons_False by done. rewrite IH.
    rewrite list_filter_filter. apply list_filter_iff.
    intros v. split; [|naive_solver]. intros Hv. split; [done|].
    by intros ->.
Qed.

Lemma elem_of_first_seen us u : u ∈ first_seen us ↔ u ∈ us.
Proof.
  induction us as [|v us IH]; [done|]. cbn [first_seen].
  rewrite !elem_of_cons, list_elem_of_filter, IH.
  destruct (decide (u = v)); naive_solver.
Qed.

Lemma NoDup_first_seen us : NoDup (first_seen us).
Proof.
  induction us as [|v us IH]; cbn [first_seen]; [constructor|].
  constructor; [|by apply NoDup_filter].
  rewrite list_elem_of_filter. naive_solver.
Qed.

Lemma first_seen_prefix us vs : first_seen us `prefix_of` first_seen (us ++ vs).
Proof.
  induction us as [|u us IH]; cbn [first_seen app]; [apply prefix_nil|].
  apply prefix_cons. destruct IH as [ws ->]. rewrite filter_app.
  by eexists.
Qed.

Lemma new_urls_cons_known idx u us :
  is_Some (idx !! u) → new_urls idx (u :: us) = new_urls idx us.
Proof.
  intros [sid Hsid]. unfold new_urls. rewrite filter_cons_False; [done|].
  by rewrite Hsid.
Qed.

Lemma new_urls_cons_new idx u us sid :
  idx !! u = None →
  new_urls idx (u :: us) = u :: new_urls (<[u := sid]> idx) us.
Proof.
  intros Hu. unfold new_urls. rewrite filter_cons_True by done.
  cbn [first_seen]. f_equal. rewrite <-first_seen_filter.
  f_equal. rewrite list_filter_filter. apply list_filter_iff.
  intros v. rewrite lookup_insert_None. naive_solver.
Qed.

(** The index after a run: the old entries, and the new URLs numbered on
    from the size of the old index, in first-seen order. *)
Lemma assign_all_new idx us k u :
  new_urls idx us !! k = Some u →
  assign_all idx us !! u = Some (src_id (size idx + k + 1)).
Proof.
  revert idx k. induction us as [|v us IH]; intros idx k; [done|].
  cbn [assign_all foldl]. unfold assign at 2.
  destruct (idx !! v) as [sid|] eqn:Hv.
  - rewrite new_urls_cons_known by (by rewrite Hv). apply IH.
  - rewrite (new_urls_cons_new _ _ _ (src_id (size idx + 1))) by done.
    destruct k as [|k]; simpl.
    + intros [= <-]. eapply lookup_weaken; [|apply assign_all_subseteq].
      rewrite lookup_insert_eq. do 2 f_equal. lia.
    + intros Hk. apply IH in Hk. fold (assign_all (<[v:=src_id (size idx + 1)]> idx) us).
      rewrite Hk, map_size_insert_None by done. do 2 f_equal. lia.
Qed.

Lemma assign_all_size idx us :
  size (assign_all idx us) = size idx + length (new_urls idx us).
Proof.
  revert idx. induction us as [|v us IH]; intros idx.
  - simpl. unfold new_urls. simpl. lia.
  - cbn [assign_all foldl]. unfold assign at 2.
    destruct (idx !! v) as [sid|] eqn:Hv.
    + rewrite new_urls_cons_known by (by rewrite Hv). apply IH.
    + rewrite (new_urls_cons_new _ _ _ (src_id (size idx + 1))) by done.
      fold (assign_all (<[v:=src_id (size idx + 1)]> idx) us).
      rewrite IH, map_size_insert_None by done. simpl. lia.
Qed.

Lemma assign_all_is_Some idx us u :
  is_Some (assign_all idx us !! u) ↔ is_Some (idx !! u) ∨ u ∈ us.
Proof.
  revert idx. induction us as [|v us IH]; intros idx.
  - simpl. rewrite elem_of_nil. naive_solver.
  - cbn [assign_all foldl]. fold (assign_all (assign idx v) us).
    rewrite IH, elem_of_cons. unfold assign.
    destruct (idx !! v) as [sid|] eqn:Hv.
    + split; [naive_solver|]. intros [?|[->|?]]; auto.
    + rewrite lookup_insert_is_Some. destruct (decide (v = u)); naive_solver.
Qed.

Lemma assign_all_old idx us u sid :
  idx !! u = Some sid → assign_all idx us !! u = Some sid.
Proof.
  intros Hu. eapply lookup_weaken; [done|apply assign_all_subseteq].
Qed.

(** ** Consistency of the index and the registry *)

Lemma numbered_fresh idx u :
  numbered idx → idx !! u ≠ Some (src_id (size idx + 1)).
Proof. intros Hn Hu. apply Hn in Hu. lia. Qed.

Lemma numbered_register idx u :
  numbered idx → idx !! u = None →
  numbered (<[u := src_id (size idx + 1)]> idx).
Proof.
  intros Hn Hu v k. rewrite map_size_insert_None by done.
  rewrite lookup_insert. case_decide.
  - intros ?%(inj Some)%src_id_inj. lia.
  - intros ?%Hn. lia.
Qed.

Lemma mutually_consistent_register idx srcs u si :
  mutually_consistent idx srcs → numbered idx → idx !! u = None →
  mutually_consistent (<[u := src_id (size idx + 1)]> idx)
                      (<[src_id (size idx + 1) := si]> srcs).
Proof.
  intros [Hin Hex] Hn Hu. split.
  - intros v sid. rewrite lookup_insert, dom_insert_L. case_decide.
    + intros [= <-]. set_solver.
    + intros ?%Hin. set_solver.
  - intros sid. rewrite dom_insert_L, elem_of_union, elem_of_singleton.
    destruct (decide (sid = src_id (size idx + 1))) as [->|Hne].
    + intros _. exists u. rewrite lookup_insert_eq. split; [done|].
      intros u'. rewrite lookup_insert. case_decide; [done|].
      intros ?%numbered_fresh; done.
    + intros [?|Hsid]; [done|]. destruct (Hex _ Hsid) as (v & Hv & Huniq).
      exists v. split.
      * rewrite lookup_insert_ne; [done|]. intros <-. congruence.
      * intros u'. rewrite lookup_insert. case_decide; [congruence|].
        apply Huniq.
Qed.

Lemma mutually_consistent_dom idx srcs srcs' :
  dom srcs' = dom srcs →
  mutually_consistent idx srcs → mutually_consistent idx srcs'.
Proof. unfold mutually_consistent. by intros ->. Qed.

Lemma claims_present_register srcs sid t u d :
  claims_present srcs → claims_present (<[sid := new_record sid t u d]> srcs).
Proof.
  intros Hcl sid' si. rewrite lookup_insert. case_decide.
  - intros [= <-]. by eexists.
  - apply Hcl.
Qed.

Lemma claims_present_append sid e srcs srcs' :
  append_claim sid e srcs = Some srcs' →
  claims_present srcs → claims_present srcs'.
Proof.
  intros (si & claims & Hsi & Hcl & ->)%append_claim_spec Hp sid' si'.
  rewrite lookup_insert. case_decide.
  - intros [= <-]. by eexists.
  - apply Hp.
Qed.

Lemma records_match_register idx srcs u t d :
  records_match idx srcs → numbered idx → idx !! u = None →
  records_match (<[u := src_id (size idx + 1)]> idx)
    (<[src_id (size idx + 1) := new_record (src_id (size idx + 1)) t u d]> srcs).
Proof.
  intros Hm Hn Hu v sid. rewrite lookup_insert. case_decide.
  - intros [= <-]. subst v. rewrite lookup_insert_eq. by eexists.
  - intros Hv. rewrite lookup_insert_ne.
    + by apply Hm.
    + intros <-. by eapply numbered_fresh.
Qed.

Lemma records_match_append idx sid e srcs srcs' :
  append_claim sid e srcs = Some srcs' →
  records_match idx srcs → records_match idx srcs'.
Proof.
  intros (si & claims & Hsi & Hcl & ->)%append_claim_spec Hm v sid' Hv.
  destruct (Hm _ _ Hv) as (si' & Hsi' & Hurl & Hid).
  rewrite lookup_insert. case_decide; [|by eauto].
  subst. simplify_eq. by eexists.
Qed.

Lemma registry_inv_empty : registry_inv ∅ ∅.
Proof.
  split_and!.
  - split; [by intros u sid|]. intros sid. by rewrite dom_empty_L.
  - by intros u k.
  - by intros sid si.
  - by intros u sid.
Qed.

Lemma registry_inv_next_free idx srcs :
  mutually_consistent idx srcs → numbered idx → next_free idx srcs.
Proof.
  intros [_ Hex] Hn k Hk Hdom. destruct (Hex _ Hdom) as (u & Hu & _).
  apply Hn in Hu. lia.
Qed.

Lemma registry_inv_register idx srcs u t d :
  registry_inv idx srcs → idx !! u = None →
  registry_inv (<[u := src_id (size idx + 1)]> idx)
    (<[src_id (size idx + 1) := new_record (src_id (size idx + 1)) t u d]> srcs).
Proof.
  intros (Hmc & Hn & Hcl & Hm) Hu. split_and!.
  - by apply mutually_consistent_register.
  - by apply numbered_register.
  - by apply claims_present_register.
  - by apply records_match_register.
Qed.

Lemma registry_inv_append idx srcs u sid e :
  registry_inv idx srcs → idx !! u = Some sid →
  from_option (registry_inv idx) False (append_claim sid e srcs).
Proof.
  intros (Hmc & Hn & Hcl & Hm) Hu.
  destruct (Hm _ _ Hu) as (si & Hsi & _).
  destruct (append_claim_is_Some sid e srcs si Hsi (Hcl _ _ Hsi)) as [srcs' Ha].
  rewrite Ha. simpl. split_and!; [|done|..].
  - eapply mutually_consistent_dom; [|done]. by eapply append_claim_dom.
  - by eapply claims_present_append.
  - by eapply records_match_append.
Qed.

(** A run from a state of the invariant returns, in a state of the
    invariant. *)
Lemma collect_registry_inv ctx :
  registry_inv (index_of (state ctx)) (registry_of (state ctx)) →
  ∃ st', collect_research_sources_callback ctx = Some st'
         ∧ registry_inv (index_of st') (registry_of st').
Proof.
  intros Hinv.
  pose proof (collect_inv False registry_inv registry_inv_register
                registry_inv_append ctx Hinv) as H.
  destruct (collect_research_sources_callback ctx) as [st'|]; [|done].
  by exists st'.
Qed.

Lemma mutually_consistent_dom_iff idx srcs sid :
  mutually_consistent idx srcs →
  sid ∈ dom srcs ↔ ∃ u, idx !! u = Some sid.
Proof.
  intros [Hin Hex]. split.
  - intros (u & Hu & _)%Hex. by exists u.
  - intros [u Hu]. by eapply Hin.
Qed.

Lemma claims_of_empty sid : claims_of ∅ sid = [].
Proof. unfold claims_of. by rewrite lookup_empty. Qed.

Lemma next_free_empty : next_free ∅ ∅.
Proof. intros k _. by rewrite dom_empty_L. Qed.

(** * The claims on the source collector *)

(** C1. When the events reference a URL [u] twice or more, a run from a
    consistent state returns; the registry then holds exactly one record
    whose URL is [u], stored under the identifier the index gives to [u],
    and this identifier is the one fixed at the first occurrence of [u]:
    the one [u] already had, or else the number following the size of the
    index and the new URLs seen before this occurrence. *)
Theorem duplicate_url_single_record ctx u pre mid post :
  registry_inv (index_of (state ctx)) (registry_of (state ctx)) →
  events_urls (session_events ctx) = pre ++ u :: mid ++ u :: post →
  u ∉ pre →
  ∃ st' sid,
    collect_research_sources_callback ctx = Some st'
    ∧ index_of st' !! u = Some sid
    ∧ sid = default
              (src_id (size (index_of (state ctx))
                       + length (new_urls (index_of (state ctx)) pre) + 1))
              (index_of (state ctx) !! u)
    ∧ (∃ si, registry_of st' !! sid = Some si
             ∧ si_url si = Some u ∧ si_short_id si = Some sid)
    ∧ ∀ sid' si', registry_of st' !! sid' = Some si' →
                  si_url si' = Some u → sid' = sid.
Proof.
  intros Hinv Hurls Hpre.
  destruct (collect_registry_inv ctx Hinv) as (st' & Hrun & Hinv').
  destruct Hinv' as ([Hin Hex] & Hn & Hcl & Hm).
  destruct (collect_spec _ _ Hrun) as (Hidx & _).
  assert (index_of st' = assign_all (index_of (state ctx))
                           (events_urls (session_events ctx))) as Hidx'.
  { unfold index_of at 1. by rewrite Hidx. }
  set (idx0 := index_of (state ctx)) in *.
  assert (index_of st' !! u
          = Some (default (src_id (size idx0 + length (new_urls idx0 pre) + 1))
                          (idx0 !! u))) as Hu.
  { rewrite Hidx', Hurls, assign_all_app. cbn [assign_all foldl].
    fold (assign_all (assign (assign_all idx0 pre) u) (mid ++ u :: post)).
    apply assign_all_old. unfold assign.
    destruct (idx0 !! u) as [s|] eqn:Hu0; simpl.
    - by rewrite (assign_all_old _ _ _ _ Hu0), (assign_all_old _ _ _ _ Hu0).
    - destruct (assign_all idx0 pre !! u) as [s|] eqn:Hu1.
      + assert (is_Some (assign_all idx0 pre !! u)) as Hs by (by eexists).
        apply assign_all_is_Some in Hs as [[? ?]|?]; [congruence|done].
      + by rewrite lookup_insert_eq, assign_all_size. }
  eexists st', _. split_and!; [done|exact Hu|done|..].
  - by apply Hm.
  - intros sid' si' Hsi' Hurl.
    destruct (Hex sid') as (u' & Hu' & _); [by eapply elem_of_dom_2|].
    destruct (Hm _ _ Hu') as (si'' & Hsi'' & Hurl'' & _).
    assert (u' = u) as -> by congruence. congruence.
Qed.

Lemma duplicate_url_single_record_witness :
  registry_inv (index_of empty_state) (registry_of empty_state)
  ∧ events_urls [sample_event] = [] ++ "u1" :: ["u2"] ++ "u1" :: []
  ∧ ("u1" ∉ ([] : list string))
  ∧ ∃ st' sid,
      collect_research_sources_callback sample_ctx = Some st'
      ∧ index_of st' !! "u1" = Some sid
      ∧ sid = default (src_id (size (index_of empty_state)
                               + length (new_urls (index_of empty_state) []) + 1))
                      (index_of empty_state !! "u1")
      ∧ (∃ si, registry_of st' !! sid = Some si
               ∧ si_url si = Some "u1" ∧ si_short_id si = Some sid)
      ∧ ∀ sid' si', registry_of st' !! sid' = Some si' →
                    si_url si' = Some "u1" → sid' = sid.
Proof.
  assert ("u1" ∉ ([] : list string)) as Hnil by (intros H; inversion H).
  split_and!; [exact registry_inv_empty|reflexivity|exact Hnil|].
  apply (duplicate_url_single_record sample_ctx "u1" [] ["u2"] []);
    [exact registry_inv_empty|reflexivity|exact Hnil].
Defined.

Lemma new_urls_empty us : new_urls ∅ us = first_seen us.
Proof.
  unfold new_urls. f_equal. induction us as [|u us IH]; [done|].
  rewrite filter_cons_True by done. by rewrite IH.
Qed.

Lemma assign_all_empty us : numbered_as (first_seen us) (assign_all ∅ us).
Proof.
  split_and!.
  - by rewrite assign_all_size, map_size_empty, new_urls_empty.
  - intros k u Hk. rewrite <-new_urls_empty in Hk.
    apply assign_all_new in Hk. by rewrite map_size_empty in Hk.
  - intros u [[? ?]|?]%assign_all_is_Some; [done|].
    by apply elem_of_first_seen.
Qed.

Lemma events_urls_app evs evs' :
  events_urls (evs ++ evs') = events_urls evs ++ events_urls evs'.
Proof. apply bind_app. Qed.

Lemma index_of_collect ctx st' :
  collect_research_sources_callback ctx = Some st' →
  index_of st' = assign_all (index_of (state ctx)) (events_urls (session_events ctx)).
Proof.
  intros (Hidx & _)%collect_spec. unfold index_of at 1. by rewrite Hidx.
Qed.

Lemma numbered_as_written_out us idx :
  numbered_as us idx → numbered_src_1_to_N us idx.
Proof.
  intros (Hsize & Hnum & Hin). split_and!.
  - intros k u Hk. exact (Hnum k u Hk).
  - intros sid. split.
    + intros [u Hu].
      destruct (list_elem_of_lookup_1 us u) as [k Hk].
      { apply Hin. by eexists. }
      exists (k + 1). pose proof (lookup_lt_Some _ _ _ Hk) as Hlt.
      split; [lia|]. rewrite (Hnum k u Hk) in Hu. by injection Hu as <-.
    + intros (k & [Hk1 Hk2] & ->).
      destruct (lookup_lt_is_Some_2 us (k - 1)) as [u Hu]; [lia|].
      exists u. rewrite (Hnum _ _ Hu). by replace (k - 1 + 1) with k by lia.
  - intros u v sid Hu Hv.
    destruct (list_elem_of_lookup_1 us u) as [i Hi].
    { apply Hin. by eexists. }
    destruct (list_elem_of_lookup_1 us v) as [j Hj].
    { apply Hin. by eexists. }
    rewrite (Hnum i u Hi) in Hu. rewrite (Hnum j v Hj) in Hv.
    assert (i = j) as ->.
    { assert (src_id (i + 1) = src_id (j + 1)) as Heq%src_id_inj by congruence.
      lia. }
    congruence.
Qed.

(** C2. A run over the events from the empty state returns, and its index
    numbers the distinct URLs [src-1] to [src-N] in first-seen order.  A
    later run over the same events followed by more returns as well: it
    keeps every identifier of the first run, numbers the URLs new to it
    on from the size of the index it found, and so leaves the numbering
    of one run over all the events.  The identifiers are written out:
    after either run the URL first seen at position [k], counted from 0,
    has the text [src-] followed by the decimal numeral of [k + 1], the
    identifiers in use are these texts for 1 to [N] and no others, and
    distinct URLs have distinct identifiers. *)
Theorem short_ids_first_seen_order events more :
  ∃ st1 st2,
    collect_research_sources_callback
      {| session_events := events; state := empty_state |} = Some st1
    ∧ collect_research_sources_callback
        {| session_events := events ++ more; state := st1 |} = Some st2
    ∧ numbered_as (first_seen (events_urls events)) (index_of st1)
    ∧ (∀ u sid, index_of st1 !! u = Some sid → index_of st2 !! u = Some sid)
    ∧ (∀ k u, new_urls (index_of st1) (events_urls (events ++ more)) !! k = Some u →
              index_of st2 !! u = Some (src_id (size (index_of st1) + k + 1)))
    ∧ numbered_as (first_seen (events_urls (events ++ more))) (index_of st2)
    ∧ numbered_src_1_to_N (first_seen (events_urls events)) (index_of st1)
    ∧ (∀ k u, new_urls (index_of st1) (events_urls (events ++ more)) !! k = Some u →
              index_of st2 !! u
              = Some ("src-" +:+ pretty (size (index_of st1) + k + 1)))
    ∧ numbered_src_1_to_N (first_seen (events_urls (events ++ more)))
        (index_of st2).
Proof.
  destruct (collect_registry_inv
              {| session_events := events; state := empty_state |})
    as (st1 & Hrun1 & Hinv1); [exact registry_inv_empty|].
  destruct (collect_registry_inv
              {| session_events := events ++ more; state := st1 |})
    as (st2 & Hrun2 & Hinv2); [done|].
  pose proof (index_of_collect _ _ Hrun1) as Hi1.
  pose proof (index_of_collect _ _ Hrun2) as Hi2.
  simpl in Hi1, Hi2. change (index_of empty_state) with (∅ : gmap string string) in Hi1.
  assert (numbered_as (first_seen (events_urls events)) (index_of st1)) as Hn1.
  { rewrite Hi1. apply assign_all_empty. }
  assert (numbered_as (first_seen (events_urls (events ++ more))) (index_of st2))
    as Hn2.
  { rewrite Hi2, events_urls_app, assign_all_app.
    rewrite (assign_all_known (index_of st1) (events_urls events)).
    - rewrite Hi1, <-assign_all_app, <-events_urls_app. apply assign_all_empty.
    - intros u Hu. rewrite Hi1. by apply assign_all_lookup_elem. }
  assert (∀ k u,
    new_urls (index_of st1) (events_urls (events ++ more)) !! k = Some u →
    index_of st2 !! u = Some (src_id (size (index_of st1) + k + 1))) as Hnew.
  { intros k u Hk. rewrite Hi2. by apply assign_all_new. }
  exists st1, st2. split_and!; [done|done|done| |done|done| |exact Hnew|].
  - intros u sid Hu. rewrite Hi2. by apply assign_all_old.
  - by apply numbered_as_written_out.
  - by apply numbered_as_written_out.
Qed.

Lemma short_ids_first_seen_order_witness :
  ∃ st1 st2,
    collect_research_sources_callback
      {| session_events := [sample_event]; state := empty_state |} = Some st1
    ∧ collect_research_sources_callback
        {| session_events := [sample_event] ++ [later_event]; state := st1 |}
      = Some st2
    ∧ index_of st1 !! "u1" = Some "src-1"
    ∧ index_of st1 !! "u2" = Some "src-2"
    ∧ size (index_of st1) = 2
    ∧ index_of st2 !! "u1" = Some "src-1"
    ∧ index_of st2 !! "u2" = Some "src-2"
    ∧ index_of st2 !! "u3" = Some "src-3"
    ∧ size (index_of st2) = 3.
Proof.
  destruct (short_ids_first_seen_order [sample_event] [later_event])
    as (st1 & st2 & Hrun1 & Hrun2 & (Hsize1 & _) & _ & _ & (Hsize2 & _)
        & (Hat1 & _) & _ & (Hat2 & _)).
  exists st1, st2. split; [exact Hrun1|]. split; [exact Hrun2|].
  split; [exact (Hat1 0 "u1" eq_refl)|].
  split; [exact (Hat1 1 "u2" eq_refl)|].
  split; [exact Hsize1|].
  split; [exact (Hat2 0 "u1" eq_refl)|].
  split; [exact (Hat2 1 "u2" eq_refl)|].
  split; [exact (Hat2 2 "u3" eq_refl)|].
  exact Hsize2.
Defined.

Lemma claims_for_support_claims ci sup sid :
  claims_for sid (support_claims ci sup)
  = omap (λ iz, if decide (ci iz.2 = Some sid)
                then Some {| text_segment := support_text sup;
                             confidence := expected_confidence sup iz.1 |}
                else None)
         (enumerate (default [] (grounding_chunk_indices sup))).
Proof.
  unfold support_claims.
  induction (enumerate _) as [|iz izs IH]; [done|]. csimpl.
  unfold claim_at at 1. destruct (ci iz.2) as [sid'|]; csimpl.
  - change (?x :: ?l) with ([x] ++ l) at 1.
    rewrite claims_for_app, claims_for_singleton, IH.
    destruct (decide (sid' = sid)) as [->|Hne].
    + by rewrite decide_True.
    + rewrite decide_False; [done|]. by intros [= ?].
  - by rewrite IH.
Qed.

Lemma support_step_returns l sup :
  chunk_map_ok l → is_Some (support_step l sup).
Proof.
  intros Hok. unfold support_step.
  match goal with |- is_Some (for_each ?body ?xs l) =>
    pose proof (for_each_inv False
      (λ l1, chunks_info l1 = chunks_info l ∧ chunk_map_ok l1) body xs l) as H
  end.
  destruct (for_each _ _ l) as [l'|]; [by eexists|]. exfalso.
  apply H; [done|]. clear H. intros l1 [i z] _ [Hci Hok1].
  unfold index_step. destruct (chunks_info l1 !! z) as [sid|] eqn:Hz; [|done].
  destruct (Hok1 _ _ Hz) as (si & Hsi & Hcl).
  match goal with |- context [append_claim sid ?e _] =>
    destruct (append_claim_is_Some sid e _ si Hsi Hcl) as [srcs' Ha] end.
  rewrite Ha. simpl. split; [done|].
  intros z' sid'. simpl. intros (si' & Hsi' & Hcl')%Hok1.
  apply append_claim_spec in Ha as (si0 & claims & Hsi0 & Hcl0 & ->).
  rewrite lookup_insert. case_decide; [|by eauto].
  eexists. split; [done|]. by eexists.
Qed.

(** C3. A support that is processed without an exception appends to the
    record of an identifier one claim for each position of the
    chunk-index list whose index the chunk map resolves to this
    identifier, in order, and nothing else.  The confidence of the claim
    of position [i] is the score at position [i] when the score list
    reaches that far, and a half when it is shorter or absent.  There is
    no exception when the chunk map points to records with a claims
    list. *)
Theorem support_claim_confidence l sup :
  (∀ l', support_step l sup = Some l' →
     ∀ sid, claims_of (sources l') sid
       = claims_of (sources l) sid
         ++ omap (λ iz, if decide (chunks_info l !! iz.2 = Some sid)
                        then Some {| text_segment := support_text sup;
                                     confidence := expected_confidence sup iz.1 |}
                        else None)
                 (enumerate (default [] (grounding_chunk_indices sup))))
  ∧ (chunk_map_ok l → is_Some (support_step l sup))
  ∧ (∀ i cs c, confidence_scores sup = Some cs → cs !! i = Some c →
               expected_confidence sup i = c)
  ∧ (∀ i cs, confidence_scores sup = Some cs → length cs ≤ i →
             expected_confidence sup i = 1 # 2)
  ∧ (confidence_scores sup = None → ∀ i, expected_confidence sup i = 1 # 2).
Proof.
  split_and!.
  - intros l' Hl' sid.
    destruct (support_step_spec _ _ _ Hl') as (_ & _ & _ & _ & ->).
    by rewrite claims_for_support_claims.
  - apply support_step_returns.
  - intros i cs c Hcs Hc. unfold expected_confidence.
    by rewrite Hcs; simpl; rewrite Hc.
  - intros i cs Hcs Hi. unfold expected_confidence.
    by rewrite Hcs; simpl; rewrite lookup_ge_None_2.
  - intros Hcs i. unfold expected_confidence. by rewrite Hcs.
Qed.

Lemma sample_locals_ok : chunk_map_ok sample_locals.
Proof.
  intros z sid Hz.
  assert (sid = "src-1" ∨ sid = "src-2") as [-> | ->].
  { unfold sample_locals in Hz. cbn [chunks_info] in Hz.
    rewrite !lookup_insert_Some, lookup_singleton_Some in Hz. naive_solver. }
  - eexists. split; [reflexivity|]. by eexists.
  - eexists. split; [reflexivity|]. by eexists.
Defined.

Lemma support_claim_confidence_witness :
  chunk_map_ok sample_locals
  ∧ ∃ l', support_step sample_locals sample_support = Some l'
          ∧ claims_of (sources l') "src-1"
            = [ {| text_segment := "seg"; confidence := 0.9 |};
                {| text_segment := "seg"; confidence := 1 # 2 |} ]
          ∧ claims_of (sources l') "src-2"
            = [ {| text_segment := "seg"; confidence := 1 # 2 |} ].
Proof.
  split; [exact sample_locals_ok|].
  destruct (support_claim_confidence sample_locals sample_support)
    as (Hcl & Hret & _).
  destruct (Hret sample_locals_ok) as [l' Hl'].
  exists l'. split; [exact Hl'|]. rewrite !(Hcl l' Hl'). split; reflexivity.
Defined.

(** C4. An event processed, without an exception, in a state where the
    counter is one past the size of the index, as it is throughout a run
    of the callback.  The outcome does not depend on the chunk map left
    by earlier events.  When the event has chunks, the chunk map it
    leaves, which is the one its supports were resolved with, resolves
    exactly the indices of the web chunks of this very event; an index
    that is negative or beyond the chunks of the event resolves to
    nothing.  And where the next identifiers are free, the claims the
    event appends to a record are those of its supports whose chunk index
    resolves, in this way, to the identifier of the record. *)
Theorem chunk_map_scoped_per_event l ev l' :
  id_counter l = size (url_to_short_id l) + 1 →
  event_step l ev = Some l' →
  (∀ ci, ∃ l'', event_step (with_chunks_info l ci) ev = Some l''
                ∧ url_to_short_id l'' = url_to_short_id l'
                ∧ sources l'' = sources l'
                ∧ id_counter l'' = id_counter l')
  ∧ (event_chunks ev ≠ [] →
     ∀ z, chunks_info l' !! z = resolve (event_chunks ev) (url_to_short_id l') z)
  ∧ (∀ z, (z < 0)%Z ∨ length (event_chunks ev) ≤ Z.to_nat z →
          resolve (event_chunks ev) (url_to_short_id l') z = None)
  ∧ (next_free (url_to_short_id l) (sources l) →
     ∀ sid, claims_of (sources l') sid
       = claims_of (sources l) sid
         ++ claims_for sid
              (event_supports ev
               ≫= support_claims (resolve (event_chunks ev) (url_to_short_id l')))).
Proof.
  intros Hc Hstep. split_and!.
  - intros ci. rewrite event_step_unfold in Hstep |- *.
    destruct (event_chunks ev) as [|c cs].
    + injection Hstep as <-. by eexists.
    + change (with_chunks_info (with_chunks_info l ci) ∅)
        with (with_chunks_info l ∅). by exists l'.
  - intros Hcs z. rewrite event_step_unfold in Hstep.
    destruct (event_chunks ev) as [|c cs] eqn:Hcs'; [done|].
    destruct (for_each chunk_step _ _) as [l1|] eqn:Hchunks; [|done].
    cbn [mbind option_bind] in Hstep.
    destruct (support_loop_spec _ _ _ Hstep) as (-> & _ & -> & _).
    exact (chunk_loop_resolve (c :: cs) l l1 Hc Hchunks z).
  - intros z Hz. unfold resolve. case_decide; [|done].
    rewrite lookup_ge_None_2; [done|]. lia.
  - intros Hfree sid. destruct (event_step_spec _ _ _ Hc Hstep) as (_ & _ & H).
    by destruct (H Hfree) as [_ ->].
Qed.

Lemma chunk_map_scoped_per_event_witness :
  id_counter stale_locals = size (url_to_short_id stale_locals) + 1
  ∧ ∃ l', event_step stale_locals sample_event = Some l'
          ∧ chunks_info l' !! 5%Z = None
          ∧ ∀ ci, ∃ l'', event_step (with_chunks_info stale_locals ci) sample_event
                         = Some l''
                         ∧ sources l'' = sources l'.
Proof.
  split; [reflexivity|].
  destruct (event_step stale_locals sample_event) as [l'|] eqn:Hstep;
    [|vm_compute in Hstep; discriminate Hstep].
  exists l'. split; [reflexivity|].
  destruct (chunk_map_scoped_per_event stale_locals sample_event l'
              eq_refl Hstep) as (Hany & Hci & Hout & _).
  split.
  - rewrite Hci by discriminate. apply Hout. right. vm_compute. lia.
  - intros ci. destruct (Hany ci) as (l'' & Hl'' & _ & Hs & _).
    exists l''. split; [exact Hl''|exact Hs].
Defined.

(** C5, as stated, fails.  Mutual consistency alone is not kept: from
    [stale_state] the next number is 2, the new URL takes the identifier
    of the old one, and [src-2] then stands for two URLs of the index. *)
Lemma consistency_alone_not_kept :
  mutually_consistent (index_of stale_state) (registry_of stale_state)
  ∧ ∃ st',
      collect_research_sources_callback stale_ctx = Some st'
      ∧ index_of st' !! "a" = Some "src-2"
      ∧ index_of st' !! "b" = Some "src-2"
      ∧ ¬ mutually_consistent (index_of st') (registry_of st').
Proof.
  split.
  - change (index_of stale_state)
      with ({[ "a" := "src-2" ]} : gmap string string).
    change (registry_of stale_state)
      with ({[ "src-2" := stale_record ]} : gmap string source_info).
    split.
    + intros u sid. rewrite lookup_singleton_Some.
      intros [<- <-]. set_solver.
    + intros sid. rewrite dom_singleton_L, elem_of_singleton.
      intros ->. exists "a". split; [done|].
      intros u'. rewrite lookup_singleton_Some. naive_solver.
  - eexists. split; [vm_compute; reflexivity|].
    split_and!; [done..|].
    intros [_ Hex]. destruct (Hex "src-2") as (u & _ & Huniq).
    { apply elem_of_dom. by eexists. }
    assert ("a" = u) as <- by (by apply Huniq).
    assert ("b" = "a") by (by apply Huniq). done.
Qed.

(** C5, as the code has it.  From a state whose index and registry are
    mutually consistent and where no identifier is numbered beyond the
    size of the index, every run that returns leaves them so; and the
    run returns when every record has a claims list. *)
Theorem collect_keeps_consistency ctx :
  mutually_consistent (index_of (state ctx)) (registry_of (state ctx)) →
  numbered (index_of (state ctx)) →
  (∀ st', collect_research_sources_callback ctx = Some st' →
          mutually_consistent (index_of st') (registry_of st')
          ∧ numbered (index_of st'))
  ∧ (claims_present (registry_of (state ctx)) →
     is_Some (collect_research_sources_callback ctx)).
Proof.
  intros Hmc Hn. split.
  - intros st' Hrun.
    assert (from_option
      (λ st', mutually_consistent (index_of st') (registry_of st')
              ∧ numbered (index_of st'))
      True (collect_research_sources_callback ctx)) as H.
    { apply (collect_inv True
        (λ idx srcs, mutually_consistent idx srcs ∧ numbered idx)).
      - intros idx srcs u t d [Hmc' Hn'] Hu. split.
        + by apply mutually_consistent_register.
        + by apply numbered_register.
      - intros idx srcs u sid e [Hmc' Hn'] Hu.
        destruct (append_claim sid e srcs) as [srcs'|] eqn:Ha; [|done].
        split; [|done].
        eapply mutually_consistent_dom; [|done]. by eapply append_claim_dom.
      - done. }
    by rewrite Hrun in H.
  - intros Hcl.
    assert (from_option
      (λ st', (∀ u sid, index_of st' !! u = Some sid → sid ∈ dom (registry_of st'))
              ∧ claims_present (registry_of st'))
      False (collect_research_sources_callback ctx)) as H.
    { apply (collect_inv False
        (λ idx srcs, (∀ u sid, idx !! u = Some sid → sid ∈ dom srcs)
                     ∧ claims_present srcs)).
      - intros idx srcs u t d [Hin Hcl'] Hu. split.
        + intros v sid. rewrite lookup_insert, dom_insert_L. case_decide.
          * intros [= <-]. set_solver.
          * intros ?%Hin. set_solver.
        + by apply claims_present_register.
      - intros idx srcs u sid e [Hin Hcl'] Hu.
        pose proof (Hin _ _ Hu) as [si Hsi]%elem_of_dom.
        destruct (append_claim_is_Some sid e srcs si Hsi (Hcl' _ _ Hsi))
          as [srcs' Ha].
        rewrite Ha. simpl. split.
        + by rewrite (append_claim_dom _ _ _ _ Ha).
        + by eapply claims_present_append.
      - by destruct Hmc. }
    destruct (collect_research_sources_callback ctx) as [st'|]; [by eexists|done].
Qed.

Lemma collect_keeps_consistency_witness :
  mutually_consistent (index_of empty_state) (registry_of empty_state)
  ∧ numbered (index_of empty_state)
  ∧ (∀ st', collect_research_sources_callback sample_ctx = Some st' →
            mutually_consistent (index_of st') (registry_of st')
            ∧ numbered (index_of st'))
  ∧ (claims_present (registry_of empty_state) →
     is_Some (collect_research_sources_callback sample_ctx)).
Proof.
  destruct registry_inv_empty as (Hmc & Hn & _).
  split_and!; [exact Hmc|exact Hn|..];
    apply (collect_keeps_consistency sample_ctx Hmc Hn).
Defined.

(** C10. Two runs over the same events, the first from the empty state
    and the second from the state the first has left: both return; the
    second leaves the index and the keys of the registry as they are and
    appends to every record the claims it already holds, so that each
    claims list doubles; the two states differ as soon as one record
    holds a claim. *)
Theorem second_run_appends_again events :
  ∃ st1 st2,
    collect_research_sources_callback
      {| session_events := events; state := empty_state |} = Some st1
    ∧ collect_research_sources_callback
        {| session_events := events; state := st1 |} = Some st2
    ∧ index_of st2 = index_of st1
    ∧ dom (registry_of st2) = dom (registry_of st1)
    ∧ (∀ sid si1, registry_of st1 !! sid = Some si1 →
         ∃ claims si2,
           si_supported_claims si1 = Some claims
           ∧ registry_of st2 !! sid = Some si2
           ∧ si_supported_claims si2 = Some (claims ++ claims)
           ∧ length (claims ++ claims) = 2 * length claims)
    ∧ ((∃ sid, claims_of (registry_of st1) sid ≠ []) → st2 ≠ st1).
Proof.
  destruct (collect_registry_inv
              {| session_events := events; state := empty_state |})
    as (st1 & Hrun1 & Hinv1); [exact registry_inv_empty|].
  destruct (collect_registry_inv
              {| session_events := events; state := st1 |})
    as (st2 & Hrun2 & Hinv2); [done|].
  pose proof (index_of_collect _ _ Hrun1) as Hi1.
  pose proof (index_of_collect _ _ Hrun2) as Hi2.
  simpl in Hi1, Hi2.
  assert (index_of st2 = index_of st1) as Hidx.
  { rewrite Hi2. apply assign_all_known.
    intros u Hu. rewrite Hi1. by apply assign_all_lookup_elem. }
  destruct Hinv1 as (Hmc1 & Hn1 & Hcl1 & _).
  destruct Hinv2 as (Hmc2 & Hn2 & Hcl2 & _).
  assert (dom (registry_of st2) = dom (registry_of st1)) as Hdom.
  { apply set_eq. intros sid.
    rewrite (mutually_consistent_dom_iff _ _ _ Hmc1).
    rewrite (mutually_consistent_dom_iff _ _ _ Hmc2). by rewrite Hidx. }
  assert (∀ sid, claims_of (registry_of st2) sid
                 = claims_of (registry_of st1) sid
                   ++ claims_of (registry_of st1) sid) as Hclaims.
  { intros sid.
    destruct (collect_spec _ _ Hrun1) as (_ & _ & _ & _ & _ & Hc1).
    destruct (collect_spec _ _ Hrun2) as (_ & _ & _ & _ & _ & Hc2).
    simpl in Hc1, Hc2.
    destruct (Hc1 next_free_empty) as [_ Hc1'].
    destruct (Hc2 (registry_inv_next_free _ _ Hmc1 Hn1)) as [_ Hc2'].
    rewrite Hc2', Hidx. f_equal.
    rewrite Hc1'. change (registry_of empty_state) with (∅ : gmap string source_info).
    by rewrite claims_of_empty. }
  exists st1, st2. split_and!; [done..| |].
  - intros sid si1 Hsi1. destruct (Hcl1 _ _ Hsi1) as [claims Hc].
    assert (is_Some (registry_of st2 !! sid)) as [si2 Hsi2].
    { apply elem_of_dom. rewrite Hdom. by eapply elem_of_dom_2. }
    destruct (Hcl2 _ _ Hsi2) as [claims2 Hc2].
    exists claims, si2. split_and!; [done..| |].
    + specialize (Hclaims sid). unfold claims_of in Hclaims.
      rewrite Hsi1, Hsi2 in Hclaims. simpl in Hclaims.
      rewrite Hc, Hc2 in Hclaims. simpl in Hclaims. by rewrite Hc2, Hclaims.
    + rewrite length_app. lia.
  - intros [sid Hsid] ->. specialize (Hclaims sid).
    apply (f_equal length) in Hclaims. rewrite length_app in Hclaims.
    destruct (claims_of (registry_of st1) sid); [done|]. simpl in Hclaims. lia.
Qed.

Lemma second_run_appends_again_witness :
  ∃ st1 st2,
    collect_research_sources_callback
      {| session_events := [sample_event]; state := empty_state |} = Some st1
    ∧ collect_research_sources_callback
        {| session_events := [sample_event]; state := st1 |} = Some st2
    ∧ index_of st2 = index_of st1
    ∧ claims_of (registry_of st1) "src-2"
      = [ {| text_segment := "seg"; confidence := 1 # 2 |} ]
    ∧ st2 ≠ st1.
Proof.
  destruct (second_run_appends_again [sample_event])
    as (st1 & st2 & Hrun1 & Hrun2 & Hidx & _ & _ & Hne).
  exists st1, st2.
  assert (claims_of (registry_of st1) "src-2"
          = [ {| text_segment := "seg"; confidence := 1 # 2 |} ]) as Hcl.
  { vm_compute in Hrun1. injection Hrun1 as <-. reflexivity. }
  split; [exact Hrun1|]. split; [exact Hrun2|]. split; [exact Hidx|].
  split; [exact Hcl|].
  apply Hne. exists "src-2". rewrite Hcl. discriminate.
Defined.

(** * Properties of the citation rewriter *)

(** ** Strings and logged computations *)

Lemma string_app_cons c (s t : string) : String c s +:+ t = String c (s +:+ t).
Proof. done. Qed.

Lemma string_app_nil_l (s : string) : EmptyString +:+ s = s.
Proof. done. Qed.

Lemma string_app_nil_r (s : string) : s +:+ EmptyString = s.
Proof.
  induction s as [|c s IH]; [done|]. by rewrite string_app_cons, IH.
Qed.

Lemma string_app_assoc (s1 s2 s3 : string) :
  (s1 +:+ s2) +:+ s3 = s1 +:+ (s2 +:+ s3).
Proof.
  induction s1 as [|c s1 IH]; [done|]. by rewrite !string_app_cons, IH.
Qed.

Lemma string_length_app (s1 s2 : string) :
  String.length (s1 +:+ s2) = String.length s1 + String.length s2.
Proof.
  induction s1 as [|c s1 IH]; [done|]. rewrite string_app_cons. simpl.
  by rewrite IH.
Qed.

Lemma bind_ret_l {A B : Type} (a : A) (f : A → Logged B) : bind (ret a) f = f a.
Proof. unfold bind, ret. by destruct (f a). Qed.

Lemma bind_ret_r {A : Type} (c : Logged A) : bind c ret = c.
Proof. destruct c as [w [a|]]; simpl; [|done]. by rewrite app_nil_r. Qed.

Lemma bind_assoc {A B C : Type} (c : Logged A) (f : A → Logged B)
    (g : B → Logged C) :
  bind (bind c f) g = bind c (λ a, bind (f a) g).
Proof.
  destruct c as [w [a|]]; simpl; [|done].
  destruct (f a) as [w' [b|]]; simpl; [|done].
  destruct (g b) as [w'' c]. by rewrite (assoc_L (++)).
Qed.

Lemma bind_step {A A' B : Type} w (a : A) (a' : A') (f : A → Logged B)
    (g : A' → Logged B) :
  f a = g a' → bind (w, Some a) f = bind (w, Some a') g.
Proof. intros Hfg. simpl. by rewrite Hfg. Qed.

Lemma bind_ext {A B : Type} (c : Logged A) (f g : A → Logged B) :
  (∀ a, f a = g a) → bind c f = bind c g.
Proof. intros Hfg. destruct c as [w [a|]]; simpl; [|done]. by rewrite Hfg. Qed.

(** ** The matcher consumes a prefix of its input *)

Lemma many_sound p k cs g s m' :
  many p k cs g s = Some m' →
  ∃ w s1, s = w +:+ s1
          ∧ k {| consumed := cs +:+ w; group1 := g; input := s1 |} = Some m'.
Proof.
  assert (∀ cs s, k {| consumed := cs; group1 := g; input := s |} = Some m' →
    ∃ w s1, s = w +:+ s1
            ∧ k {| consumed := cs +:+ w; group1 := g; input := s1 |} = Some m')
    as Hstop.
  { intros cs' s' Hk. exists EmptyString, s'.
    by rewrite string_app_nil_r, string_app_nil_l. }
  revert cs. induction s as [|c s IH]; intros cs; simpl; [by apply Hstop|].
  destruct (p c); [|by apply Hstop].
  destruct (many p k (cs +:+ String c EmptyString) g s) as [m|] eqn:Hm;
    [|by apply Hstop].
  intros [= <-]. destruct (IH _ Hm) as (w & s1 & -> & Hk).
  exists (String c w), s1. split; [done|].
  by rewrite string_app_assoc in Hk.
Qed.

Lemma exec_sound r k m m' :
  exec r k m = Some m' →
  ∃ w m1, k m1 = Some m'
          ∧ consumed m1 = consumed m +:+ w
          ∧ input m = w +:+ input m1.
Proof.
  assert (∀ k m s, input m = s → k m = Some m' →
    ∃ w m1, k m1 = Some m' ∧ consumed m1 = consumed m +:+ w
            ∧ s = w +:+ input m1) as Hstop.
  { intros k' m0 s <- Hk. exists EmptyString, m0.
    by rewrite string_app_nil_r, string_app_nil_l. }
  assert (∀ k m c' s', k (take_char m c' s') = Some m' →
    ∃ w m1, k m1 = Some m' ∧ consumed m1 = consumed m +:+ w
            ∧ String c' s' = w +:+ input m1) as Hone.
  { intros k' m0 c' s' Hk.
    by exists (String c' EmptyString), (take_char m0 c' s'). }
  revert k m. induction r as [|c|p|r1 IH1 r2 IH2|p|p|p|r IH]; intros k m; simpl.
  - by apply Hstop.
  - destruct (input m) as [|c' s'] eqn:Hin; [done|].
    case_bool_decide; [|done]. by apply Hone.
  - destruct (input m) as [|c' s'] eqn:Hin; [done|].
    destruct (p c'); [|done]. by apply Hone.
  - intros (w1 & m1 & (w2 & m2 & Hk & Hc2 & Hi2)%IH2 & Hc1 & Hi1)%IH1.
    exists (w1 +:+ w2), m2. split_and!; [done|..].
    + by rewrite Hc2, Hc1, string_app_assoc.
    + by rewrite Hi1, Hi2, string_app_assoc.
  - destruct (input m) as [|c' s'] eqn:Hin; [by apply Hstop|].
    destruct (p c'); [|by apply Hstop].
    destruct (k (take_char m c' s')) as [m1|] eqn:Hk1; [|by apply Hstop].
    intros [= <-]. by eapply Hone.
  - intros (w & s1 & Hin & Hk)%many_sound. by eexists w, _.
  - destruct (input m) as [|c' s'] eqn:Hin; [done|].
    destruct (p c'); [|done].
    intros (w & s1 & -> & Hk)%many_sound.
    eexists (String c' w), _. split; [exact Hk|]. simpl.
    by rewrite string_app_assoc.
  - intros (w & m1 & Hk & Hc & Hi)%IH. simpl in *.
    eexists w, _. split; [exact Hk|]. simpl. by rewrite Hc.
Qed.

Lemma match_at_sound r s m rest :
  match_at r s = Some (m, rest) → s = group0 m +:+ rest.
Proof.
  unfold match_at.
  destruct (exec r Some _) as [m1|] eqn:Hexec; [|done]. simpl.
  intros [= <- <-]. apply exec_sound in Hexec as (w & m2 & [= ->] & Hc & Hi).
  simpl in *. by rewrite Hc.
Qed.

(** ** A character no part of the pattern accepts ends every match *)

Lemma many_barrier p k k' b t :
  p b = false →
  (∀ m, k (extend (String b t) m) = extend (String b t) <$> k' m) →
  ∀ u cs g,
    many p k cs g (u +:+ String b t)
    = extend (String b t) <$> many p k' cs g u.
Proof.
  intros Hb Hk u. induction u as [|c u IH]; intros cs g.
  - rewrite string_app_nil_l. simpl. rewrite Hb.
    apply (Hk {| consumed := cs; group1 := g; input := EmptyString |}).
  - rewrite string_app_cons. simpl. destruct (p c).
    + rewrite IH. destruct (many p k' _ g u) as [m|]; simpl; [done|].
      apply (Hk {| consumed := cs; group1 := g; input := String c u |}).
    + apply (Hk {| consumed := cs; group1 := g; input := String c u |}).
Qed.

Lemma exec_barrier r b t :
  avoids b r = true →
  ∀ k k',
    (∀ m, k (extend (String b t) m) = extend (String b t) <$> k' m) →
    ∀ m, exec r k (extend (String b t) m) = extend (String b t) <$> exec r k' m.
Proof.
  induction r as [|c|p|r1 IH1 r2 IH2|p|p|p|r IH]; simpl; intros Hav k k' Hk m.
  - apply Hk.
  - apply bool_decide_eq_true in Hav.
    destruct (input m) as [|c' s'] eqn:Hin.
    + rewrite string_app_nil_l. by rewrite bool_decide_false.
    + rewrite string_app_cons. case_bool_decide; [|done].
      apply (Hk (take_char m c' s')).
  - apply negb_true_iff in Hav.
    destruct (input m) as [|c' s'] eqn:Hin.
    + rewrite string_app_nil_l. by rewrite Hav.
    + rewrite string_app_cons. destruct (p c'); [|done].
      apply (Hk (take_char m c' s')).
  - apply andb_true_iff in Hav as [Hav1 Hav2].
    apply IH1; [done|]. by apply IH2.
  - apply negb_true_iff in Hav.
    destruct (input m) as [|c' s'] eqn:Hin.
    + rewrite string_app_nil_l, Hav.
      rewrite <-(Hk m). unfold extend. by rewrite Hin.
    + rewrite string_app_cons.
      assert (k (extend (String b t) m) = extend (String b t) <$> k' m) as Hm
        by apply Hk.
      unfold extend at 1 in Hm. rewrite Hin, string_app_cons in Hm.
      destruct (p c'); [|done].
      change (take_char _ c' (s' +:+ String b t))
        with (extend (String b t) (take_char m c' s')).
      rewrite (Hk (take_char m c' s')).
      destruct (k' (take_char m c' s')) as [m1|]; simpl; [done|].
      rewrite <-Hm. unfold extend. by rewrite Hin, string_app_cons.
  - apply negb_true_iff in Hav. by apply many_barrier.
  - apply negb_true_iff in Hav.
    destruct (input m) as [|c' s'] eqn:Hin.
    + rewrite string_app_nil_l. by rewrite Hav.
    + rewrite string_app_cons. destruct (p c'); [|done].
      by apply many_barrier.
  - apply (IH Hav _ _) with
      (m := {| consumed := EmptyString; group1 := group1 m; input := input m |}).
    intros m1. simpl.
    apply (Hk {| consumed := consumed m +:+ consumed m1;
                 group1 := Some (consumed m1); input := input m1 |}).
Qed.

(** ** The scan of [re.sub] *)

Section scan.
Variable r : regex.
Variable repl : Match → Logged string.

(** The characters of a match are passed over. *)
Lemma sub_loop_skip w s :
  sub_loop r repl (String.length w) (w +:+ s) = sub_loop r repl 0 s.
Proof.
  induction w as [|c w IH]; [done|]. by rewrite string_app_cons.
Qed.

(** Where the pattern matches a non-empty text, the match is replaced and
    the scan goes on after it. *)
Lemma sub_loop_match s m rest c w :
  match_at r s = Some (m, rest) → group0 m = String c w →
  sub_loop r repl 0 s
  = (out <~ repl m;; tl <~ sub_loop r repl 0 rest;; ret (out +:+ tl)).
Proof.
  intros Hm Hg. pose proof (match_at_sound _ _ _ _ Hm) as Hs.
  rewrite Hg, string_app_cons in Hs. subst s.
  cbn [sub_loop]. rewrite Hm, Hg.
  cbn [String.length]. apply bind_ext. intros out.
  by rewrite sub_loop_skip.
Qed.

(** A character [b] that ends every match and before which the matches
    are those of the text read alone splits the scan in two. *)
Variable b : ascii.
Hypothesis r_nil : match_at r EmptyString = None.
Hypothesis r_barrier : ∀ u t, u ≠ EmptyString →
  match_at r (u +:+ String b t)
  = (λ mr, (mr.1, mr.2 +:+ String b t)) <$> match_at r u.

Lemma sub_loop_barrier t pre skip :
  skip ≤ String.length pre →
  sub_loop r repl skip (pre +:+ String b t)
  = (a <~ sub_loop r repl skip pre;;
     tl <~ sub_loop r repl 0 (String b t);;
     ret (a +:+ tl)).
Proof.
  revert skip. induction pre as [|c pre IH]; intros skip Hskip.
  - assert (skip = 0) as -> by (simpl in Hskip; lia).
    rewrite string_app_nil_l. cbn [sub_loop]. rewrite r_nil, bind_ret_l.
    symmetry. apply bind_ret_r.
  - rewrite string_app_cons. destruct skip as [|n]; cbn [sub_loop].
    + rewrite <-string_app_cons, r_barrier by done.
      destruct (match_at r (String c pre)) as [[m rest]|] eqn:Hm; simpl.
      * rewrite bind_assoc. apply bind_ext. intros out.
        destruct (String.length (group0 m)) as [|n] eqn:Hlen.
        -- rewrite IH by lia. rewrite !bind_assoc. apply bind_ext. intros a.
           rewrite bind_assoc, bind_ret_l. apply bind_ext. intros tl.
           rewrite bind_ret_l. by rewrite string_app_assoc.
        -- apply match_at_sound in Hm. apply (f_equal String.length) in Hm.
           rewrite string_length_app, Hlen in Hm. simpl in Hm.
           rewrite IH by lia. rewrite !bind_assoc. apply bind_ext. intros a.
           rewrite bind_assoc, bind_ret_l. apply bind_ext. intros tl.
           rewrite bind_ret_l. by rewrite string_app_assoc.
      * rewrite IH by lia. rewrite !bind_assoc. apply bind_ext. intros a.
        rewrite bind_assoc, bind_ret_l. apply bind_ext. intros tl.
        by rewrite bind_ret_l.
    + simpl in Hskip. apply IH. lia.
Qed.

End scan.

(** ** The citation pattern *)

Lemma cite_pattern_head k m :
  exec cite_pattern k m
  = exec (Chr "<") (exec (Lit "cite" ⋅ cite_attribute) k) m.
Proof. done. Qed.

Lemma exec_Chr c k m :
  exec (Chr c) k m
  = match input m with
    | String c' s' => if bool_decide (c' = c) then k (take_char m c' s') else None
    | EmptyString => None
    end.
Proof. done. Qed.

Lemma cite_match_nil : match_at cite_pattern EmptyString = None.
Proof. done. Qed.

(** A match of the pattern is not empty: it starts with [<]. *)
Lemma cite_match_head s m rest :
  match_at cite_pattern s = Some (m, rest) →
  ∃ w, group0 m = String "<" w.
Proof.
  unfold match_at. rewrite cite_pattern_head, exec_Chr. cbn [input].
  destruct s as [|c s]; [done|]. case_bool_decide as Hc; [|done]. subst c.
  destruct (exec (Lit "cite" ⋅ cite_attribute) Some _) as [m1|] eqn:Hexec;
    [|done].
  simpl. intros [= <- <-].
  apply exec_sound in Hexec as (w & m2 & [= ->] & Hcons & _).
  exists w. simpl. by rewrite Hcons.
Qed.

(** No match of the pattern runs over a later [<]. *)
Lemma cite_match_barrier u t :
  u ≠ EmptyString →
  match_at cite_pattern (u +:+ String "<" t)
  = (λ mr, (mr.1, mr.2 +:+ String "<" t)) <$> match_at cite_pattern u.
Proof.
  destruct u as [|c u]; [done|]. intros _. unfold match_at.
  rewrite !cite_pattern_head, string_app_cons, !exec_Chr. cbn [input].
  case_bool_decide as Hc; [|done].
  change (take_char _ c (u +:+ String "<" t)) with
    (extend (String "<" t)
       (take_char {| consumed := EmptyString; group1 := None;
                     input := String c u |} c u)).
  rewrite (exec_barrier _ "<" t) with (k' := Some); [|done|done].
  by destruct (exec _ Some _).
Qed.

(** The text before a marker and the text from the marker on are
    rewritten one after the other. *)
Lemma rewrite_markers_split repl pre s m rest :
  match_at cite_pattern s = Some (m, rest) →
  re_sub cite_pattern repl (pre +:+ s)
  = (a <~ re_sub cite_pattern repl pre;;
     out <~ repl m;;
     tl <~ re_sub cite_pattern repl rest;;
     ret (a +:+ out +:+ tl)).
Proof.
  intros Hm. destruct (cite_match_head _ _ _ Hm) as [w Hw].
  pose proof (match_at_sound _ _ _ _ Hm) as Hs.
  assert (∃ t, s = String "<" t) as [t Ht].
  { rewrite Hs, Hw, string_app_cons. by eexists. }
  unfold re_sub. rewrite Ht.
  rewrite (sub_loop_barrier _ _ "<" cite_match_nil cite_match_barrier)
    by lia.
  apply bind_ext. intros a. rewrite <-Ht.
  rewrite (sub_loop_match _ _ _ _ _ _ _ Hm Hw).
  rewrite bind_assoc. apply bind_ext. intros out.
  rewrite bind_assoc. apply bind_ext. intros tl.
  by rewrite bind_ret_l.
Qed.

(** ** The normalization *)

Lemma sub_loop_pure r f skip s :
  sub_loop r (λ m, ret (f m)) skip s = ret (sub_pure r f skip s).
Proof.
  revert skip. induction s as [|c s IH]; intros skip; cbn [sub_loop sub_pure].
  - by destruct (match_at r EmptyString) as [[m rest]|].
  - destruct skip as [|n]; [|apply IH].
    destruct (match_at r (String c s)) as [[m rest]|].
    + rewrite bind_ret_l.
      destruct (String.length (group0 m)); by rewrite IH, bind_ret_l.
    + by rewrite IH, bind_ret_l.
Qed.

Lemma re_sub_normalize s :
  re_sub space_punct_pattern (λ m, ret (group_1 m)) s = ret (normalize_spacing s).
Proof. apply sub_loop_pure. Qed.

(** * The claims on the citation rewriter *)

(** C6. With the sample report in [final_cited_report] and the sample
    registry in [sources], the callback logs nothing and returns; the
    returned content is the single text part
    [Claim A [T1](u1), claim B [T2](u2).], which is also what the state
    then holds in [final_report_with_citations], the other slots being
    as before. *)
Theorem citation_round_trip st :
  slot_final_cited_report st = Some sample_report →
  slot_sources st = Some sample_registry →
  citation_replacement_callback st
  = ([], Some (text_content sample_rewritten,
               with_final_report st sample_rewritten)).
Proof.
  intros Hreport Hsources. unfold citation_replacement_callback.
  rewrite Hreport, Hsources. cbn [default from_option id].
  assert (re_sub cite_pattern (tag_replacer sample_registry) sample_report
          = ([], Some ("Claim A [T1](u1), claim B [T2](u2)."))) as ->
    by (vm_compute; reflexivity).
  cbn [bind]. 
  assert (re_sub space_punct_pattern (λ m, ret (group_1 m))
            "Claim A [T1](u1), claim B [T2](u2)."
          = ([], Some sample_rewritten)) as -> by (vm_compute; reflexivity).
  unfold with_final_report. by rewrite Hreport, Hsources.
Qed.

Lemma citation_round_trip_witness :
  slot_final_cited_report sample_report_state = Some sample_report
  ∧ slot_sources sample_report_state = Some sample_registry
  ∧ citation_replacement_callback sample_report_state
    = ([], Some (text_content sample_rewritten,
                 with_final_report sample_report_state sample_rewritten)).
Proof.
  split; [reflexivity|]. split; [reflexivity|].
  apply (citation_round_trip sample_report_state); reflexivity.
Defined.

(** C7. A report [pre ++ s] where the pattern matches at [s], with match
    [m] and the text [post] after it, and where the identifier of [m] is
    not a key of the registry.  The replacement of [m] logs one warning
    and is the empty string, without an exception.  The callback rewrites
    [pre], logs the warning, goes on rewriting [post], and normalizes the
    spacing of the two results put together, the marker leaving nothing
    between them; it raises only if the rewriting of [pre] or of [post]
    does. *)
Theorem unresolved_marker_removed st pre s m post :
  slot_final_cited_report st = Some (pre +:+ s) →
  match_at cite_pattern s = Some (m, post) →
  registry_of st !! group_1 m = None →
  tag_replacer (registry_of st) m = ([removal_warning m], Some EmptyString)
  ∧ citation_replacement_callback st
    = (r1 <~ re_sub cite_pattern (tag_replacer (registry_of st)) pre;;
       logging WARNING
         ("Invalid citation tag found and removed: " +:+ group0 m);;;
       r2 <~ re_sub cite_pattern (tag_replacer (registry_of st)) post;;
       ret (text_content (normalize_spacing (r1 +:+ r2)),
            with_final_report st (normalize_spacing (r1 +:+ r2))))
  ∧ ∀ w1 r1 w2 r2,
      re_sub cite_pattern (tag_replacer (registry_of st)) pre = (w1, Some r1) →
      re_sub cite_pattern (tag_replacer (registry_of st)) post = (w2, Some r2) →
      citation_replacement_callback st
      = (w1 ++ removal_warning m :: w2,
         Some (text_content (normalize_spacing (r1 +:+ r2)),
               with_final_report st (normalize_spacing (r1 +:+ r2)))).
Proof.
  intros Hreport Hm Habsent.
  assert (tag_replacer (registry_of st) m
          = ([removal_warning m], Some EmptyString)) as Hrepl.
  { unfold tag_replacer. by rewrite Habsent. }
  assert (citation_replacement_callback st
    = (r1 <~ re_sub cite_pattern (tag_replacer (registry_of st)) pre;;
       logging WARNING
         ("Invalid citation tag found and removed: " +:+ group0 m);;;
       r2 <~ re_sub cite_pattern (tag_replacer (registry_of st)) post;;
       ret (text_content (normalize_spacing (r1 +:+ r2)),
            with_final_report st (normalize_spacing (r1 +:+ r2))))) as Hcall.
  { unfold citation_replacement_callback. rewrite Hreport.
    cbn [default from_option id]. fold (registry_of st).
    rewrite (rewrite_markers_split _ _ _ _ _ Hm), Hrepl.
    rewrite bind_assoc. apply bind_ext. intros r1.
    rewrite bind_assoc. unfold logging, removal_warning. apply bind_step.
    rewrite bind_assoc. apply bind_ext. intros r2.
    rewrite bind_ret_l, string_app_nil_l, re_sub_normalize, bind_ret_l.
    unfold with_final_report. by rewrite Hreport. }
  split_and!; [done..|].
  intros w1 r1 w2 r2 Hpre Hpost. rewrite Hcall, Hpre, Hpost. simpl.
  by rewrite app_nil_r.
Qed.

Lemma unresolved_marker_removed_witness :
  slot_final_cited_report unresolved_report_state
  = Some ("A" +:+ unresolved_marker +:+ " , B" +:+ cite_marker "src-1" +:+ " .")
  ∧ match_at cite_pattern
      (unresolved_marker +:+ " , B" +:+ cite_marker "src-1" +:+ " .")
    = Some ({| group0 := unresolved_marker; match_group1 := Some "src-99" |},
            " , B" +:+ cite_marker "src-1" +:+ " .")
  ∧ registry_of unresolved_report_state !! "src-99" = None
  ∧ citation_replacement_callback unresolved_report_state
    = ([{| level := WARNING;
           message := "Invalid citation tag found and removed: "
                      +:+ unresolved_marker |}],
       Some (text_content "A, B [T1](u1).",
             with_final_report unresolved_report_state "A, B [T1](u1).")).
Proof.
  split; [reflexivity|]. split; [vm_compute; reflexivity|].
  split; [reflexivity|].
  destruct (unresolved_marker_removed unresolved_report_state "A"
              (unresolved_marker +:+ " , B" +:+ cite_marker "src-1" +:+ " .")
              {| group0 := unresolved_marker; match_group1 := Some "src-99" |}
              (" , B" +:+ cite_marker "src-1" +:+ " ."))
    as (_ & _ & Hcall); [reflexivity|vm_compute; reflexivity|reflexivity|].
  rewrite (Hcall [] "A" [] " , B [T1](u1) .");
    [|vm_compute; reflexivity|vm_compute; reflexivity].
  vm_compute. reflexivity.
Defined.

(** * The claims on the escalation checker *)

(** C8. When the slot holds a verdict graded [pass], the checker returns
    with exactly one event, whose actions have [escalate] set to true; in
    every other case (no verdict, or a grade other than [pass]) it
    returns with exactly one event without the flag.  It raises in
    neither case. *)
Theorem escalation_decision name st :
  (verdict_passes st →
   EscalationChecker_run_async_impl name st
   = ([passed_record name], Some ([escalate_event name], st)))
  ∧ (¬ verdict_passes st →
     EscalationChecker_run_async_impl name st
     = ([continue_record name], Some ([plain_event name], st))).
Proof.
  unfold EscalationChecker_run_async_impl, verdict_passes. split.
  - intros (f & -> & Hg). unfold feedback_truthy. rewrite Hg.
    by rewrite bool_decide_true.
  - intros Hno. destruct (slot_research_evaluation st) as [f|]; [|done].
    rewrite (bool_decide_false (grade f = Some "pass")); [|by eauto].
    by rewrite andb_false_r.
Qed.

Lemma escalation_decision_witness :
  verdict_passes (state_with_verdict (Some (verdict "pass")))
  ∧ ¬ verdict_passes (state_with_verdict (Some (verdict "fail")))
  ∧ ¬ verdict_passes (state_with_verdict None)
  ∧ EscalationChecker_run_async_impl "escalation_checker"
      (state_with_verdict (Some (verdict "pass")))
    = ([passed_record "escalation_checker"],
       Some ([escalate_event "escalation_checker"],
             state_with_verdict (Some (verdict "pass"))))
  ∧ EscalationChecker_run_async_impl "escalation_checker"
      (state_with_verdict (Some (verdict "fail")))
    = ([continue_record "escalation_checker"],
       Some ([plain_event "escalation_checker"],
             state_with_verdict (Some (verdict "fail"))))
  ∧ EscalationChecker_run_async_impl "escalation_checker"
      (state_with_verdict None)
    = ([continue_record "escalation_checker"],
       Some ([plain_event "escalation_checker"], state_with_verdict None)).
Proof.
  assert (verdict_passes (state_with_verdict (Some (verdict "pass")))) as Hpass.
  { exists (verdict "pass"). split; reflexivity. }
  assert (¬ verdict_passes (state_with_verdict (Some (verdict "fail")))) as Hfail.
  { intros (f & Hf & Hg). injection Hf as <-. discriminate Hg. }
  assert (¬ verdict_passes (state_with_verdict None)) as Hnone.
  { intros (f & Hf & _). discriminate Hf. }
  split; [exact Hpass|]. split; [exact Hfail|]. split; [exact Hnone|].
  split; [|split].
  - exact (proj1 (escalation_decision _ _) Hpass).
  - exact (proj2 (escalation_decision _ _) Hfail).
  - exact (proj2 (escalation_decision _ _) Hnone).
Defined.

(** C9. The checker leaves the session state as it found it: whatever
    the state, it returns, and the state it hands back is the one it was
    given.  What it logs and emits depends on the [research_evaluation]
    slot alone: in any state with the same verdict it logs and emits the
    same, again without a change to that state. *)
Theorem escalation_checker_frame name st :
  ∃ log events,
    EscalationChecker_run_async_impl name st = (log, Some (events, st))
    ∧ ∀ st', slot_research_evaluation st' = slot_research_evaluation st →
        EscalationChecker_run_async_impl name st' = (log, Some (events, st')).
Proof.
  unfold EscalationChecker_run_async_impl.
  destruct (match slot_research_evaluation st with
            | Some f => _ | None => _ end) eqn:Hcond;
    eexists _, _; (split; [reflexivity|]); intros st' Hst';
    rewrite Hst', Hcond; reflexivity.
Qed.

Lemma escalation_checker_frame_witness :
  ∃ log events,
    EscalationChecker_run_async_impl "escalation_checker" sample_report_state
    = (log, Some (events, sample_report_state))
    ∧ EscalationChecker_run_async_impl "escalation_checker" empty_state
      = (log, Some (events, empty_state)).
Proof.
  destruct (escalation_checker_frame "escalation_checker" sample_report_state)
    as (log & events & Hrun & Hframe).
  exists log, events. split; [exact Hrun|]. apply Hframe. reflexivity.
Defined.

(** * Further properties of the source collector *)

(** ** Events without chunks *)

Lemma event_loop_no_chunks evs l :
  (∀ ev, ev ∈ evs → event_chunks ev = []) →
  for_each event_step evs l = Some l.
Proof.
  induction evs as [|ev evs IH]; intros Hevs; cbn [for_each]; [done|].
  rewrite event_step_unfold, (Hevs ev) by (by left).
  cbn [mbind option_bind]. apply IH. intros ev' Hev'. apply Hevs. by right.
Qed.

(** X1. Events without grounding metadata, or whose chunk list is absent
    or empty, are passed over, supports included: a run over such events
    returns and writes back the two dictionaries as it read them. *)
Theorem collect_skips_events_without_chunks ctx :
  (∀ ev, ev ∈ session_events ctx → event_chunks ev = []) →
  collect_research_sources_callback ctx
  = Some (with_registry (state ctx) (index_of (state ctx))
                        (registry_of (state ctx))).
Proof.
  intros Hevs. unfold collect_research_sources_callback.
  by rewrite event_loop_no_chunks.
Qed.

Lemma collect_skips_events_without_chunks_witness :
  (∀ ev, ev ∈ [bare_event; chunkless_event] → event_chunks ev = [])
  ∧ collect_research_sources_callback
      {| session_events := [bare_event; chunkless_event]; state := stale_state |}
    = Some (with_registry stale_state (index_of stale_state)
                          (registry_of stale_state)).
Proof.
  assert (∀ ev, ev ∈ [bare_event; chunkless_event] → event_chunks ev = [])
    as Hevs.
  { intros ev Hev. apply elem_of_cons in Hev as [->|Hev]; [reflexivity|].
    apply elem_of_cons in Hev as [->|Hev]; [reflexivity|].
    by apply elem_of_nil in Hev. }
  split; [exact Hevs|].
  exact (collect_skips_events_without_chunks
           {| session_events := [bare_event; chunkless_event];
              state := stale_state |} Hevs).
Defined.

(** ** When a support raises *)

Lemma append_claim_None sid e srcs :
  append_claim sid e srcs = None ↔ srcs !! sid ≫= si_supported_claims = None.
Proof.
  unfold append_claim. destruct (srcs !! sid) as [si|]; simpl; [|done].
  by destruct (si_supported_claims si).
Qed.

Lemma append_claim_keeps_lists sid e srcs srcs' sid' :
  append_claim sid e srcs = Some srcs' →
  srcs' !! sid' ≫= si_supported_claims = None
  ↔ srcs !! sid' ≫= si_supported_claims = None.
Proof.
  intros (si & claims & Hsi & Hcl & ->)%append_claim_spec.
  rewrite lookup_insert. case_decide as Heq; [|done]. subst sid'.
  rewrite Hsi. simpl. by rewrite Hcl.
Qed.

Lemma index_loop_None sup scores izs l :
  for_each (index_step sup scores) izs l = None
  ↔ ∃ iz sid, iz ∈ izs ∧ chunks_info l !! iz.2 = Some sid
              ∧ sources l !! sid ≫= si_supported_claims = None.
Proof.
  revert l. induction izs as [|[i z] izs IH]; intros l; cbn [for_each].
  - split; [done|]. by intros (iz & sid & ?%elem_of_nil & _).
  - assert (index_step sup scores l (i, z)
            = match chunks_info l !! z with
              | Some sid =>
                srcs ← append_claim sid
                  {| text_segment :=
                       match segment sup with
                       | Some s => text s
                       | None => EmptyString
                       end;
                     confidence :=
                       if bool_decide (i < length scores)
                       then nth i scores default_confidence
                       else default_confidence |} (sources l);
                Some {| url_to_short_id := url_to_short_id l;
                        sources := srcs;
                        id_counter := id_counter l;
                        chunks_info := chunks_info l |}
              | None => Some l
              end) as -> by done.
    destruct (chunks_info l !! z) as [sid|] eqn:Hz.
    + match goal with |- context [append_claim sid ?e (sources l)] =>
        destruct (append_claim sid e (sources l)) as [srcs'|] eqn:Ha end;
        cbn [mbind option_bind].
      * rewrite IH. cbn [chunks_info sources]. split.
        -- intros (iz & sid' & Hin & Hci & Hnone). exists iz, sid'.
           split_and!; [by right|done|].
           by rewrite <-(append_claim_keeps_lists _ _ _ _ sid' Ha).
        -- intros (iz & sid' & [->|Hin]%elem_of_cons & Hci & Hnone).
           ++ simpl in Hci. assert (sid' = sid) as -> by congruence.
              destruct (append_claim_spec _ _ _ _ Ha) as (si & cl & Hsi & Hcl & _).
              rewrite Hsi in Hnone. simpl in Hnone. congruence.
           ++ exists iz, sid'. split_and!; [done..|].
              by rewrite (append_claim_keeps_lists _ _ _ _ sid' Ha).
      * split; [|done]. intros _. exists (i, z), sid.
        split_and!; [by left|done|]. by eapply append_claim_None.
    + cbn [mbind option_bind]. rewrite IH. split.
      * intros (iz & sid' & Hin & Hci & Hnone). exists iz, sid'.
        split_and!; [by right|done..].
      * intros (iz & sid' & [->|Hin]%elem_of_cons & Hci & Hnone).
        -- simpl in Hci. congruence.
        -- by exists iz, sid'.
Qed.

Lemma elem_of_enumerate_from {A : Type} n (xs : list A) (ix : nat * A) :
  ix ∈ enumerate_from n xs ↔ n ≤ ix.1 ∧ xs !! (ix.1 - n) = Some ix.2.
Proof.
  rewrite list_elem_of_lookup. split.
  - intros [i [Hi1 Hi2]%enumerate_from_lookup]. split; [lia|].
    by replace (ix.1 - n) with i by lia.
  - intros [Hn Hix]. exists (ix.1 - n). apply enumerate_from_lookup.
    split; [lia|done].
Qed.

(** X2. A support raises exactly when some position of its chunk-index
    list holds an index that the chunk map resolves to an identifier
    whose record is missing from the registry or has no claims list. *)
Theorem support_step_raises_iff l sup :
  support_step l sup = None
  ↔ ∃ i z sid,
      default [] (grounding_chunk_indices sup) !! i = Some z
      ∧ chunks_info l !! z = Some sid
      ∧ sources l !! sid ≫= si_supported_claims = None.
Proof.
  unfold support_step. rewrite index_loop_None. split.
  - intros ([i z] & sid & [_ Hin]%elem_of_enumerate_from & Hci & Hnone).
    simpl in *. rewrite Nat.sub_0_r in Hin. by exists i, z, sid.
  - intros (i & z & sid & Hi & Hci & Hnone). exists (i, z), sid.
    split_and!; [|done..]. apply elem_of_enumerate_from. simpl.
    split; [lia|]. by rewrite Nat.sub_0_r.
Qed.

Lemma support_step_raises_iff_witness :
  support_step dangling_locals sample_support = None
  ∧ ∃ i z sid,
      default [] (grounding_chunk_indices sample_support) !! i = Some z
      ∧ chunks_info dangling_locals !! z = Some sid
      ∧ sources dangling_locals !! sid ≫= si_supported_claims = None.
Proof.
  assert (∃ i z sid,
      default [] (grounding_chunk_indices sample_support) !! i = Some z
      ∧ chunks_info dangling_locals !! z = Some sid
      ∧ sources dangling_locals !! sid ≫= si_supported_claims = None) as H.
  { exists 0, 0%Z, "src-1". split; [reflexivity|]. split; reflexivity. }
  split; [|exact H].
  exact (proj2 (support_step_raises_iff dangling_locals sample_support) H).
Defined.

(** ** What a run keeps and what it adds *)

Lemma extends_record_refl si : extends_record si si.
Proof.
  split_and!; [done..|]. destruct (si_supported_claims si) as [claims|]; [|done].
  exists []. by rewrite app_nil_r.
Qed.

Lemma extends_record_append si si' claims e :
  extends_record si si' → si_supported_claims si' = Some claims →
  extends_record si
    {| si_short_id := si_short_id si'; si_title := si_title si';
       si_url := si_url si'; si_domain := si_domain si';
       si_supported_claims := Some (claims ++ [e]) |}.
Proof.
  intros (Hid & Ht & Hu & Hd & Hcl) Hclaims. split_and!; [done..|]. simpl.
  destruct (si_supported_claims si) as [claims0|]; [|congruence].
  destruct Hcl as [more Hmore]. exists (more ++ [e]).
  rewrite (assoc_L (++)). congruence.
Qed.

(** X3. A run that starts where the next identifiers are free, and
    returns, only adds to what it found: every URL of the index keeps its
    identifier, and every record of the registry is still there, with the
    same identifier, title, URL and domain, its claims list being the old
    one with claims added at the end. *)
Theorem collect_extends_registry ctx st' :
  next_free (index_of (state ctx)) (registry_of (state ctx)) →
  collect_research_sources_callback ctx = Some st' →
  (∀ u sid, index_of (state ctx) !! u = Some sid → index_of st' !! u = Some sid)
  ∧ ∀ sid si, registry_of (state ctx) !! sid = Some si →
      ∃ si', registry_of st' !! sid = Some si' ∧ extends_record si si'.
Proof.
  intros Hfree Hrun. split.
  - intros u sid Hu. rewrite (index_of_collect _ _ Hrun).
    by apply assign_all_old.
  - set (srcs0 := registry_of (state ctx)) in *.
    assert (from_option
      (λ st', next_free (index_of st') (registry_of st')
              ∧ ∀ sid si, srcs0 !! sid = Some si →
                  ∃ si', registry_of st' !! sid = Some si' ∧ extends_record si si')
      True (collect_research_sources_callback ctx)) as H.
    { apply (collect_inv True
        (λ idx srcs, next_free idx srcs
           ∧ ∀ sid si, srcs0 !! sid = Some si →
               ∃ si', srcs !! sid = Some si' ∧ extends_record si si')).
      - intros idx srcs u t d [Hfree' Hext] Hu. split.
        + by apply next_free_register.
        + intros sid si Hsi. destruct (Hext _ _ Hsi) as (si' & Hsi' & Hrec).
          exists si'. split; [|done]. rewrite lookup_insert_ne; [done|].
          intros <-. eapply (Hfree' (size idx + 1)); [lia|].
          by eapply elem_of_dom_2.
      - intros idx srcs u sid e [Hfree' Hext] Hu.
        destruct (append_claim sid e srcs) as [srcs'|] eqn:Ha; [|done]. simpl.
        split.
        + unfold next_free. by rewrite (append_claim_dom _ _ _ _ Ha).
        + intros sid0 si0 Hsi0. destruct (Hext _ _ Hsi0) as (si' & Hsi' & Hrec).
          apply append_claim_spec in Ha as (si1 & claims & Hsi1 & Hcl & ->).
          rewrite lookup_insert. case_decide as Heq; [|by eauto].
          subst sid0. assert (si1 = si') as -> by congruence.
          eexists. split; [done|]. by apply extends_record_append.
      - split; [done|]. intros sid si Hsi. exists si. split; [done|].
        apply extends_record_refl. }
    rewrite Hrun in H. by destruct H as [_ H].
Qed.

Lemma seeded_state_next_free :
  next_free (index_of seeded_state) (registry_of seeded_state).
Proof.
  intros k Hk Hin.
  change (registry_of seeded_state)
    with ({[ "src-1" := seeded_record ]} : gmap string source_info) in Hin.
  rewrite dom_singleton_L in Hin. apply elem_of_singleton in Hin.
  apply (src_id_inj k 1) in Hin. subst k. vm_compute in Hk. lia.
Defined.

Lemma collect_extends_registry_witness :
  next_free (index_of seeded_state) (registry_of seeded_state)
  ∧ ∃ st',
      collect_research_sources_callback seeded_ctx = Some st'
      ∧ (∀ u sid, index_of seeded_state !! u = Some sid →
                  index_of st' !! u = Some sid)
      ∧ ∀ sid si, registry_of seeded_state !! sid = Some si →
          ∃ si', registry_of st' !! sid = Some si' ∧ extends_record si si'.
Proof.
  split; [exact seeded_state_next_free|].
  destruct (collect_research_sources_callback seeded_ctx) as [st'|] eqn:Hrun;
    [|vm_compute in Hrun; discriminate Hrun].
  exists st'. split; [reflexivity|].
  exact (collect_extends_registry seeded_ctx st' seeded_state_next_free Hrun).
Defined.





(** X5. From any state whatever, a run that returns changes no entry of
    the index; it adds the URLs of the events that are new to the index,
    numbered in first-seen order from the size of the index on, and
    nothing else. *)
Theorem collect_index_from_any_state ctx st' :
  collect_research_sources_callback ctx = Some st' →
  (∀ u sid, index_of (state ctx) !! u = Some sid → index_of st' !! u = Some sid)
  ∧ (∀ k u, new_urls (index_of (state ctx)) (events_urls (session_events ctx)) !! k
            = Some u →
            index_of st' !! u = Some (src_id (size (index_of (state ctx)) + k + 1)))
  ∧ ∀ u, is_Some (index_of st' !! u)
         ↔ is_Some (index_of (state ctx) !! u)
           ∨ u ∈ events_urls (session_events ctx).
Proof.
  intros Hrun. rewrite (index_of_collect _ _ Hrun). split_and!.
  - intros u sid. apply assign_all_old.
  - intros k u. apply assign_all_new.
  - intros u. apply assign_all_is_Some.
Qed.

Lemma collect_index_from_any_state_witness :
  ∃ st',
    collect_research_sources_callback seeded_ctx = Some st'
    ∧ index_of st' !! "u1" = Some "src-1"
    ∧ index_of st' !! "u2" = Some "src-2".
Proof.
  destruct (collect_research_sources_callback seeded_ctx) as [st'|] eqn:Hrun;
    [|vm_compute in Hrun; discriminate Hrun].
  exists st'. split; [reflexivity|].
  destruct (collect_index_from_any_state seeded_ctx st' Hrun)
    as (Hold & Hnew & _).
  split.
  - apply Hold. reflexivity.
  - apply (Hnew 0 "u2"). reflexivity.
Defined.

(** X6. A run that starts where the next identifiers are free, and
    returns, leaves in every record the claims it held followed by the
    claims of the supports that resolve to the record, in the order of
    the events, of their supports and of the positions of their
    chunk-index lists. *)
Theorem collect_claims_in_order ctx st' :
  next_free (index_of (state ctx)) (registry_of (state ctx)) →
  collect_research_sources_callback ctx = Some st' →
  ∀ sid, claims_of (registry_of st') sid
    = claims_of (registry_of (state ctx)) sid
      ++ claims_for sid (session_events ctx ≫= event_claims (index_of st')).
Proof.
  intros Hfree Hrun sid.
  destruct (collect_spec _ _ Hrun) as (_ & _ & _ & _ & _ & Hcl).
  by destruct (Hcl Hfree) as [_ ->].
Qed.

Lemma collect_claims_in_order_witness :
  next_free (index_of seeded_state) (registry_of seeded_state)
  ∧ ∃ st',
      collect_research_sources_callback seeded_ctx = Some st'
      ∧ claims_of (registry_of st') "src-1"
        = [ {| text_segment := "old"; confidence := 1 |};
            {| text_segment := "seg"; confidence := 0.9 |};
            {| text_segment := "seg"; confidence := 1 # 2 |} ].
Proof.
  split; [exact seeded_state_next_free|].
  destruct (collect_research_sources_callback seeded_ctx) as [st'|] eqn:Hrun;
    [|vm_compute in Hrun; discriminate Hrun].
  exists st'. split; [reflexivity|].
  rewrite (collect_claims_in_order seeded_ctx st' seeded_state_next_free Hrun).
  vm_compute in Hrun. injection Hrun as <-. reflexivity.
Defined.

(** ** The record of a URL is made at its first citation *)

Lemma title_choice w :
  (if bool_decide (title w ≠ domain w) then title w else domain w) = title w.
Proof. case_bool_decide as H; [done|]. by symmetry. Qed.

Lemma first_web_app_Some u ws ws' w :
  first_web u ws = Some w → first_web u (ws ++ ws') = Some w.
Proof.
  unfold first_web. rewrite filter_app.
  destruct (filter _ ws) as [|w1 ws1]; [done|]. done.
Qed.

Lemma first_web_app_new u ws w :
  (∀ w', w' ∈ ws → uri w' ≠ u) → uri w = u →
  first_web u (ws ++ w :: nil) = Some w.
Proof.
  intros Hws Hw. unfold first_web. rewrite filter_app.
  assert (filter (λ w0, uri w0 = u) ws = []) as ->.
  { induction ws as [|w1 ws IH]; [done|].
    rewrite filter_cons_False by (apply Hws; by left).
    apply IH. intros w' Hw'. apply Hws. by right. }
  by rewrite filter_cons_True.
Qed.

Lemma record_of_web_insert_ne srcs sid sid' si w :
  sid ≠ sid' → record_of_web srcs sid' w →
  record_of_web (<[sid := si]> srcs) sid' w.
Proof.
  intros Hne (si' & Hsi' & H). exists si'. by rewrite lookup_insert_ne.
Qed.

Lemma chunk_step_first_wins idx0 done l i c l' :
  first_wins idx0 done l →
  chunk_step l (i, c) = Some l' →
  first_wins idx0 (done ++ option_list (web c)) l'.
Proof.
  intros (Hc & Hfree & Hseen & Hrec). unfold chunk_step.
  destruct (web c) as [w|]; cbn [option_list].
  2:{ intros [= <-]. by rewrite app_nil_r. }
  rewrite title_choice. case_bool_decide as Hnew.
  - apply not_elem_of_dom in Hnew. cbn [url_to_short_id sources id_counter].
    rewrite lookup_insert_eq. cbn [mbind option_bind]. intros [= <-].
    rewrite Hc.
    assert (sources l !! src_id (size (url_to_short_id l) + 1) = None) as Hsrc.
    { apply not_elem_of_dom, Hfree. lia. }
    split_and!; cbn [url_to_short_id sources id_counter chunks_info].
    + rewrite map_size_insert_None by done. lia.
    + by apply next_free_register.
    + intros w' [Hw'|Hw']%elem_of_app.
      * rewrite lookup_insert_is_Some. destruct (decide (uri w = uri w')); auto.
      * apply list_elem_of_singleton in Hw' as ->.
        rewrite lookup_insert_eq. by eexists.
    + intros u sid. rewrite lookup_insert. case_decide as Hu.
      * intros [= <-] Hu0. subst u. exists w. split.
        -- apply first_web_app_new; [|done]. intros w' Hw' Heq.
           destruct (Hseen _ Hw') as [sid' Hsid']. congruence.
        -- eexists. rewrite lookup_insert_eq. by split_and!.
      * intros Hsid Hu0. destruct (Hrec _ _ Hsid Hu0) as (w1 & Hw1 & Hr).
        exists w1. split; [by apply first_web_app_Some|].
        apply record_of_web_insert_ne; [|done].
        intros <-. destruct Hr as (si & Hsi & _). congruence.
  - apply elem_of_dom in Hnew as [sid Hsid]. rewrite Hsid.
    cbn [mbind option_bind]. intros [= <-].
    split_and!; cbn [url_to_short_id sources id_counter chunks_info];
      [done..| |].
    + intros w' [Hw'|Hw']%elem_of_app; [by apply Hseen|].
      apply list_elem_of_singleton in Hw' as ->. by eexists.
    + intros u sid' Hsid' Hu0. destruct (Hrec _ _ Hsid' Hu0) as (w1 & Hw1 & Hr).
      exists w1. split; [by apply first_web_app_Some|done].
Qed.

Lemma chunk_loop_first_wins idx0 cs n done l l' :
  first_wins idx0 done l →
  for_each chunk_step (enumerate_from n cs) l = Some l' →
  first_wins idx0 (done ++ omap web cs) l'.
Proof.
  revert n done l. induction cs as [|c cs IH]; intros n done l Hl;
    cbn [enumerate_from for_each].
  - intros [= <-]. by rewrite app_nil_r.
  - destruct (chunk_step l (n, c)) as [l1|] eqn:Hstep; [|done].
    cbn [mbind option_bind]. intros Hloop.
    pose proof (chunk_step_first_wins _ _ _ _ _ _ Hl Hstep) as Hl1.
    apply (IH _ _ _ Hl1) in Hloop.
    replace (done ++ omap web (c :: cs))
      with ((done ++ option_list (web c)) ++ omap web cs); [done|].
    rewrite <-(assoc_L (++)). f_equal. csimpl. by destruct (web c).
Qed.

Lemma index_step_first_wins idx0 done sup scores l iz :
  first_wins idx0 done l →
  from_option (first_wins idx0 done) True (index_step sup scores l iz).
Proof.
  intros (Hc & Hfree & Hseen & Hrec). destruct iz as [i z]. unfold index_step.
  destruct (chunks_info l !! z) as [sid|]; [|done].
  destruct (append_claim sid _ (sources l)) as [srcs'|] eqn:Ha; [|done].
  cbn [mbind option_bind from_option].
  split_and!; cbn [url_to_short_id sources id_counter chunks_info]; [done| |done|].
  - unfold next_free. by rewrite (append_claim_dom _ _ _ _ Ha).
  - intros u sid' Hsid' Hu0. destruct (Hrec _ _ Hsid' Hu0) as (w1 & Hw1 & Hr).
    exists w1. split; [done|]. destruct Hr as (si & Hsi & Hf).
    apply append_claim_spec in Ha as (si1 & claims & Hsi1 & Hcl & ->).
    unfold record_of_web. rewrite lookup_insert. case_decide as Heq.
    + subst sid'. assert (si1 = si) as -> by congruence. by eexists.
    + by exists si.
Qed.

Lemma event_step_first_wins idx0 done l ev l' :
  first_wins idx0 done l →
  event_step l ev = Some l' →
  first_wins idx0 (done ++ omap web (event_chunks ev)) l'.
Proof.
  intros Hl. rewrite event_step_unfold.
  destruct (event_chunks ev) as [|c cs] eqn:Hcs.
  - intros [= <-]. by rewrite app_nil_r.
  - destruct (for_each chunk_step _ _) as [l1|] eqn:Hchunks; [|done].
    cbn [mbind option_bind]. intros Hsups.
    assert (first_wins idx0 (done ++ omap web (c :: cs)) l1) as Hl1.
    { eapply chunk_loop_first_wins; [|exact Hchunks].
      destruct Hl as (? & ? & ? & ?). by split_and!. }
    assert (from_option (first_wins idx0 (done ++ omap web (c :: cs))) True
              (for_each support_step (event_supports ev) l1)) as H.
    { apply for_each_inv; [done|]. intros l2 sup _ Hl2.
      unfold support_step. apply for_each_inv; [done|].
      intros l3 iz _. apply index_step_first_wins. }
    by rewrite Hsups in H.
Qed.

Lemma event_loop_first_wins idx0 evs done l l' :
  first_wins idx0 done l →
  for_each event_step evs l = Some l' →
  first_wins idx0 (done ++ events_webs evs) l'.
Proof.
  revert done l. induction evs as [|ev evs IH]; intros done l Hl;
    cbn [for_each].
  - intros [= <-]. unfold events_webs. by rewrite app_nil_r.
  - destruct (event_step l ev) as [l1|] eqn:Hstep; [|done].
    cbn [mbind option_bind]. intros Hloop.
    pose proof (event_step_first_wins _ _ _ _ _ Hl Hstep) as Hl1.
    apply (IH _ _ Hl1) in Hloop. unfold events_webs in *.
    by rewrite bind_cons, (assoc_L (++)).
Qed.

(** X7. A run that starts where the next identifiers are free, and
    returns.  For a URL that is new to the index, the record the registry
    then holds is the one made for the first web reference with this URL
    among the chunks of the events: it stores the title, the URL and the
    domain of that reference, and the identifier the index gives to the
    URL.  Later references to the URL, whatever their title or domain, do
    not change it; and the stored title is the title of the reference
    also when it equals the domain. *)
Theorem first_citation_fixes_record ctx st' pre w post :
  next_free (index_of (state ctx)) (registry_of (state ctx)) →
  collect_research_sources_callback ctx = Some st' →
  events_webs (session_events ctx) = pre ++ w :: post →
  (∀ w', w' ∈ pre → uri w' ≠ uri w) →
  index_of (state ctx) !! uri w = None →
  ∃ sid, index_of st' !! uri w = Some sid
         ∧ record_of_web (registry_of st') sid w.
Proof.
  intros Hfree Hrun Hwebs Hpre Hnew.
  unfold collect_research_sources_callback in Hrun.
  destruct (for_each event_step _ _) as [l|] eqn:Hloop; [|done].
  cbn [mbind option_bind] in Hrun. injection Hrun as <-.
  apply (event_loop_first_wins (index_of (state ctx)) _ []) in Hloop.
  - destruct Hloop as (_ & _ & Hseen & Hrec). rewrite app_nil_l, Hwebs in *.
    destruct (Hseen w) as [sid Hsid].
    { apply elem_of_app. right. by left. }
    exists sid. split; [done|].
    destruct (Hrec _ _ Hsid Hnew) as (w1 & Hw1 & Hr).
    replace w with w1; [done|].
    unfold first_web in Hw1. rewrite filter_app in Hw1.
    assert (filter (λ w0, uri w0 = uri w) pre = []) as Hnil.
    { clear -Hpre. induction pre as [|w2 pre IH]; [done|].
      rewrite filter_cons_False by (apply Hpre; by left).
      apply IH. intros w' Hw'. apply Hpre. by right. }
    rewrite Hnil, filter_cons_True in Hw1 by done. by injection Hw1.
  - split_and!; [done|done|by intros w' ?%elem_of_nil|].
    intros u sid Hu Hu0. cbn [url_to_short_id] in Hu.
    unfold index_of in Hu0. congruence.
Qed.

Lemma first_citation_fixes_record_witness :
  next_free (index_of empty_state) (registry_of empty_state)
  ∧ ∃ st',
      collect_research_sources_callback
        {| session_events := [sample_event; retitled_event];
           state := empty_state |} = Some st'
      ∧ ∃ sid, index_of st' !! "u1" = Some sid
               ∧ record_of_web (registry_of st') sid
                   {| uri := "u1"; title := "T1"; domain := "d1" |}.
Proof.
  split; [exact next_free_empty|].
  destruct (collect_research_sources_callback
              {| session_events := [sample_event; retitled_event];
                 state := empty_state |}) as [st'|] eqn:Hrun;
    [|vm_compute in Hrun; discriminate Hrun].
  exists st'. split; [reflexivity|].
  apply (first_citation_fixes_record
           {| session_events := [sample_event; retitled_event];
              state := empty_state |} st' []
           {| uri := "u1"; title := "T1"; domain := "d1" |}
           [ {| uri := "u2"; title := "T2"; domain := "d2" |};
             {| uri := "u1"; title := "T1"; domain := "d1" |};
             {| uri := "u1"; title := "Other title"; domain := "other.org" |} ]);
    [exact next_free_empty|exact Hrun|reflexivity| |reflexivity].
  intros w' Hw'. inversion Hw'.
Defined.

(** ** When the run returns *)

Lemma records_ready_register idx srcs u t d :
  records_ready idx srcs → idx !! u = None →
  records_ready (<[u := src_id (size idx + 1)]> idx)
    (<[src_id (size idx + 1) := new_record (src_id (size idx + 1)) t u d]> srcs).
Proof.
  intros Hr Hu v sid Hv.
  destruct (decide (sid = src_id (size idx + 1))) as [->|Hsid].
  - rewrite lookup_insert_eq. by eexists.
  - rewrite lookup_insert_ne by done. apply (Hr v).
    rewrite lookup_insert in Hv. case_decide; [congruence|done].
Qed.

Lemma records_ready_append idx srcs u sid e :
  records_ready idx srcs → idx !! u = Some sid →
  from_option (records_ready idx) False (append_claim sid e srcs).
Proof.
  intros Hr Hu. destruct (Hr _ _ Hu) as (si & Hsi & claims & Hcl).
  unfold append_claim. rewrite Hsi. cbn [mbind option_bind]. rewrite Hcl.
  cbn [mbind option_bind from_option]. intros v sid' Hv.
  rewrite lookup_insert. case_decide; [by eexists|]. by apply (Hr v).
Qed.

(** X8. The run raises only when an identifier of the index has no
    record, or a record without a claims list: from a state in which
    every identifier of the index has a record with a claims list, as
    the empty state and every state a run has left, the run returns,
    whatever the events, and leaves such a state.  The state need not be
    consistent otherwise. *)
Theorem collect_returns ctx :
  records_ready (index_of (state ctx)) (registry_of (state ctx)) →
  ∃ st', collect_research_sources_callback ctx = Some st'
         ∧ records_ready (index_of st') (registry_of st').
Proof.
  intros Hready.
  pose proof (collect_inv False records_ready records_ready_register
                records_ready_append ctx Hready) as Hrun.
  destruct (collect_research_sources_callback ctx) as [st'|]; [|done].
  by exists st'.
Qed.

Lemma stale_state_ready :
  records_ready (index_of stale_state) (registry_of stale_state).
Proof.
  intros u sid Hu.
  change (({[ "a" := "src-2" ]} : gmap string string) !! u = Some sid) in Hu.
  apply lookup_singleton_Some in Hu as [_ <-].
  exists stale_record. split; [reflexivity|]. by eexists.
Qed.

Lemma collect_returns_witness :
  records_ready (index_of (state stale_ctx)) (registry_of (state stale_ctx))
  ∧ ∃ st', collect_research_sources_callback stale_ctx = Some st'
           ∧ records_ready (index_of st') (registry_of st').
Proof.
  split; [exact stale_state_ready|].
  exact (collect_returns stale_ctx stale_state_ready).
Defined.

(** * Further properties of the citation rewriter *)

(** ** One marker of the report *)

(** The callback on a report [pre ++ s] where the pattern matches at [s]:
    [pre] is rewritten, the match is replaced, the text after the match
    is rewritten, and the spacing of the whole is normalized. *)
Lemma callback_marker_split st pre s m post :
  slot_final_cited_report st = Some (pre +:+ s) →
  match_at cite_pattern s = Some (m, post) →
  citation_replacement_callback st
  = (r1 <~ re_sub cite_pattern (tag_replacer (registry_of st)) pre;;
     out <~ tag_replacer (registry_of st) m;;
     r2 <~ re_sub cite_pattern (tag_replacer (registry_of st)) post;;
     ret (text_content (normalize_spacing (r1 +:+ out +:+ r2)),
          with_final_report st (normalize_spacing (r1 +:+ out +:+ r2)))).
Proof.
  intros Hreport Hm. unfold citation_replacement_callback. rewrite Hreport.
  cbn [default from_option id]. fold (registry_of st).
  rewrite (rewrite_markers_split _ _ _ _ _ Hm).
  rewrite bind_assoc. apply bind_ext. intros r1.
  rewrite bind_assoc. apply bind_ext. intros out.
  rewrite bind_assoc. apply bind_ext. intros r2.
  rewrite bind_ret_l, re_sub_normalize, bind_ret_l.
  unfold with_final_report. by rewrite Hreport.
Qed.

(** X9. A marker whose identifier has a record with a URL is replaced by
    a space and the Markdown link to this URL, without a warning; the
    text of the link is the title of the record, the domain when there is
    no title, and the identifier when there is neither.  The text around
    the marker is rewritten as usual and the spacing of the whole is
    normalized. *)
Theorem resolved_marker_linked st pre s m post si url :
  slot_final_cited_report st = Some (pre +:+ s) →
  match_at cite_pattern s = Some (m, post) →
  registry_of st !! group_1 m = Some si →
  si_url si = Some url →
  tag_replacer (registry_of st) m
  = ([], Some (link_text (display_text si (group_1 m)) url))
  ∧ (∀ t, si_title si = Some t → display_text si (group_1 m) = t)
  ∧ (∀ d, si_title si = None → si_domain si = Some d →
          display_text si (group_1 m) = d)
  ∧ (si_title si = None → si_domain si = None →
     display_text si (group_1 m) = group_1 m)
  ∧ ∀ w1 r1 w2 r2,
      re_sub cite_pattern (tag_replacer (registry_of st)) pre = (w1, Some r1) →
      re_sub cite_pattern (tag_replacer (registry_of st)) post = (w2, Some r2) →
      citation_replacement_callback st
      = (w1 ++ w2,
         Some (text_content
                 (normalize_spacing
                    (r1 +:+ link_text (display_text si (group_1 m)) url +:+ r2)),
               with_final_report st
                 (normalize_spacing
                    (r1 +:+ link_text (display_text si (group_1 m)) url +:+ r2)))).
Proof.
  intros Hreport Hm Hsi Hurl.
  assert (tag_replacer (registry_of st) m
          = ([], Some (link_text (display_text si (group_1 m)) url))) as Hrepl.
  { unfold tag_replacer. rewrite Hsi.
    assert (source_info_truthy si = true) as ->.
    { unfold source_info_truthy. rewrite Hurl.
      rewrite (bool_decide_true (is_Some (Some url))) by (by eexists).
      by rewrite !orb_true_r. }
    by rewrite Hurl. }
  split_and!; [done|..].
  - intros t Ht. unfold display_text. by rewrite Ht.
  - intros d Ht Hd. unfold display_text. by rewrite Ht, Hd.
  - intros Ht Hd. unfold display_text. by rewrite Ht, Hd.
  - intros w1 r1 w2 r2 Hpre Hpost.
    rewrite (callback_marker_split _ _ _ _ _ Hreport Hm), Hpre, Hrepl, Hpost.
    simpl. by rewrite app_nil_r.
Qed.

Lemma resolved_marker_linked_witness :
  slot_final_cited_report (odd_report_state ("See" +:+ cite_marker "src-7" +:+ " ."))
  = Some ("See" +:+ cite_marker "src-7" +:+ " .")
  ∧ match_at cite_pattern (cite_marker "src-7" +:+ " .")
    = Some ({| group0 := cite_marker "src-7"; match_group1 := Some "src-7" |}, " .")
  ∧ registry_of (odd_report_state ("See" +:+ cite_marker "src-7" +:+ " ."))
    !! "src-7" = Some untitled_source
  ∧ si_url untitled_source = Some "u7"
  ∧ citation_replacement_callback
      (odd_report_state ("See" +:+ cite_marker "src-7" +:+ " ."))
    = ([], Some (text_content "See [d7.org](u7).",
                 with_final_report
                   (odd_report_state ("See" +:+ cite_marker "src-7" +:+ " ."))
                   "See [d7.org](u7).")).
Proof.
  split; [reflexivity|]. split; [vm_compute; reflexivity|].
  split; [reflexivity|]. split; [reflexivity|].
  destruct (resolved_marker_linked
              (odd_report_state ("See" +:+ cite_marker "src-7" +:+ " ."))
              "See" (cite_marker "src-7" +:+ " .")
              {| group0 := cite_marker "src-7"; match_group1 := Some "src-7" |}
              " ." untitled_source "u7")
    as (_ & _ & _ & _ & Hcall);
    [reflexivity|vm_compute; reflexivity|reflexivity|reflexivity|].
  rewrite (Hcall [] "See" [] " .");
    [|vm_compute; reflexivity|vm_compute; reflexivity].
  vm_compute. reflexivity.
Defined.

(** X10. A marker whose identifier has a record with some key but no URL
    makes the callback raise: nothing is returned and the output slot is
    not written; what the rewriting of the text before the marker has
    logged stays logged. *)
Theorem marker_without_url_raises st pre s m post si :
  slot_final_cited_report st = Some (pre +:+ s) →
  match_at cite_pattern s = Some (m, post) →
  registry_of st !! group_1 m = Some si →
  source_info_truthy si = true →
  si_url si = None →
  tag_replacer (registry_of st) m = ([], None)
  ∧ ∀ w1 r1,
      re_sub cite_pattern (tag_replacer (registry_of st)) pre = (w1, Some r1) →
      citation_replacement_callback st = (w1, None).
Proof.
  intros Hreport Hm Hsi Htruthy Hurl.
  assert (tag_replacer (registry_of st) m = ([], None)) as Hrepl.
  { unfold tag_replacer. by rewrite Hsi, Htruthy, Hurl. }
  split; [done|]. intros w1 r1 Hpre.
  rewrite (callback_marker_split _ _ _ _ _ Hreport Hm), Hpre, Hrepl.
  simpl. by rewrite app_nil_r.
Qed.

Lemma marker_without_url_raises_witness :
  slot_final_cited_report (odd_report_state ("See" +:+ cite_marker "src-8" +:+ " ."))
  = Some ("See" +:+ cite_marker "src-8" +:+ " .")
  ∧ match_at cite_pattern (cite_marker "src-8" +:+ " .")
    = Some ({| group0 := cite_marker "src-8"; match_group1 := Some "src-8" |}, " .")
  ∧ registry_of (odd_report_state ("See" +:+ cite_marker "src-8" +:+ " ."))
    !! "src-8" = Some urlless_source
  ∧ source_info_truthy urlless_source = true
  ∧ si_url urlless_source = None
  ∧ citation_replacement_callback
      (odd_report_state ("See" +:+ cite_marker "src-8" +:+ " ."))
    = ([], None).
Proof.
  split; [reflexivity|]. split; [vm_compute; reflexivity|].
  split; [reflexivity|]. split; [reflexivity|]. split; [reflexivity|].
  destruct (marker_without_url_raises
              (odd_report_state ("See" +:+ cite_marker "src-8" +:+ " ."))
              "See" (cite_marker "src-8" +:+ " .")
              {| group0 := cite_marker "src-8"; match_group1 := Some "src-8" |}
              " ." urlless_source) as [_ Hcall];
    [reflexivity|vm_compute; reflexivity|reflexivity|reflexivity|reflexivity|].
  apply (Hcall [] "See"). vm_compute. reflexivity.
Defined.

(** X11. A marker whose identifier has the empty dictionary for record is
    treated as one whose identifier is absent: one warning, and the
    marker replaced by the empty string. *)
Theorem empty_record_marker_removed st pre s m post si :
  slot_final_cited_report st = Some (pre +:+ s) →
  match_at cite_pattern s = Some (m, post) →
  registry_of st !! group_1 m = Some si →
  source_info_truthy si = false →
  tag_replacer (registry_of st) m = ([removal_warning m], Some EmptyString)
  ∧ ∀ w1 r1 w2 r2,
      re_sub cite_pattern (tag_replacer (registry_of st)) pre = (w1, Some r1) →
      re_sub cite_pattern (tag_replacer (registry_of st)) post = (w2, Some r2) →
      citation_replacement_callback st
      = (w1 ++ removal_warning m :: w2,
         Some (text_content (normalize_spacing (r1 +:+ r2)),
               with_final_report st (normalize_spacing (r1 +:+ r2)))).
Proof.
  intros Hreport Hm Hsi Hfalsy.
  assert (tag_replacer (registry_of st) m
          = ([removal_warning m], Some EmptyString)) as Hrepl.
  { unfold tag_replacer. by rewrite Hsi, Hfalsy. }
  split; [done|]. intros w1 r1 w2 r2 Hpre Hpost.
  rewrite (callback_marker_split _ _ _ _ _ Hreport Hm), Hpre, Hrepl, Hpost.
  simpl. by rewrite app_nil_r, string_app_nil_l.
Qed.

Lemma empty_record_marker_removed_witness :
  slot_final_cited_report (odd_report_state ("See" +:+ cite_marker "src-9" +:+ " ."))
  = Some ("See" +:+ cite_marker "src-9" +:+ " .")
  ∧ match_at cite_pattern (cite_marker "src-9" +:+ " .")
    = Some ({| group0 := cite_marker "src-9"; match_group1 := Some "src-9" |}, " .")
  ∧ registry_of (odd_report_state ("See" +:+ cite_marker "src-9" +:+ " ."))
    !! "src-9" = Some empty_source
  ∧ source_info_truthy empty_source = false
  ∧ citation_replacement_callback
      (odd_report_state ("See" +:+ cite_marker "src-9" +:+ " ."))
    = ([{| level := WARNING;
           message := "Invalid citation tag found and removed: "
                      +:+ cite_marker "src-9" |}],
       Some (text_content "See.",
             with_final_report
               (odd_report_state ("See" +:+ cite_marker "src-9" +:+ " ."))
               "See.")).
Proof.
  split; [reflexivity|]. split; [vm_compute; reflexivity|].
  split; [reflexivity|]. split; [reflexivity|].
  destruct (empty_record_marker_removed
              (odd_report_state ("See" +:+ cite_marker "src-9" +:+ " ."))
              "See" (cite_marker "src-9" +:+ " .")
              {| group0 := cite_marker "src-9"; match_group1 := Some "src-9" |}
              " ." empty_source) as [_ Hcall];
    [reflexivity|vm_compute; reflexivity|reflexivity|reflexivity|].
  rewrite (Hcall [] "See" [] " .");
    [|vm_compute; reflexivity|vm_compute; reflexivity].
  vm_compute. reflexivity.
Defined.

(** ** Reports without a marker *)

Lemma cite_match_not_lt c s :
  c ≠ "<"%char → match_at cite_pattern (String c s) = None.
Proof.
  intros Hc. unfold match_at. rewrite cite_pattern_head, exec_Chr. cbn [input].
  by rewrite bool_decide_false.
Qed.

Lemma rewrite_without_lt repl s :
  occurs "<" s = false → re_sub cite_pattern repl s = ret s.
Proof.
  unfold re_sub. induction s as [|c s IH]; cbn [occurs sub_loop].
  - by rewrite cite_match_nil.
  - intros [Hc Hs]%orb_false_iff. apply bool_decide_eq_false in Hc.
    rewrite cite_match_not_lt by done. by rewrite IH, bind_ret_l.
Qed.

(** X12. A report in which the character [<] does not occur, the absent
    report included, has no marker: nothing is looked up, nothing is
    logged, and the callback returns the report with its spacing
    normalized. *)
Theorem report_without_marker st :
  occurs "<" (default EmptyString (slot_final_cited_report st)) = false →
  citation_replacement_callback st
  = ([], Some (text_content
                 (normalize_spacing
                    (default EmptyString (slot_final_cited_report st))),
               with_final_report st
                 (normalize_spacing
                    (default EmptyString (slot_final_cited_report st))))).
Proof.
  intros Hlt. unfold citation_replacement_callback.
  rewrite (rewrite_without_lt _ _ Hlt), bind_ret_l, re_sub_normalize.
  by rewrite bind_ret_l.
Qed.

Lemma report_without_marker_witness :
  occurs "<" (default EmptyString (slot_final_cited_report empty_state)) = false
  ∧ occurs "<" (default EmptyString
                  (slot_final_cited_report (odd_report_state "a , b"))) = false
  ∧ citation_replacement_callback empty_state
    = ([], Some (text_content EmptyString,
                 with_final_report empty_state EmptyString))
  ∧ citation_replacement_callback (odd_report_state "a , b")
    = ([], Some (text_content "a, b",
                 with_final_report (odd_report_state "a , b") "a, b")).
Proof.
  split; [reflexivity|]. split; [reflexivity|]. split.
  - exact (report_without_marker empty_state eq_refl).
  - exact (report_without_marker (odd_report_state "a , b") eq_refl).
Defined.

(** ** The normalization of the spacing *)

Lemma take_drop_class p s : s = take_class p s +:+ drop_class p s.
Proof.
  induction s as [|c s IH]; [done|]. cbn [take_class drop_class].
  destruct (p c); [|done]. by rewrite string_app_cons, <-IH.
Qed.

(** A greedy repetition takes the whole run when what follows the
    repetition cannot start with a character of the class. *)
Lemma many_greedy p k cs g s :
  (∀ cs' c s', p c = true →
     k {| consumed := cs'; group1 := g; input := String c s' |} = None) →
  many p k cs g s
  = k {| consumed := cs +:+ take_class p s; group1 := g;
         input := drop_class p s |}.
Proof.
  intros Hk. revert cs. induction s as [|c s IH]; intros cs;
    cbn [many take_class drop_class].
  - by rewrite string_app_nil_r.
  - destruct (p c) eqn:Hc; [|by rewrite string_app_nil_r].
    rewrite IH, string_app_assoc, string_app_cons, string_app_nil_l.
    destruct (k _) as [m|] eqn:Hm; [done|]. by rewrite Hk.
Qed.

Lemma punct_not_space c : is_punct c = true → is_space c = false.
Proof.
  unfold is_punct. intros H.
  repeat (apply orb_true_iff in H as [H|H]);
    apply bool_decide_eq_true in H; by subst c.
Qed.

Lemma space_not_punct c : is_space c = true → is_punct c = false.
Proof.
  intros Hs. destruct (is_punct c) eqn:Hp; [|done].
  apply punct_not_space in Hp. congruence.
Qed.

(** The matches of the second pattern: a run of white space, taken whole,
    and the punctuation mark after it. *)
Lemma space_punct_match s :
  match_at space_punct_pattern s
  = match s with
    | String c s' =>
      if is_space c then
        match drop_class is_space s' with
        | String c' rest =>
          if is_punct c' then
            Some ({| group0 := (String c (take_class is_space s'))
                               +:+ String c' EmptyString;
                     match_group1 := Some (String c' EmptyString) |}, rest)
          else None
        | EmptyString => None
        end
      else None
    | EmptyString => None
    end.
Proof.
  unfold match_at, space_punct_pattern. cbn [exec input].
  destruct s as [|c s]; [done|]. destruct (is_space c) eqn:Hc; [|done].
  cbn [consumed group1]. rewrite many_greedy.
  - cbn [exec input consumed group1].
    destruct (drop_class is_space s) as [|c' rest]; [done|].
    destruct (is_punct c'); [|done]. by cbn.
  - intros cs' c0 s0 Hc0. cbn [exec input]. by rewrite space_not_punct.
Qed.

Lemma sub_pure_skip r f w s :
  sub_pure r f (String.length w) (w +:+ s) = sub_pure r f 0 s.
Proof.
  induction w as [|c w IH]; [done|]. by rewrite string_app_cons.
Qed.

Lemma normalize_cons c s :
  normalize_spacing (String c s)
  = if is_space c && punct_ahead s
    then match drop_class is_space s with
         | String c' rest => String c' (normalize_spacing rest)
         | EmptyString => EmptyString
         end
    else String c (normalize_spacing s).
Proof.
  unfold normalize_spacing at 1. cbn [sub_pure]. rewrite space_punct_match.
  unfold punct_ahead. destruct (is_space c); [|done]. cbn [andb].
  pose proof (take_drop_class is_space s) as Hs.
  destruct (drop_class is_space s) as [|c' rest]; [done|].
  destruct (is_punct c'); [|done].
  cbn [group0 group_1 match_group1 default from_option id].
  rewrite string_app_cons. cbn [String.length].
  rewrite Hs at 2.
  replace (take_class is_space s +:+ String c' rest)
    with ((take_class is_space s +:+ String c' EmptyString) +:+ rest)
    by (by rewrite string_app_assoc).
  by rewrite sub_pure_skip.
Qed.

Lemma squeeze_run s :
  punct_ahead s = true →
  squeeze s = match drop_class is_space s with
              | String c' rest => String c' (squeeze rest)
              | EmptyString => EmptyString
              end.
Proof.
  unfold punct_ahead. induction s as [|c s IH]; [done|].
  cbn [drop_class squeeze]. destruct (is_space c) eqn:Hc.
  - intros Hp. fold (punct_ahead s). unfold punct_ahead at 1. rewrite Hp.
    cbn [andb]. by apply IH.
  - intros Hp. by cbn [andb].
Qed.

Lemma drop_class_length p s :
  String.length (drop_class p s) ≤ String.length s.
Proof.
  induction s as [|c s IH]; [done|]. cbn [drop_class].
  destruct (p c); simpl; lia.
Qed.

Lemma normalize_is_squeeze s : normalize_spacing s = squeeze s.
Proof.
  assert (∀ n s, String.length s ≤ n → normalize_spacing s = squeeze s) as H.
  { clear s. induction n as [|n IH]; intros s Hn.
    - destruct s; [done|simpl in Hn; lia].
    - destruct s as [|c s]; [done|]. simpl in Hn.
      rewrite normalize_cons. cbn [squeeze].
      destruct (is_space c && punct_ahead s) eqn:Hcp.
      + apply andb_true_iff in Hcp as [_ Hp]. rewrite (squeeze_run _ Hp).
        pose proof (drop_class_length is_space s) as Hlen.
        destruct (drop_class is_space s) as [|c' rest]; [done|].
        simpl in Hlen. rewrite IH by lia. done.
      + rewrite IH by lia. done. }
  by eapply H.
Qed.

Lemma squeeze_keeps_text s : without_spaces (squeeze s) = without_spaces s.
Proof.
  induction s as [|c s IH]; [done|]. cbn [squeeze].
  destruct (is_space c) eqn:Hc; cbn [andb].
  - destruct (punct_ahead s); cbn [without_spaces]; by rewrite ?Hc, IH.
  - cbn [without_spaces]. by rewrite Hc, IH.
Qed.

(** X13. The second substitution removes exactly the white-space
    characters that are followed, after any further white space, by one
    of the marks [. , ; :]: every run of white space before such a mark
    goes, whole, and nothing else changes; in particular the characters
    that are not white space are all kept, in order. *)
Theorem normalize_spacing_squeeze s :
  normalize_spacing s = squeeze s
  ∧ without_spaces (normalize_spacing s) = without_spaces s.
Proof.
  split; [apply normalize_is_squeeze|].
  rewrite normalize_is_squeeze. apply squeeze_keeps_text.
Qed.

Lemma punct_ahead_squeeze s : punct_ahead (squeeze s) = punct_ahead s.
Proof.
  induction s as [|c s IH]; [done|]. cbn [squeeze].
  destruct (is_space c) eqn:Hc; cbn [andb].
  - destruct (punct_ahead s) eqn:Hp.
    + rewrite IH. unfold punct_ahead. cbn [drop_class]. rewrite Hc.
      by fold (punct_ahead s).
    + unfold punct_ahead. cbn [drop_class]. rewrite Hc.
      fold (punct_ahead (squeeze s)) (punct_ahead s). by rewrite IH.
  - unfold punct_ahead. cbn [drop_class]. by rewrite Hc.
Qed.

Lemma squeeze_idempotent s : squeeze (squeeze s) = squeeze s.
Proof.
  induction s as [|c s IH]; [done|]. cbn [squeeze].
  destruct (is_space c && punct_ahead s) eqn:Hcp; [done|].
  cbn [squeeze]. by rewrite punct_ahead_squeeze, Hcp, IH.
Qed.

Lemma squeeze_clean s : space_before_punct (squeeze s) = false.
Proof.
  induction s as [|c s IH]; [done|]. cbn [squeeze].
  destruct (is_space c && punct_ahead s) eqn:Hcp; [done|].
  cbn [space_before_punct]. rewrite IH, orb_false_r.
  destruct (is_space c) eqn:Hc; [|done]. cbn [andb] in *.
  rewrite <-punct_ahead_squeeze in Hcp. unfold punct_ahead in Hcp.
  destruct (squeeze s) as [|c' t]; [done|]. cbn [drop_class] in Hcp.
  destruct (is_space c') eqn:Hc'; [by apply space_not_punct|done].
Qed.

(** X14. Normalizing the spacing twice is normalizing it once. *)
Theorem normalize_spacing_idempotent s :
  normalize_spacing (normalize_spacing s) = normalize_spacing s.
Proof.
  rewrite !normalize_is_squeeze. apply squeeze_idempotent.
Qed.

(** X15. Whatever the report and the registry, when the callback returns,
    the text it returns, as one text part, is the text it stores in the
    output slot, the other slots being as they were, and in this text no
    white-space character is directly followed by one of the marks
    [. , ; :]. *)
Theorem rewritten_report_spacing st log content st' :
  citation_replacement_callback st = (log, Some (content, st')) →
  ∃ out, content = text_content out
         ∧ st' = with_final_report st out
         ∧ space_before_punct out = false.
Proof.
  unfold citation_replacement_callback.
  destruct (re_sub cite_pattern _ _) as [w [r|]]; [|done].
  rewrite bind_step with (a' := r)
    (g := λ r, ret (text_content (normalize_spacing r),
                    with_final_report st (normalize_spacing r))).
  - simpl. intros [= <- <- <-]. eexists. split_and!; [done..|].
    rewrite normalize_is_squeeze. apply squeeze_clean.
  - by rewrite re_sub_normalize, bind_ret_l.
Qed.

Lemma rewritten_report_spacing_witness :
  ∃ out,
    citation_replacement_callback sample_report_state
    = ([], Some (text_content out,
                 with_final_report sample_report_state out))
    ∧ space_before_punct out = false.
Proof.
  destruct (rewritten_report_spacing sample_report_state []
              (text_content sample_rewritten)
              (with_final_report sample_report_state sample_rewritten))
    as (out & Hc & _ & Hclean); [vm_compute; reflexivity|].
  exists out. split; [|exact Hclean].
  injection Hc as <-. vm_compute. reflexivity.
Defined.

(** ** The markers the pattern recognizes *)

Lemma all_class_app p s t :
  all_class p (s +:+ t) = all_class p s && all_class p t.
Proof.
  induction s as [|c s IH]; [done|].
  rewrite string_app_cons. cbn [all_class]. by rewrite IH, andb_assoc.
Qed.

(** The classes of the pattern are disjoint. *)
Lemma classes_disjoint c :
  (is_space c = true → is_digit c = false ∧ is_quote c = false)
  ∧ (is_quote c = true → is_digit c = false).
Proof.
  destruct c as [[] [] [] [] [] [] [] []]; vm_compute; split; intros; done.
Qed.

Lemma quote_not_space c : is_quote c = true → is_space c = false.
Proof.
  intros Hq. destruct (is_space c) eqn:Hs; [|done].
  destruct (classes_disjoint c) as [Hsd _]. destruct (Hsd Hs). congruence.
Qed.

(** *** Matching along a text of the expected form *)

Lemma exec_Seq r1 r2 k m : exec (r1 ⋅ r2) k m = exec r1 (exec r2 k) m.
Proof. done. Qed.

Lemma exec_Lit w k cs g s :
  exec (Lit w) k {| consumed := cs; group1 := g; input := w +:+ s |}
  = k {| consumed := cs +:+ w; group1 := g; input := s |}.
Proof.
  revert cs. induction w as [|c w IH]; intros cs; cbn [Lit].
  - cbn [exec]. by rewrite string_app_nil_r, string_app_nil_l.
  - rewrite exec_Seq, exec_Chr, string_app_cons. cbn [input].
    rewrite bool_decide_true by done. unfold take_char. cbn [consumed group1].
    rewrite IH. by rewrite string_app_assoc.
Qed.

Lemma many_run p k ws : ∀ cs g s m',
  all_class p ws = true → head_in p s = false →
  k {| consumed := cs +:+ ws; group1 := g; input := s |} = Some m' →
  many p k cs g (ws +:+ s) = Some m'.
Proof.
  induction ws as [|c ws IH]; intros cs g s m' Hws Hs Hk.
  - rewrite string_app_nil_r in Hk. rewrite string_app_nil_l.
    destruct s as [|c s]; [done|]. cbn [many]. cbn [head_in] in Hs.
    by rewrite Hs.
  - cbn [all_class] in Hws. apply andb_true_iff in Hws as [Hc Hws].
    rewrite string_app_cons. cbn [many]. rewrite Hc.
    rewrite (IH _ _ _ m'); [done|done|done|].
    by rewrite string_app_assoc.
Qed.

Lemma step_Lit w r k cs g s m' :
  exec r k {| consumed := cs +:+ w; group1 := g; input := s |} = Some m' →
  exec (Lit w ⋅ r) k {| consumed := cs; group1 := g; input := w +:+ s |}
  = Some m'.
Proof. intros Hr. by rewrite exec_Seq, exec_Lit. Qed.

Lemma step_Chr c r k cs g s m' :
  exec r k {| consumed := cs +:+ String c EmptyString; group1 := g; input := s |}
  = Some m' →
  exec (Chr c ⋅ r) k
    {| consumed := cs; group1 := g; input := String c EmptyString +:+ s |}
  = Some m'.
Proof. apply (step_Lit (String c EmptyString) r). Qed.

Lemma step_Star p ws r k cs g s m' :
  all_class p ws = true → head_in p s = false →
  exec r k {| consumed := cs +:+ ws; group1 := g; input := s |} = Some m' →
  exec (Star p ⋅ r) k {| consumed := cs; group1 := g; input := ws +:+ s |}
  = Some m'.
Proof. intros Hws Hs Hr. cbn [exec consumed group1 input]. by apply many_run. Qed.

Lemma step_Plus p ws r k cs g s m' :
  nonempty ws = true → all_class p ws = true → head_in p s = false →
  exec r k {| consumed := cs +:+ ws; group1 := g; input := s |} = Some m' →
  exec (Plus p ⋅ r) k {| consumed := cs; group1 := g; input := ws +:+ s |}
  = Some m'.
Proof.
  intros Hne Hws Hs Hr. destruct ws as [|c ws]; [done|].
  cbn [all_class] in Hws. apply andb_true_iff in Hws as [Hc Hws].
  cbn [exec]. rewrite string_app_cons. cbn [consumed group1 input]. rewrite Hc.
  apply many_run; [done|done|]. by rewrite string_app_assoc.
Qed.

Lemma step_Opt p q r k cs g s m' :
  from_option p (negb (head_in p s)) q = true →
  exec r k {| consumed := cs +:+ optional_char q; group1 := g; input := s |}
  = Some m' →
  exec (Opt p ⋅ r) k
    {| consumed := cs; group1 := g; input := optional_char q +:+ s |}
  = Some m'.
Proof.
  intros Hq Hr. cbn [exec]. destruct q as [c|]; cbn [from_option optional_char] in *.
  - rewrite string_app_cons, string_app_nil_l. cbn [input]. rewrite Hq.
    unfold take_char. cbn [consumed group1]. by rewrite Hr.
  - rewrite string_app_nil_r in Hr. rewrite string_app_nil_l. cbn [input].
    apply negb_true_iff in Hq. destruct s as [|c s]; [done|].
    cbn [head_in] in Hq. by rewrite Hq.
Qed.

Lemma step_Group w p ds r k cs g s m' :
  nonempty ds = true → all_class p ds = true → head_in p s = false →
  exec r k {| consumed := cs +:+ w +:+ ds; group1 := Some (w +:+ ds);
              input := s |} = Some m' →
  exec (Group (Lit w ⋅ Plus p) ⋅ r) k
    {| consumed := cs; group1 := g; input := w +:+ ds +:+ s |}
  = Some m'.
Proof.
  intros Hne Hds Hs Hr. cbn [exec consumed group1 input].
  rewrite exec_Lit, string_app_nil_l.
  destruct ds as [|c ds]; [done|].
  cbn [all_class] in Hds. apply andb_true_iff in Hds as [Hc Hds].
  rewrite string_app_cons. cbn [consumed group1 input]. rewrite Hc.
  apply many_run; [done|done|]. cbn [consumed input].
  by rewrite string_app_assoc.
Qed.

Lemma head_after_space p w t :
  all_class is_space w = true →
  (∀ c, is_space c = true → p c = false) →
  head_in p t = false →
  head_in p (w +:+ t) = false.
Proof.
  intros Hw Hp Ht. destruct w as [|c w]; [done|].
  cbn [all_class] in Hw. apply andb_true_iff in Hw as [Hc _].
  rewrite string_app_cons. cbn [head_in]. by apply Hp.
Qed.

Lemma head_after_quote p q w t :
  from_option is_quote true q = true →
  (q = None → w = EmptyString) →
  (∀ c, is_quote c = true → p c = false) →
  head_in p t = false →
  head_in p (optional_char q +:+ w +:+ t) = false.
Proof.
  intros Hq Hw Hp Ht. destruct q as [c|]; cbn [from_option optional_char] in *.
  - rewrite string_app_cons. cbn [head_in]. by apply Hp.
  - by rewrite (Hw eq_refl), !string_app_nil_l.
Qed.

Lemma optional_quote_next q w t :
  from_option is_quote true q = true →
  (q = None → w = EmptyString) →
  head_in is_quote t = false →
  from_option is_quote (negb (head_in is_quote (w +:+ t))) q = true.
Proof.
  intros Hq Hw Ht. destruct q as [c|]; cbn [from_option] in *; [done|].
  by rewrite (Hw eq_refl), string_app_nil_l, Ht.
Qed.

(** A marker in canonical form is matched whole, whatever follows it. *)
Lemma canonical_marker_matched f rest :
  well_formed f = true →
  (open_quote f = None → after_open f = EmptyString) →
  (close_quote f = None → after_close f = EmptyString) →
  exec cite_pattern Some
    {| consumed := EmptyString; group1 := None;
       input := marker_text f +:+ rest |}
  = Some {| consumed := marker_text f; group1 := Some (marker_id f);
            input := rest |}.
Proof.
  destruct f as [w1 w2 w3 q1 w4 ds w5 q2 w6]. unfold well_formed.
  cbn [after_cite after_source after_equals open_quote after_open digits
       after_id close_quote after_close].
  intros Hwf Hq1 Hq2. repeat (apply andb_true_iff in Hwf as [Hwf ?]).
  pose proof (λ c, proj1 (classes_disjoint c)) as Hspace.
  pose proof (λ c, proj2 (classes_disjoint c)) as Hquote.
  unfold marker_text, marker_id, cite_pattern, cite_attribute.
  cbn [after_cite after_source after_equals open_quote after_open digits
       after_id close_quote after_close].
  rewrite !string_app_assoc.
  apply step_Lit. apply step_Plus; [done|done|done|].
  apply step_Lit. apply step_Star; [done|done|].
  apply step_Chr. apply step_Star; [done| |].
  { apply head_after_quote; [done|done|apply quote_not_space|done]. }
  apply step_Opt; [by apply optional_quote_next|].
  apply step_Star; [done|done|].
  apply step_Group; [done|done| |].
  { apply head_after_space; [done|by intros c [??]%Hspace|].
    apply head_after_quote; [done|done|by apply Hquote|done]. }
  apply step_Star; [done| |].
  { apply head_after_quote; [done|done|apply quote_not_space|done]. }
  apply step_Opt; [by apply optional_quote_next|].
  apply step_Star; [done|done|].
  rewrite exec_Lit. by rewrite !string_app_assoc.
Qed.

Lemma canonical_text f : marker_text (canonical f) = marker_text f.
Proof.
  unfold marker_text, marker_id, canonical.
  cbn [after_cite after_source after_equals open_quote after_open digits
       after_id close_quote after_close].
  destruct (open_quote f), (close_quote f); cbn [optional_char];
    by rewrite ?string_app_nil_l, ?string_app_assoc.
Qed.

Lemma canonical_well_formed f :
  well_formed f = true → well_formed (canonical f) = true.
Proof.
  unfold well_formed, canonical.
  cbn [after_cite after_source after_equals open_quote after_open digits
       after_id close_quote after_close].
  intros Hwf. repeat (apply andb_true_iff in Hwf as [Hwf ?]).
  destruct (open_quote f), (close_quote f);
    rewrite ?all_class_app; cbn [all_class];
    repeat (apply andb_true_iff; split); done.
Qed.

(** A marker of the tolerant form is matched whole, whatever follows. *)
Lemma exec_marker f rest :
  well_formed f = true →
  exec cite_pattern Some
    {| consumed := EmptyString; group1 := None;
       input := marker_text f +:+ rest |}
  = Some {| consumed := marker_text f; group1 := Some (marker_id f);
            input := rest |}.
Proof.
  intros Hwf. rewrite <-(canonical_text f).
  rewrite canonical_marker_matched.
  - done.
  - by apply canonical_well_formed.
  - unfold canonical. cbn [open_quote after_open]. by intros ->.
  - unfold canonical. cbn [close_quote after_close]. by intros ->.
Qed.

(** X16. The pattern recognizes every marker of the tolerant form: the
    tag name, at least one white-space character, the attribute name, the
    equals sign and the identifier [src-] followed by at least one digit,
    with optional white space around the equals sign, around the
    identifier and before the end of the tag, and with a single or double
    quote, or none, on either side of the identifier, the two sides being
    independent.  Such a marker is matched whole whatever text follows
    it, and group 1 is the identifier without quotes or white space. *)
Theorem marker_matched f rest :
  well_formed f = true →
  match_at cite_pattern (marker_text f +:+ rest)
  = Some ({| group0 := marker_text f; match_group1 := Some (marker_id f) |},
          rest).
Proof.
  intros Hwf. unfold match_at. rewrite (exec_marker f rest Hwf).
  reflexivity.
Qed.

Lemma marker_matched_witness :
  well_formed spaced_form = true
  ∧ well_formed bare_form = true
  ∧ match_at cite_pattern
      ("<cite  source = ' src-042 ' />" +:+ " and <cite source=src-7/>.")
    = Some ({| group0 := "<cite  source = ' src-042 ' />";
               match_group1 := Some "src-042" |},
            " and <cite source=src-7/>.")
  ∧ match_at cite_pattern ("<cite source=src-7/>" +:+ "8")
    = Some ({| group0 := "<cite source=src-7/>";
               match_group1 := Some "src-7" |}, "8").
Proof.
  split; [reflexivity|]. split; [reflexivity|]. split.
  - exact (marker_matched spaced_form " and <cite source=src-7/>." eq_refl).
  - exact (marker_matched bare_form "8" eq_refl).
Defined.

(** *** What a match consists of *)

Lemma many_class p k s : ∀ cs g m',
  many p k cs g s = Some m' →
  ∃ w s1, s = w +:+ s1 ∧ all_class p w = true
          ∧ k {| consumed := cs +:+ w; group1 := g; input := s1 |} = Some m'.
Proof.
  assert (∀ cs g s m',
    k {| consumed := cs; group1 := g; input := s |} = Some m' →
    ∃ w s1, s = w +:+ s1 ∧ all_class p w = true
            ∧ k {| consumed := cs +:+ w; group1 := g; input := s1 |} = Some m')
    as Hstop.
  { intros cs g s' m' Hk. exists EmptyString, s'.
    by rewrite string_app_nil_r, string_app_nil_l. }
  induction s as [|c s IH]; intros cs g m'; cbn [many]; [by apply Hstop|].
  destruct (p c) eqn:Hc; [|by apply Hstop].
  destruct (many p k (cs +:+ String c EmptyString) g s) as [m|] eqn:Hm;
    [|by apply Hstop].
  intros [= <-]. destruct (IH _ _ _ Hm) as (w & s1 & -> & Hw & Hk).
  exists (String c w), s1. cbn [all_class]. rewrite Hc, Hw.
  split; [done|]. split; [done|]. by rewrite string_app_assoc in Hk.
Qed.

Lemma inv_Chr c k cs g s m' :
  exec (Chr c) k {| consumed := cs; group1 := g; input := s |} = Some m' →
  ∃ s1, s = String c EmptyString +:+ s1
        ∧ k {| consumed := cs +:+ String c EmptyString; group1 := g;
               input := s1 |} = Some m'.
Proof.
  rewrite exec_Chr. cbn [input]. destruct s as [|c' s]; [done|].
  case_bool_decide as Hc; [|done]. subst c'. intros Hk. by exists s.
Qed.

Lemma inv_Lit w k : ∀ cs g s m',
  exec (Lit w) k {| consumed := cs; group1 := g; input := s |} = Some m' →
  ∃ s1, s = w +:+ s1
        ∧ k {| consumed := cs +:+ w; group1 := g; input := s1 |} = Some m'.
Proof.
  induction w as [|c w IH]; intros cs g s m'; cbn [Lit].
  - cbn [exec]. intros Hk. exists s. by rewrite string_app_nil_r.
  - rewrite exec_Seq. intros (s1 & -> & (s2 & -> & Hk)%IH)%inv_Chr.
    exists s2. split; [done|]. by rewrite string_app_assoc in Hk.
Qed.

Lemma inv_Star p k cs g s m' :
  exec (Star p) k {| consumed := cs; group1 := g; input := s |} = Some m' →
  ∃ w s1, s = w +:+ s1 ∧ all_class p w = true
          ∧ k {| consumed := cs +:+ w; group1 := g; input := s1 |} = Some m'.
Proof. apply many_class. Qed.

Lemma inv_Plus p k cs g s m' :
  exec (Plus p) k {| consumed := cs; group1 := g; input := s |} = Some m' →
  ∃ w s1, s = w +:+ s1 ∧ nonempty w = true ∧ all_class p w = true
          ∧ k {| consumed := cs +:+ w; group1 := g; input := s1 |} = Some m'.
Proof.
  cbn [exec consumed group1 input]. destruct s as [|c s]; [done|].
  destruct (p c) eqn:Hc; [|done].
  intros (w & s1 & -> & Hw & Hk)%many_class.
  exists (String c w), s1. cbn [all_class nonempty]. rewrite Hc, Hw.
  split_and!; [done..|]. by rewrite string_app_assoc in Hk.
Qed.

Lemma inv_Opt p k cs g s m' :
  exec (Opt p) k {| consumed := cs; group1 := g; input := s |} = Some m' →
  ∃ q s1, s = optional_char q +:+ s1 ∧ from_option p true q = true
          ∧ k {| consumed := cs +:+ optional_char q; group1 := g;
                 input := s1 |} = Some m'.
Proof.
  assert (k {| consumed := cs; group1 := g; input := s |} = Some m' →
    ∃ q s1, s = optional_char q +:+ s1 ∧ from_option p true q = true
            ∧ k {| consumed := cs +:+ optional_char q; group1 := g;
                   input := s1 |} = Some m') as Hskip.
  { intros Hk. exists None, s. cbn [optional_char from_option].
    by rewrite string_app_nil_r. }
  cbn [exec input]. destruct s as [|c s]; [done|].
  destruct (p c) eqn:Hc; [|done].
  destruct (k (take_char _ c s)) as [m1|] eqn:Hk; [|done].
  intros [= <-]. by exists (Some c), s.
Qed.

Lemma inv_Group w p k cs g s m' :
  exec (Group (Lit w ⋅ Plus p)) k
    {| consumed := cs; group1 := g; input := s |} = Some m' →
  ∃ ds s1, s = w +:+ ds +:+ s1 ∧ nonempty ds = true ∧ all_class p ds = true
           ∧ k {| consumed := cs +:+ w +:+ ds; group1 := Some (w +:+ ds);
                  input := s1 |} = Some m'.
Proof.
  intros Hexec.
  change (exec (Lit w ⋅ Plus p)
            (λ m1, k {| consumed := cs +:+ consumed m1;
                        group1 := Some (consumed m1); input := input m1 |})
            {| consumed := EmptyString; group1 := g; input := s |} = Some m')
    in Hexec.
  rewrite exec_Seq in Hexec. apply inv_Lit in Hexec as (s1 & -> & Hexec).
  apply inv_Plus in Hexec as (ds & s2 & -> & Hne & Hds & Hexec).
  cbn [consumed input] in Hexec. rewrite string_app_nil_l in Hexec.
  by exists ds, s2.
Qed.

(** X17. The pattern recognizes nothing else: every match is a marker of
    the tolerant form, and group 1 is its identifier, [src-] followed by
    its digits. *)
Theorem match_is_marker s m rest :
  match_at cite_pattern s = Some (m, rest) →
  ∃ f, well_formed f = true
       ∧ s = marker_text f +:+ rest
       ∧ m = {| group0 := marker_text f; match_group1 := Some (marker_id f) |}.
Proof.
  unfold match_at.
  destruct (exec cite_pattern Some _) as [m1|] eqn:Hexec; [|done].
  cbn [mbind option_bind]. intros [= <- <-].
  unfold cite_pattern, cite_attribute in Hexec.
  rewrite exec_Seq in Hexec. apply inv_Lit in Hexec as (s1 & -> & Hexec).
  rewrite exec_Seq in Hexec.
  apply inv_Plus in Hexec as (w1 & s2 & -> & Hne1 & Hw1 & Hexec).
  rewrite exec_Seq in Hexec. apply inv_Lit in Hexec as (s3 & -> & Hexec).
  rewrite exec_Seq in Hexec.
  apply inv_Star in Hexec as (w2 & s4 & -> & Hw2 & Hexec).
  rewrite exec_Seq in Hexec. apply inv_Chr in Hexec as (s5 & -> & Hexec).
  rewrite exec_Seq in Hexec.
  apply inv_Star in Hexec as (w3 & s6 & -> & Hw3 & Hexec).
  rewrite exec_Seq in Hexec.
  apply inv_Opt in Hexec as (q1 & s7 & -> & Hq1 & Hexec).
  rewrite exec_Seq in Hexec.
  apply inv_Star in Hexec as (w4 & s8 & -> & Hw4 & Hexec).
  rewrite exec_Seq in Hexec.
  apply inv_Group in Hexec as (ds & s9 & -> & Hne & Hds & Hexec).
  rewrite exec_Seq in Hexec.
  apply inv_Star in Hexec as (w5 & s10 & -> & Hw5 & Hexec).
  rewrite exec_Seq in Hexec.
  apply inv_Opt in Hexec as (q2 & s11 & -> & Hq2 & Hexec).
  rewrite exec_Seq in Hexec.
  apply inv_Star in Hexec as (w6 & s12 & -> & Hw6 & Hexec).
  apply inv_Lit in Hexec as (s13 & -> & [= <-]).
  exists {| after_cite := w1; after_source := w2; after_equals := w3;
            open_quote := q1; after_open := w4; digits := ds;
            after_id := w5; close_quote := q2; after_close := w6 |}.
  unfold well_formed, marker_text, marker_id.
  cbn [after_cite after_source after_equals open_quote after_open digits
       after_id close_quote after_close consumed group1 input].
  rewrite Hne1, Hw1, Hw2, Hw3, Hq1, Hw4, Hne, Hds, Hw5, Hq2, Hw6.
  split; [done|]. rewrite !string_app_assoc, string_app_nil_l. done.
Qed.

Lemma match_is_marker_witness :
  match_at cite_pattern "<cite source =src-12 '/> next"
  = Some ({| group0 := "<cite source =src-12 '/>";
             match_group1 := Some "src-12" |}, " next")
  ∧ ∃ f, well_formed f = true
         ∧ "<cite source =src-12 '/> next" = marker_text f +:+ " next"
         ∧ {| group0 := "<cite source =src-12 '/>";
              match_group1 := Some "src-12" |}
           = {| group0 := marker_text f;
                match_group1 := Some (marker_id f) |}.
Proof.
  split; [vm_compute; reflexivity|].
  apply (match_is_marker "<cite source =src-12 '/> next"). vm_compute.
  reflexivity.
Defined.

(** ** Reports with any number of markers *)

(** The scan of a report made of markers and texts without [<] calls the
    replacement function on the markers, in order, and copies the
    texts. *)
Lemma re_sub_items repl items : ∀ t0,
  occurs "<" t0 = false → plain_items items = true →
  re_sub cite_pattern repl (t0 +:+ cited_report items)
  = (tl <~ replace_markers repl items;; ret (t0 +:+ tl)).
Proof.
  induction items as [|[f t] items IH]; intros t0 Ht0 Hitems.
  - cbn [cited_report replace_markers].
    by rewrite bind_ret_l, !string_app_nil_r, rewrite_without_lt.
  - cbn [plain_items forallb fst snd] in Hitems.
    apply andb_true_iff in Hitems as [[Hf Ht%negb_true_iff]%andb_true_iff Hitems].
    cbn [cited_report replace_markers].
    rewrite (rewrite_markers_split repl t0 _ (marker_match f)
               (t +:+ cited_report items)).
    2:{ unfold match_at. by rewrite (exec_marker f _ Hf). }
    rewrite (rewrite_without_lt _ _ Ht0), bind_ret_l, bind_assoc.
    apply bind_ext. intros out.
    rewrite (IH t Ht Hitems), !bind_assoc. apply bind_ext. intros tl.
    by rewrite !bind_ret_l.
Qed.

Lemma replace_markers_resolved srcs items :
  (∀ sid si, srcs !! sid = Some si → is_Some (si_url si)) →
  replace_markers (tag_replacer srcs) items
  = (removal_warnings srcs items, Some (linked_report srcs items)).
Proof.
  intros Hurl. induction items as [|[f t] items IH];
    cbn [replace_markers removal_warnings linked_report]; [done|].
  rewrite IH. unfold tag_replacer, replacement, group_1, marker_match.
  cbn [match_group1 group0 default from_option id].
  destruct (srcs !! marker_id f) as [si|] eqn:Hsi.
  - destruct (Hurl _ _ Hsi) as [url Hu].
    assert (source_info_truthy si = true) as ->.
    { unfold source_info_truthy. rewrite Hu.
      rewrite (bool_decide_true (is_Some (Some url))) by (by eexists).
      by rewrite !orb_true_r. }
    rewrite Hu, bind_ret_l. cbn [bind ret default from_option id].
    by rewrite app_nil_r.
  - unfold logging, removal_warning. cbn [bind ret group0].
    by rewrite !app_nil_r.
Qed.

(** X18. A report made of a text, then markers of the tolerant form each
    followed by a text, [<] occurring in none of the texts, rewritten
    with a registry whose records all have a URL: the callback returns,
    whatever the number of markers; every marker whose identifier has a
    record is replaced by the link of this record, every other marker is
    removed, the texts are kept, and the spacing of the whole is
    normalized; one warning is logged for each marker removed, in the
    order of the report, and nothing else. *)
Theorem plain_report_rewritten st t0 items :
  (∀ sid si, registry_of st !! sid = Some si → is_Some (si_url si)) →
  slot_final_cited_report st = Some (t0 +:+ cited_report items) →
  occurs "<" t0 = false →
  plain_items items = true →
  citation_replacement_callback st
  = (removal_warnings (registry_of st) items,
     Some (text_content
             (normalize_spacing (t0 +:+ linked_report (registry_of st) items)),
           with_final_report st
             (normalize_spacing
                (t0 +:+ linked_report (registry_of st) items)))).
Proof.
  intros Hurl Hreport Ht0 Hitems. unfold citation_replacement_callback.
  rewrite Hreport. cbn [default from_option id]. fold (registry_of st).
  rewrite (re_sub_items _ _ _ Ht0 Hitems).
  rewrite (replace_markers_resolved _ _ Hurl).
  rewrite bind_assoc. cbn [bind]. rewrite bind_ret_l, re_sub_normalize.
  rewrite bind_ret_l. cbn [ret]. rewrite app_nil_r. unfold with_final_report. by rewrite Hreport.
Qed.

Lemma sample_registry_urls sid si :
  sample_registry !! sid = Some si → is_Some (si_url si).
Proof.
  unfold sample_registry.
  intros [[_ <-]|[_ [_ <-]%lookup_singleton_Some]]%lookup_insert_Some;
    by eexists.
Qed.

Lemma plain_report_rewritten_witness :
  (∀ sid si,
     registry_of (with_cited_report sample_report_state
                    ("A" +:+ cited_report three_markers)) !! sid = Some si →
     is_Some (si_url si))
  ∧ occurs "<" "A" = false
  ∧ plain_items three_markers = true
  ∧ "A" +:+ cited_report three_markers
    = "A<cite source=src-1/> ,<cite  source = 'src-99' /> B"
      +:+ cite_marker "src-2" +:+ " ."
  ∧ citation_replacement_callback
      (with_cited_report sample_report_state
         ("A" +:+ cited_report three_markers))
    = ([removal_warning (marker_match unresolved_form)],
       Some (text_content "A [T1](u1), B [T2](u2).",
             with_final_report
               (with_cited_report sample_report_state
                  ("A" +:+ cited_report three_markers))
               "A [T1](u1), B [T2](u2).")).
Proof.
  split; [exact sample_registry_urls|]. split; [reflexivity|].
  split; [reflexivity|]. split; [reflexivity|].
  rewrite (plain_report_rewritten
             (with_cited_report sample_report_state
                ("A" +:+ cited_report three_markers))
             "A" three_markers sample_registry_urls eq_refl eq_refl eq_refl).
  vm_compute. reflexivity.
Defined.

(** ** A second run of the rewriter *)

(** The callback as one substitution followed by the normalization. *)
Lemma callback_unfold st :
  citation_replacement_callback st
  = (r <~ re_sub cite_pattern (tag_replacer (registry_of st))
            (default EmptyString (slot_final_cited_report st));;
     ret (text_content (normalize_spacing r),
          with_final_report st (normalize_spacing r))).
Proof.
  unfold citation_replacement_callback. apply bind_ext. intros r.
  by rewrite re_sub_normalize, bind_ret_l.
Qed.

(** X19. The rewriter reads the report and the registry and writes the
    output slot only, so that running it again changes nothing: on the
    state a run has left, the callback logs the same warnings, returns
    the same content and leaves the same state. *)
Theorem rewriter_rerun_same st log content st' :
  citation_replacement_callback st = (log, Some (content, st')) →
  citation_replacement_callback st' = (log, Some (content, st')).
Proof.
  rewrite !callback_unfold.
  destruct (re_sub cite_pattern _ _) as [w [r|]] eqn:Hsub; [|done].
  cbn [bind ret]. intros [= <- <- <-].
  unfold registry_of, with_final_report.
  cbn [slot_sources slot_final_cited_report].
  fold (registry_of st). by rewrite Hsub.
Qed.

Lemma rewriter_rerun_same_witness :
  citation_replacement_callback unresolved_report_state
  = ([removal_warning
        {| group0 := unresolved_marker; match_group1 := Some "src-99" |}],
     Some (text_content "A, B [T1](u1).",
           with_final_report unresolved_report_state "A, B [T1](u1)."))
  ∧ citation_replacement_callback
      (with_final_report unresolved_report_state "A, B [T1](u1).")
    = ([removal_warning
          {| group0 := unresolved_marker; match_group1 := Some "src-99" |}],
       Some (text_content "A, B [T1](u1).",
             with_final_report unresolved_report_state "A, B [T1](u1).")).
Proof.
  assert (citation_replacement_callback unresolved_report_state
          = ([removal_warning
                {| group0 := unresolved_marker;
                   match_group1 := Some "src-99" |}],
             Some (text_content "A, B [T1](u1).",
                   with_final_report unresolved_report_state
                     "A, B [T1](u1)."))) as Hrun.
  { vm_compute. reflexivity. }
  split; [exact Hrun|].
  exact (rewriter_rerun_same unresolved_report_state _ _ _ Hrun).
Defined.

(** * From the collector to the rewriter *)

(** ** The identifiers of the collector are decimal numbers *)

Lemma pretty_N_char_digit x : is_digit (pretty_N_char x) = true.
Proof. unfold pretty_N_char. by repeat case_match. Qed.

Lemma pretty_N_go_digits x : ∀ s,
  all_class is_digit s = true →
  all_class is_digit (pretty_N_go x s) = true
  ∧ ((0 < x)%N ∨ nonempty s = true → nonempty (pretty_N_go x s) = true).
Proof.
  induction (N.lt_wf_0 x) as [x _ IH]; intros s Hs.
  destruct (decide (x = 0%N)) as [->|Hx].
  - rewrite pretty_N_go_0. split; [done|]. intros [?|?]; [lia|done].
  - rewrite pretty_N_go_step by lia.
    destruct (IH (x `div` 10)%N) with (s := String (pretty_N_char (x `mod` 10)) s)
      as [Hall Hne].
    + apply N.div_lt; lia.
    + cbn [all_class]. by rewrite pretty_N_char_digit, Hs.
    + split; [done|]. intros _. apply Hne. by right.
Qed.

Lemma pretty_nat_digits (n : nat) :
  nonempty (pretty n) = true ∧ all_class is_digit (pretty n) = true.
Proof.
  unfold pretty, pretty_nat, pretty, pretty_N. case_decide as Hn; [done|].
  destruct (pretty_N_go_digits (N.of_nat n) EmptyString) as [Hall Hne]; [done|].
  split; [|done]. apply Hne. left. lia.
Qed.

(** A URL new to the index is given an identifier of the form [src-n]. *)
Lemma assign_all_new_form us : ∀ idx u sid,
  idx !! u = None → assign_all idx us !! u = Some sid → ∃ k, sid = src_id k.
Proof.
  induction us as [|v us IH]; intros idx u sid Hu; cbn [assign_all foldl].
  - by rewrite Hu.
  - fold (assign_all (assign idx v) us). unfold assign at 1.
    destruct (idx !! v) as [sid'|] eqn:Hv; [by apply IH|].
    destruct (decide (v = u)) as [->|Hvu].
    + rewrite (assign_all_old _ _ _ (src_id (size idx + 1)))
        by apply lookup_insert_eq.
      intros [= <-]. by eexists.
    + apply IH. by rewrite lookup_insert_ne.
Qed.

Lemma first_web_first pre w post :
  (∀ w', w' ∈ pre → uri w' ≠ uri w) →
  first_web (uri w) (pre ++ w :: post) = Some w.
Proof.
  intros Hpre. unfold first_web. rewrite filter_app.
  assert (filter (λ w0, uri w0 = uri w) pre = []) as ->.
  { induction pre as [|w2 pre IH]; [done|].
    rewrite filter_cons_False by (apply Hpre; by left).
    apply IH. intros w' Hw'. apply Hpre. by right. }
  by rewrite filter_cons_True.
Qed.

(** X20. The two callbacks fit together.  After a run of the collector
    that starts where the next identifiers are free, and returns, a URL
    that was new to the index has an identifier [src-] followed by
    decimal digits; and on a report that cites this identifier by a
    marker of the tolerant form, between texts without [<], the rewriter
    logs nothing and returns the report with the marker replaced by a
    space and the link [[title](URL)], title and URL being those of the
    first web reference with this URL, and the spacing normalized. *)
Theorem collected_source_linked ctx st' pre w post :
  next_free (index_of (state ctx)) (registry_of (state ctx)) →
  collect_research_sources_callback ctx = Some st' →
  events_webs (session_events ctx) = pre ++ w :: post →
  (∀ w', w' ∈ pre → uri w' ≠ uri w) →
  index_of (state ctx) !! uri w = None →
  ∃ ds, index_of st' !! uri w = Some ("src-" +:+ ds)
        ∧ nonempty ds = true ∧ all_class is_digit ds = true
        ∧ ∀ f st a b,
            well_formed f = true → digits f = ds →
            registry_of st = registry_of st' →
            slot_final_cited_report st = Some (a +:+ marker_text f +:+ b) →
            occurs "<" a = false → occurs "<" b = false →
            citation_replacement_callback st
            = ([], Some (text_content
                           (normalize_spacing
                              (a +:+ link_text (title w) (uri w) +:+ b)),
                         with_final_report st
                           (normalize_spacing
                              (a +:+ link_text (title w) (uri w) +:+ b)))).
Proof.
  intros Hfree Hrun Hwebs Hpre Hnew.
  pose proof (index_of_collect _ _ Hrun) as Hidx.
  unfold collect_research_sources_callback in Hrun.
  destruct (for_each event_step _ _) as [l|] eqn:Hloop; [|done].
  cbn [mbind option_bind] in Hrun. injection Hrun as <-.
  apply (event_loop_first_wins (index_of (state ctx)) _ []) in Hloop.
  2:{ split_and!; [done|done|by intros w' ?%elem_of_nil|].
      intros u sid Hu Hu0. cbn [url_to_short_id] in Hu.
      unfold index_of in Hu0. congruence. }
  destruct Hloop as (_ & _ & Hseen & Hrec). rewrite app_nil_l, Hwebs in *.
  destruct (Hseen w) as [sid Hsid].
  { apply elem_of_app. right. by left. }
  destruct (Hrec _ _ Hsid Hnew) as (w1 & Hw1 & si & Hsi & _ & Ht & Hu & _).
  rewrite (first_web_first _ _ _ Hpre) in Hw1. injection Hw1 as <-.
  assert (∃ k, sid = src_id k) as [k ->].
  { apply (assign_all_new_form (events_urls (session_events ctx))
             (index_of (state ctx)) (uri w)); [done|].
    rewrite <-Hidx. exact Hsid. }
  exists (pretty k). split; [exact Hsid|].
  destruct (pretty_nat_digits k) as [Hne Hds]. split; [done|]. split; [done|].
  intros f st a b Hwf Hf Hreg Hreport Ha Hb.
  rewrite (callback_marker_split st a (marker_text f +:+ b)
             {| group0 := marker_text f; match_group1 := Some (marker_id f) |} b
             Hreport).
  2:{ unfold match_at. by rewrite (exec_marker f b Hwf). }
  rewrite (rewrite_without_lt _ _ Ha), bind_ret_l.
  unfold tag_replacer, group_1. cbn [match_group1 default from_option id].
  unfold marker_id. rewrite Hf, Hreg.
  change ("src-" +:+ pretty k) with (src_id k).
  unfold registry_of at 1. cbn [slot_sources default from_option id].
  rewrite Hsi.
  assert (source_info_truthy si = true) as ->.
  { unfold source_info_truthy. rewrite Hu.
    rewrite (bool_decide_true (is_Some (Some (uri w)))) by (by eexists).
    by rewrite !orb_true_r. }
  rewrite Ht, Hu. cbn [default from_option id].
  rewrite bind_ret_l, (rewrite_without_lt _ _ Hb), bind_ret_l.
  reflexivity.
Qed.

Lemma collected_source_linked_witness :
  next_free (index_of (state sample_ctx)) (registry_of (state sample_ctx))
  ∧ ∃ st' ds,
      collect_research_sources_callback sample_ctx = Some st'
      ∧ index_of st' !! "u1" = Some ("src-" +:+ ds)
      ∧ citation_replacement_callback
          (with_cited_report st'
             ("See" +:+ marker_text (plain_form ds) +:+ " ."))
        = ([], Some (text_content "See [T1](u1).",
                     with_final_report
                       (with_cited_report st'
                          ("See" +:+ marker_text (plain_form ds) +:+ " ."))
                       "See [T1](u1).")).
Proof.
  split; [exact next_free_empty|].
  destruct (collect_research_sources_callback sample_ctx) as [st'|] eqn:Hrun;
    [|vm_compute in Hrun; discriminate Hrun].
  assert (∀ w' : Web, w' ∈ [] → uri w' ≠ "u1") as Hpre.
  { intros w' Hw'. inversion Hw'. }
  destruct (collected_source_linked sample_ctx st' []
              {| uri := "u1"; title := "T1"; domain := "d1" |}
              [ {| uri := "u2"; title := "T2"; domain := "d2" |};
                {| uri := "u1"; title := "T1"; domain := "d1" |} ]
              next_free_empty Hrun eq_refl Hpre eq_refl)
    as (ds & Hidx & Hne & Hds & Hcall).
  exists st', ds. split; [reflexivity|]. split; [exact Hidx|].
  rewrite (Hcall (plain_form ds)
             (with_cited_report st'
                ("See" +:+ marker_text (plain_form ds) +:+ " ."))
             "See" " ."); [reflexivity| |reflexivity..].
  unfold well_formed, plain_form.
  cbn [after_cite after_source after_equals open_quote after_open digits
       after_id close_quote after_close].
  rewrite Hne, Hds. reflexivity.
Defined.
